(** * A verified model of the arXiv daily viewer (app.js)

    The development embeds the filtering, loading, grouping, rendering
    and tag-store logic of [app.js] as executable Rocq functions and
    proves the properties that the design document states about them.
    The model comes first, then the vocabulary of the properties and
    sample data, then the properties.  The last part covers the rest of
    the page: the tag filters, the buttons of a card, the import of a bare
    array, the exports by topic, the rendering, and the two other versions
    of the page that the file holds (the one-day viewer with its index of
    dates, and the read-later viewer).

    Conventions of the model:
    - a JavaScript string is a [string]; its characters stand for the code
      units U+0000..U+00FF, which is where [toLowerCase], [trim] and the
      regular expression class [\s] are defined below;
    - a JavaScript [Set] is the list of its elements in insertion order;
    - an object used as a dictionary is a [dict]: the [gmap] of its own
      properties, keyed by strings, and its prototype; what a name finds
      in the prototype is part of the model, the order of the keys is
      not;
    - the JSON values have no numbers: identities and topic names are
      strings;
    - the page builds HTML from topic names without escaping them; what
      the browser's parse of it decides is an input of the handlers (the
      value of a select) or a parameter of the model (the remove button
      of a badge);
    - code that can throw returns a [completion]. *)

From Stdlib Require Import Ascii String ZArith Lia Sorted.
From stdpp Require Import base option list strings pretty gmap.

Local Open Scope Z_scope.
Local Open Scope stdpp_scope.
Local Open Scope list_scope.

(** ** JavaScript strings *)

Definition code (c : ascii) : N := N_of_ascii c.

(** [String.prototype.toLowerCase] on one code unit: the letters A-Z and
    the Latin-1 capitals U+00C0..U+00DE (except the sign U+00D7) move up
    by 32. *)
Definition lower_char (c : ascii) : ascii :=
  let n := code c in
  if ((65 <=? n) && (n <=? 90))%N then ascii_of_N (n + 32)
  else if ((192 <=? n) && (n <=? 222) && negb (n =? 215))%N then ascii_of_N (n + 32)
  else c.

Fixpoint toLowerCase (s : string) : string :=
  match s with
  | EmptyString => EmptyString
  | String c s' => String (lower_char c) (toLowerCase s')
  end.

(** White space as [trim] and [\s] see it: TAB, LF, VT, FF, CR, SPACE and
    NO-BREAK SPACE. *)
Definition is_ws (c : ascii) : bool :=
  let n := code c in
  (((9 <=? n) && (n <=? 13)) || (n =? 32) || (n =? 160))%N.

Definition is_empty (s : string) : bool :=
  match s with EmptyString => true | String _ _ => false end.

Fixpoint trimStart (s : string) : string :=
  match s with
  | EmptyString => EmptyString
  | String c s' => if is_ws c then trimStart s' else s
  end.

Fixpoint trimEnd (s : string) : string :=
  match s with
  | EmptyString => EmptyString
  | String c s' =>
      let r := trimEnd s' in
      if is_ws c && is_empty r then EmptyString else String c r
  end.

Definition trim (s : string) : string := trimEnd (trimStart s).

Fixpoint startsWith (s p : string) : bool :=
  match p, s with
  | EmptyString, _ => true
  | String _ _, EmptyString => false
  | String a p', String b s' => if Ascii.eqb a b then startsWith s' p' else false
  end.

Fixpoint endsWith (s p : string) : bool :=
  match s with
  | EmptyString => is_empty p
  | String _ s' => String.eqb s p || endsWith s' p
  end.

Fixpoint includes (hay needle : string) : bool :=
  startsWith hay needle ||
  match hay with
  | EmptyString => false
  | String _ hay' => includes hay' needle
  end.

(** [s.slice(b, e)] with JavaScript's treatment of negative and
    out-of-range indices. *)
Definition slice (b e : Z) (s : string) : string :=
  let len := Z.of_nat (String.length s) in
  let from := if b <? 0 then Z.max (len + b) 0 else Z.min b len in
  let to := if e <? 0 then Z.max (len + e) 0 else Z.min e len in
  String.substring (Z.to_nat from) (Z.to_nat (to - from)) s.

Definition dquote : string := String (ascii_of_N 34) EmptyString.

(** ** Papers *)

(** A paper as the JSON files deliver it.  A field that is missing (or
    null) is [None]; [category] is [None] when it is not an array, and
    [category_truthy] then says whether the value is truthy (a string
    that is not empty, true, an object) rather than missing, null, false
    or the empty string. *)
Record paper := Paper {
  paper_id : option string;
  link : option string;
  title : option string;
  summary : option string;
  category : option (list string);
  published : option string;
  category_truthy : bool;
}.

(** The source's [s || empty]: a missing field reads as the empty string. *)
Definition or_empty (s : option string) : string := default "" s.

Definition normalize (s : option string) : string := toLowerCase (or_empty s).

(** ** Filter predicates *)

Definition needle_of (term : string) : string :=
  let quoted := startsWith term dquote && endsWith term dquote in
  toLowerCase (if quoted then slice 1 (-1) term else term).

Definition textMatches (p : paper) (terms : list string) (titleOnly : bool) : bool :=
  if (length terms =? 0)%nat then true
  else
    let title := normalize (title p) in
    let summary := normalize (summary p) in
    let hay := if titleOnly then title else title +:+ " " +:+ summary in
    forallb (fun term =>
      let term := trim term in
      if is_empty term then true
      else includes hay (needle_of term)) terms.

Definition categoryMatches (p : paper) (allowed : gset string) : bool :=
  if (size allowed =? 0)%nat then true
  else
    let cats := match category p with Some l => l | None => [] end in
    existsb (fun c => bool_decide (c ∈ allowed)) cats.

(** ** Term extraction *)

(** The longest prefix of [s] without a double quote, and what follows. *)
Fixpoint span_unquoted (s : string) : string * string :=
  match s with
  | EmptyString => (EmptyString, EmptyString)
  | String c s' =>
      if Ascii.eqb c (ascii_of_N 34) then (EmptyString, s)
      else let (body, rest) := span_unquoted s' in (String c body, rest)
  end.

(** A match, anchored at the start of [s], of the regular expression of
    [getActiveTerms] (a double quote, one or more characters other than a
    double quote, a double quote): the captured group and the text after
    the closing quote. *)
Definition match_quoted (s : string) : option (string * string) :=
  match s with
  | EmptyString => None
  | String c s' =>
      if Ascii.eqb c (ascii_of_N 34) then
        match span_unquoted s' with
        | (String b body, String _ rest) => Some (String b body, rest)
        | _ => None
        end
      else None
  end.

(** The pieces of a string under the global regular expression: matches,
    and the characters outside every match. *)
Inductive piece :=
| Lit (c : ascii)
| Quoted (body : string).

Fixpoint scan_quoted (fuel : nat) (s : string) : list piece :=
  match fuel with
  | O => []
  | S fuel' =>
      match match_quoted s with
      | Some (body, rest) => Quoted body :: scan_quoted fuel' rest
      | None =>
          match s with
          | EmptyString => []
          | String c s' => Lit c :: scan_quoted fuel' s'
          end
      end
  end.

Definition pieces (s : string) : list piece := scan_quoted (String.length s) s.

(** [[...raw.matchAll(re)].map(m => m[1])] *)
Fixpoint groups (ps : list piece) : list string :=
  match ps with
  | [] => []
  | Lit _ :: ps' => groups ps'
  | Quoted body :: ps' => body :: groups ps'
  end.

(** [raw.replace(re, empty)] *)
Fixpoint literals (ps : list piece) : string :=
  match ps with
  | [] => EmptyString
  | Lit c :: ps' => String c (literals ps')
  | Quoted _ :: ps' => literals ps'
  end.

Definition matchAll_quoted (s : string) : list string := groups (pieces s).
Definition replace_quoted (s : string) : string := literals (pieces s).

(** [s.split(/\s+/)]; [in_gap] says that the previous character was white
    space. *)
Fixpoint split_ws_from (in_gap : bool) (s : string) : list string :=
  match s with
  | EmptyString => [EmptyString]
  | String c s' =>
      if is_ws c then
        if in_gap then split_ws_from true s'
        else EmptyString :: split_ws_from true s'
      else
        match split_ws_from false s' with
        | w :: ws => String c w :: ws
        | [] => [String c EmptyString]
        end
  end.

Definition split_ws (s : string) : list string := split_ws_from false s.

(** [getActiveTerms]: [value] is the content of the search box and
    [chips] the [data-term] attributes of the active chips. *)
Definition getActiveTerms (value : string) (chips : list string) : list string :=
  let raw := trim value in
  let quotes := map (fun m => dquote +:+ m +:+ dquote) (matchAll_quoted raw) in
  let withoutQuotes := trim (replace_quoted raw) in
  let singles := if is_empty withoutQuotes then [] else split_ws withoutQuotes in
  List.filter (fun t => negb (is_empty t)) (quotes ++ singles ++ chips).

(** ** Completions *)

Inductive exn := TypeError | SyntaxError | NetworkError.

Inductive completion (A : Type) :=
| Normal (a : A)
| Throw (e : exn).
Arguments Normal {A} a.
Arguments Throw {A} e.

Definition cbind {A B} (c : completion A) (k : A → completion B) : completion B :=
  match c with
  | Normal a => k a
  | Throw e => Throw e
  end.

(** [try { c } catch { h }] *)
Definition catch {A} (c : completion A) (h : A) : A :=
  match c with
  | Normal a => a
  | Throw _ => h
  end.

(** Loops whose body can throw: [map], [filter] and a [for] loop that
    carries a value along. *)
Fixpoint for_each {A B} (f : A → completion B) (l : list A) : completion (list B) :=
  match l with
  | [] => Normal []
  | x :: l' =>
      cbind (f x) (fun y => cbind (for_each f l') (fun ys => Normal (y :: ys)))
  end.

Fixpoint filter_each {A} (f : A → completion bool) (l : list A) : completion (list A) :=
  match l with
  | [] => Normal []
  | x :: l' =>
      cbind (f x) (fun keep =>
      cbind (filter_each f l') (fun xs => Normal (if keep then x :: xs else xs)))
  end.

Fixpoint for_of {A S} (body : S → A → completion S) (s : S) (l : list A) : completion S :=
  match l with
  | [] => Normal s
  | x :: l' => cbind (body s x) (fun s' => for_of body s' l')
  end.

(** ** Loading the daily files *)

Record dated := Dated { paper_of : paper; __date : string }.

(** What [res.json()] delivers when the body parses. *)
Inductive payload :=
| NotArray
| ArrayOf (papers : list paper).

Record response := Response { ok : bool; json_body : completion payload }.

Section Load.
(** The network: [fetch url] either rejects or resolves to a response. *)
Variable fetch : string → completion response.
(** [dayString i] is [fmtDateISO] of the day [i] days before today. *)
Variable dayString : nat → string.

Definition fetchDay (dateStr : string) : list dated :=
  let url := "paper_json/" +:+ dateStr +:+ ".json" in
  catch
    (cbind (fetch url) (fun res =>
       if negb (ok res) then Normal []
       else cbind (json_body res) (fun papers =>
         Normal (match papers with
                 | ArrayOf ps => map (fun p => Dated p dateStr) ps
                 | NotArray => []
                 end))))
    [].

(** The loop of [loadDays] that collects one task per day. *)
Fixpoint loadDays_tasks (i : nat) (remaining : nat) (tasks : list (list dated))
  : list (list dated) :=
  match remaining with
  | O => tasks
  | S remaining' =>
      loadDays_tasks (S i) remaining' (tasks ++ [fetchDay (dayString i)])
  end.

(** [loadDays]: the value assigned to [ALL]. *)
Definition loadDays (nDays : Z) : list dated :=
  let results := loadDays_tasks 0 (Z.to_nat nDays) [] in
  concat results.
End Load.

(** ** Grouping for display *)

(** A [Map] from date strings to arrays, in insertion order. *)
Definition map_has (k : string) (m : list (string * list dated)) : bool :=
  existsb (fun e => String.eqb k (fst e)) m.

Fixpoint map_push (k : string) (p : dated) (m : list (string * list dated))
  : list (string * list dated) :=
  match m with
  | [] => []
  | (k', l) :: m' =>
      if String.eqb k k' then (k', l ++ [p]) :: m' else (k', l) :: map_push k p m'
  end.

Definition group_step (m : list (string * list dated)) (p : dated) :=
  let m := if map_has (__date p) m then m else m ++ [(__date p, [])] in
  map_push (__date p) p m.

(** [Array.prototype.sort] with a comparison function, as a stable
    insertion sort: [a] goes after [b] when [cmp a b > 0]. *)
Fixpoint sort_insert {A} (cmp : A → A → Z) (x : A) (l : list A) : list A :=
  match l with
  | [] => [x]
  | y :: l' => if cmp x y >? 0 then y :: sort_insert cmp x l' else x :: l
  end.

Definition array_sort {A} (cmp : A → A → Z) (l : list A) : list A :=
  foldr (sort_insert cmp) [] l.

Definition by_date_desc (a b : string * list dated) : Z :=
  if String.ltb (fst a) (fst b) then 1 else -1.

Definition groupByDate (papers : list dated) : list (string * list dated) :=
  array_sort by_date_desc (foldl group_step [] papers).

(** ** JSON values and the platform's codec *)

(** The values the tag store reads and writes.  Numbers do not occur in
    the store's data (identities and topic names are strings) and are left
    out.  An object is the list of its properties, as its text has them. *)
Unset Elimination Schemes.
Inductive json :=
| JNull
| JBool (b : bool)
| JStr (s : string)
| JArr (items : list json)
| JObj (props : list (string * json)).
Set Elimination Schemes.

(** [JSON.parse] and [JSON.stringify(v, null, indent)] belong to the
    platform; the store relies on them only through these laws.
    [JSON_parse] is [None] where the platform throws a SyntaxError. *)
Class JSONCodec := {
  JSON_parse : string → option json;
  JSON_stringify : nat → json → string;
  parse_stringify : ∀ indent v, JSON_parse (JSON_stringify indent v) = Some v;
  stringify_nonempty : ∀ indent v, JSON_stringify indent v ≠ EmptyString;
}.

(** Truthiness of a value. *)
Definition truthy (v : json) : bool :=
  match v with
  | JNull => false
  | JBool b => b
  | JStr s => negb (is_empty s)
  | JArr _ | JObj _ => true
  end.

(** [v === s] and [SameValueZero(a, b)]: arrays and objects are compared
    by reference, and two values read from JSON text are never the same
    reference. *)
Definition is_str (s : string) (v : json) : bool :=
  match v with
  | JStr s' => String.eqb s s'
  | _ => false
  end.

Definition sameValueZero (a b : json) : bool :=
  match a, b with
  | JNull, JNull => true
  | JBool x, JBool y => Bool.eqb x y
  | JStr x, JStr y => String.eqb x y
  | _, _ => false
  end.

(** *** Sets *)

Definition set_has (s : list json) (x : json) : bool := existsb (sameValueZero x) s.

Definition set_add (s : list json) (x : json) : list json :=
  if set_has s x then s else s ++ [x].

Definition set_delete (s : list json) (x : json) : list json :=
  List.filter (fun y => negb (sameValueZero x y)) s.

Definition set_add_all (s : list json) (xs : list json) : list json :=
  foldl set_add s xs.

Fixpoint chars (s : string) : list json :=
  match s with
  | EmptyString => []
  | String c s' => JStr (String c EmptyString) :: chars s'
  end.

(** [new Set(v)]: null gives the empty set, an array or a string is
    iterated, anything else is not iterable. *)
Definition new_Set (v : json) : completion (list json) :=
  match v with
  | JNull => Normal []
  | JArr l => Normal (set_add_all [] l)
  | JStr s => Normal (set_add_all [] (chars s))
  | JBool _ | JObj _ => Throw TypeError
  end.

(** *** Property access *)

(** [obj[k]] on the property list of a parsed object: a repeated name
    takes its last value. *)
Fixpoint props_get (k : string) (props : list (string * json)) : option json :=
  match props with
  | [] => None
  | (k', v) :: props' =>
      match props_get k props' with
      | Some v' => Some v'
      | None => if String.eqb k k' then Some v else None
      end
  end.

(** [v[k]] for a name [k] that is not an array index. *)
Definition get_prop (v : json) (k : string) : option json :=
  match v with
  | JObj props => props_get k props
  | _ => None
  end.

Definition index_name (i : nat) : string := pretty i.

(** The names of a property list, each once, where it first occurs. *)
Fixpoint first_names (names : list string) : list string :=
  match names with
  | [] => []
  | k :: names' =>
      k :: List.filter (fun k' => negb (String.eqb k k')) (first_names names')
  end.

(** The own enumerable properties of a value that is not null:
    [Object.keys(v)] with their values.  The names of an object keep the
    order in which its text first has them (the object itself puts the
    names that are array indices before the others; nothing below
    depends on where they stand). *)
Definition own_props (v : json) : completion (list (string * json)) :=
  match v with
  | JNull => Throw TypeError
  | JBool _ => Normal []
  | JStr s => Normal (imap (fun i c => (index_name i, c)) (chars s))
  | JArr l => Normal (imap (fun i x => (index_name i, x)) l)
  | JObj props =>
      Normal (map (fun k => (k, default JNull (props_get k props)))
                  (first_names (map fst props)))
  end.

(** ** Dictionaries

    The star map is a plain object: it starts as an empty object literal
    and gets its properties by assignment.  A name that it does not have
    itself is looked up in its prototype, which is [Object.prototype]
    until an assignment to the name [__proto__] replaces it. *)

(** The names that [Object.prototype] defines.  All are methods, except
    [__proto__], which reads and sets the prototype. *)
Definition Object_prototype : list string :=
  ["constructor"; "__defineGetter__"; "__defineSetter__"; "hasOwnProperty";
   "__lookupGetter__"; "__lookupSetter__"; "isPrototypeOf"; "propertyIsEnumerable";
   "toString"; "valueOf"; "__proto__"; "toLocaleString"].

(** The names that [Set.prototype] defines: methods, except [size],
    which can only be read, and only of a set. *)
Definition Set_prototype : list string :=
  ["constructor"; "has"; "add"; "delete"; "clear"; "entries"; "forEach"; "size";
   "values"; "keys"; "union"; "intersection"; "difference"; "symmetricDifference";
   "isSubsetOf"; "isSupersetOf"; "isDisjointFrom"].

(** A dictionary of sets: its own properties, and the set that has become
    its prototype, if any. *)
Record dict := Dict {
  own : gmap string (list json);
  proto : option (list json);
}.

#[global] Instance dict_empty : Empty dict := Dict ∅ None.

(** [d !! k], [dom d] and [size d] speak of the own properties. *)
#[global] Instance dict_lookup : Lookup string (list json) dict := fun k d => own d !! k.
#[global] Instance dict_dom : Dom dict (gset string) := fun d => dom (own d).
#[global] Instance dict_size : Size dict := fun d => size (own d).

(** What [d[k]] finds: a set, something that is not a set (a method of a
    prototype, or [Object.prototype] itself), or nothing. *)
Inductive property :=
| IsSet (set : list json)
| NotSet
| Undefined.

(** The lookup of a name in the prototype.  Through a set as prototype,
    [__proto__] finds that set, and reading [size] throws, since the
    dictionary is not a set. *)
Definition inherited (d : dict) (k : string) : completion property :=
  match proto d with
  | None => Normal (if bool_decide (k ∈ Object_prototype) then NotSet else Undefined)
  | Some set =>
      if String.eqb k "__proto__" then Normal (IsSet set)
      else if String.eqb k "size" then Throw TypeError
      else Normal (if bool_decide (k ∈ Set_prototype ++ Object_prototype)
                   then NotSet else Undefined)
  end.

(** [d[k]] *)
Definition dict_get (d : dict) (k : string) : completion property :=
  match own d !! k with
  | Some set => Normal (IsSet set)
  | None => inherited d k
  end.

(** [d[k] = set] in strict mode: the name [__proto__] sets the prototype
    and creates no property; a name that only has a getter in the
    prototype cannot be assigned; any other name becomes or stays an own
    property. *)
Definition dict_set (d : dict) (k : string) (set : list json) : completion dict :=
  match own d !! k with
  | Some _ => Normal (Dict (<[k := set]> (own d)) (proto d))
  | None =>
      if String.eqb k "__proto__" then Normal (Dict (own d) (Some set))
      else
        match proto d with
        | Some _ =>
            if String.eqb k "size" then Throw TypeError
            else Normal (Dict (<[k := set]> (own d)) (proto d))
        | None => Normal (Dict (<[k := set]> (own d)) (proto d))
        end
  end.

(** [if(!d[k]) d[k] = new Set()]: whatever is found is truthy. *)
Definition dict_ensure (d : dict) (k : string) : completion dict :=
  cbind (dict_get d k) (fun found =>
    match found with
    | Undefined => dict_set d k []
    | IsSet _ | NotSet => Normal d
    end).

(** [d[k].add(x)] and [d[k].delete(x)]: the set that [d[k]] finds is
    changed in place; whatever else is found has no such method. *)
Definition dict_update (d : dict) (k : string) (f : list json → list json)
  : completion dict :=
  match own d !! k with
  | Some set => Normal (Dict (<[k := f set]> (own d)) (proto d))
  | None =>
      cbind (inherited d k) (fun found =>
        match found with
        | IsSet set => Normal (Dict (own d) (Some (f set)))
        | NotSet | Undefined => Throw TypeError
        end)
  end.

(** [delete d[k]] removes an own property. *)
Definition dict_delete (d : dict) (k : string) : dict :=
  Dict (delete k (own d)) (proto d).

(** [for (const k of Object.keys(obj)) out[k] = new Set(obj[k])] *)
Fixpoint sets_of_props (props : list (string * json)) (out : dict) : completion dict :=
  match props with
  | [] => Normal out
  | (k, v) :: props' =>
      cbind (new_Set v) (fun set =>
      cbind (dict_set out k set) (fun out' => sets_of_props props' out'))
  end.

Definition sets_of (obj : json) : completion dict :=
  cbind (own_props obj) (fun props => sets_of_props props ∅).

(** ** The tag store *)

Definition READ_LATER : string := "arxiv_read_later".
Definition TOPICS : string := "arxiv_topics".
Definition STARS_BY_TOPIC : string := "arxiv_stars_by_topic".

Section Store.
Context `{codec : JSONCodec}.

(** Browser-local storage is a map from keys to strings. *)
Definition loadJSON (key : string) (fallback : json) (st : gmap string string) : json :=
  match st !! key with
  | None => fallback
  | Some s =>
      if is_empty s then fallback
      else match JSON_parse s with
           | Some v => v
           | None => fallback
           end
  end.

Definition saveJSON (key : string) (val : json) (st : gmap string string)
  : gmap string string :=
  <[key := JSON_stringify 0 val]> st.

Definition loadReadLater (st : gmap string string) : completion (list json) :=
  new_Set (loadJSON READ_LATER (JArr []) st).

Definition saveReadLater (set : list json) (st : gmap string string) :=
  saveJSON READ_LATER (JArr set) st.

Definition loadTopics (st : gmap string string) : json :=
  loadJSON TOPICS (JArr []) st.

Definition saveTopics (list : json) (st : gmap string string) :=
  saveJSON TOPICS list st.

Definition loadStarsByTopic (st : gmap string string) : completion dict :=
  sets_of (loadJSON STARS_BY_TOPIC (JObj []) st).

(** [saveStarsByTopic]: the copy [plain] gets its properties by
    assignment too, so that an own property named [__proto__], which no
    dictionary of the page has, would not reach the stored text. *)
Definition saveStarsByTopic (map : dict) (st : gmap string string) :=
  let plain :=
    (fun kv => (fst kv, JArr (snd kv))) <$> map_to_list (delete "__proto__" (own map)) in
  saveJSON STARS_BY_TOPIC (JObj plain) st.
End Store.

(** ** Identity and tag filters *)

(** [a || b] on two fields of a paper: the first when it is a non-empty
    string, the second otherwise. *)
Definition or_else (a b : option string) : option string :=
  match a with
  | Some s => if is_empty s then b else a
  | None => b
  end.

(** [getPaperId]: the first of id, link and title that is not empty;
    when all three are empty or missing it is the title, and [None] is
    the undefined of a missing title (a title is a string or missing,
    not null). *)
Definition getPaperId (p : paper) : option string :=
  or_else (or_else (paper_id p) (link p)) (title p).

(** [set.has(id)] for the identity of a paper: undefined is in no set
    that was read from JSON text. *)
Definition has_id (set : list json) (id : option string) : bool :=
  match id with
  | Some id => set_has set (JStr id)
  | None => false
  end.

Definition readLaterMatches (p : paper) (onlyRL : bool) (rlSet : list json) : bool :=
  if negb onlyRL then true else has_id rlSet (getPaperId p).

(** [Object.values] takes the own properties. *)
Definition starredMatches (p : paper) (onlyStar : bool) (starsByTopic : dict) : bool :=
  if negb onlyStar then true
  else
    let id := getPaperId p in
    existsb (fun set => has_id set id) (snd <$> map_to_list (own starsByTopic)).

(** [topicMatches]: what [starsByTopic[topic]] finds is a set, or has no
    method [has]. *)
Definition topicMatches (p : paper) (topic : string) (starsByTopic : dict)
  : completion bool :=
  if is_empty topic then Normal true
  else
    cbind (dict_get starsByTopic topic) (fun set =>
      match set with
      | Undefined => Normal false
      | IsSet set => Normal (has_id set (getPaperId p))
      | NotSet => Throw TypeError
      end).

(** A category check box of the page. *)
Record checkbox := Checkbox { box_checked : bool; box_value : string }.

Definition getAllowedCats (boxes : list checkbox) : gset string :=
  list_to_set (map box_value (List.filter box_checked boxes)).

(** ** Filtering and rendering *)

(** The controls that [applyFilters] reads: the search box, the terms of
    the active chips, the check boxes and the topic select. *)
Record controls := Controls {
  search_value : string;
  active_chips : list string;
  titleOnly_checked : bool;
  cat_boxes : list checkbox;
  onlyReadLater_checked : bool;
  onlyStarred_checked : bool;
  topicFilter_value : string;
}.

(** The browser's HTML parser, as far as the rendering depends on it.
    The markup of a topic badge is the topic name, not escaped, followed
    by the remove button; [badge_button topic] says whether the parse of
    that markup has an element of class [x], which [render] attaches the
    remove handler to.  A name without the character [<] is text to the
    parser and leaves the button in place. *)
Fixpoint has_lt (s : string) : bool :=
  match s with
  | EmptyString => false
  | String c s' => (code c =? 60)%N || has_lt s'
  end.

Class HTMLParser := {
  badge_button : string → bool;
  badge_button_plain : ∀ topic, has_lt topic = false → badge_button topic = true;
}.

(** What [render] shows for one paper: its categories, the state of its
    two buttons and its topic badges (in the order of the map, not of
    the object).  The other texts of the card are fields of the paper.
    The options of its topic select are HTML that the browser parses from
    the topic names; they are not part of the model. *)
Record card := Card {
  card_paper : dated;
  card_categories : string;
  rlActive : bool;
  isStarred : bool;
  badges : list string;
}.

(** The content of the page: a message, or one section per date. *)
Inductive content :=
| TextContent (text : string)
| Sections (sections : list (string * list card)).

Record view := View { view_content : content; view_count : string }.

(** [(p.category || []).join(sep)]: a category that is truthy and not an
    array has no method [join]. *)
Definition join_category (p : paper) : completion string :=
  match category p with
  | Some cats => Normal (String.concat ", " cats)
  | None => if category_truthy p then Throw TypeError else Normal ""
  end.

Section Render.
Context `{codec : JSONCodec} `{html : HTMLParser}.

(** [applyFilters]: the papers handed to [render].  The tests of a paper
    are joined by [&&]: the topic test runs only on a paper that passed
    the four others. *)
Definition filtered (els : controls) (ALL : list dated) (st : gmap string string)
  : completion (list dated) :=
  let terms := getActiveTerms (search_value els) (active_chips els) in
  let titleOnly := titleOnly_checked els in
  let cats := getAllowedCats (cat_boxes els) in
  let onlyRL := onlyReadLater_checked els in
  let onlyStar := onlyStarred_checked els in
  let topicSel := topicFilter_value els in
  cbind (loadReadLater st) (fun rlSet =>
  cbind (loadStarsByTopic st) (fun starsByTopic =>
    filter_each (fun p =>
        if categoryMatches (paper_of p) cats &&
           textMatches (paper_of p) terms titleOnly &&
           readLaterMatches (paper_of p) onlyRL rlSet &&
           starredMatches (paper_of p) onlyStar starsByTopic
        then topicMatches (paper_of p) topicSel starsByTopic
        else Normal false) ALL)).

(** [ensureTopicOptions] maps over the stored topic list, which has to be
    an array for that. *)
Definition ensureTopicOptions (st : gmap string string) : completion unit :=
  match loadTopics st with
  | JArr _ => Normal tt
  | _ => Throw TypeError
  end.

(** The card of one paper.  The query for the remove button of a badge
    finds nothing when the markup of the badge has none, and attaching
    the handler to nothing throws. *)
Definition render_card (rlSet : list json) (stars : dict)
    (st : gmap string string) (p : dated) : completion card :=
  let id := getPaperId (paper_of p) in
  cbind (join_category (paper_of p)) (fun categories =>
  let rlActive := has_id rlSet id in
  let isStarred := existsb (fun s => has_id s id) (snd <$> map_to_list (own stars)) in
  cbind (ensureTopicOptions st) (fun _ =>
  let topics := fst <$> List.filter (fun e => has_id (snd e) id) (map_to_list (own stars)) in
  if forallb badge_button topics
  then Normal (Card p categories rlActive isStarred topics)
  else Throw TypeError)).

(** The loop of [render] over the groups; [total] counts the papers. *)
Fixpoint render_groups (rlSet : list json) (stars : dict)
    (st : gmap string string) (groups : list (string * list dated)) (total : nat)
  : completion (list (string * list card) * nat) :=
  match groups with
  | [] => Normal ([], total)
  | (date, items) :: groups' =>
      if (length items =? 0)%nat then render_groups rlSet stars st groups' total
      else
        let total := (total + length items)%nat in
        cbind (for_each (render_card rlSet stars st) items) (fun cards =>
        cbind (render_groups rlSet stars st groups' total) (fun r =>
          Normal ((date, cards) :: fst r, snd r)))
  end.

(** [render]: the content and the count it leaves on the page when it
    completes; when it throws, the page keeps what was put there before
    and no count is written. *)
Definition render (papers : list dated) (st : gmap string string) : completion view :=
  let groups := groupByDate papers in
  if (length groups =? 0)%nat
  then Normal (View (TextContent "No papers match your filters.") "0")
  else
    cbind (loadReadLater st) (fun rlSet =>
    cbind (loadStarsByTopic st) (fun stars =>
    cbind (render_groups rlSet stars st groups 0) (fun r =>
      Normal (View (Sections (fst r)) (pretty (snd r)))))).

(** What [applyFilters] leaves on the page. *)
Definition page_view (els : controls) (ALL : list dated) (st : gmap string string)
  : completion view :=
  cbind (filtered els ALL st) (fun papers => render papers st).

End Render.

(** ** Event handlers

    A handler runs on the current storage, may write to it, and either
    completes or throws; what it wrote before throwing stays written.
    The answers the user gives to [prompt] and [confirm] are arguments
    ([None] is a dismissed prompt). *)

Definition js (A : Type) : Type :=
  gmap string string → completion A * gmap string string.

Definition js_ret {A} (a : A) : js A := fun st => (Normal a, st).

Definition js_bind {A B} (m : js A) (k : A → js B) : js B :=
  fun st =>
    match m st with
    | (Normal a, st') => k a st'
    | (Throw e, st') => (Throw e, st')
    end.

Definition throw {A} (e : exn) : js A := fun st => (Throw e, st).
Definition lift {A} (f : gmap string string → completion A) : js A :=
  fun st => (f st, st).
Definition of_completion {A} (c : completion A) : js A := fun st => (c, st).
Definition read {A} (f : gmap string string → A) : js A :=
  fun st => (Normal (f st), st).
Definition write (f : gmap string string → gmap string string) : js unit :=
  fun st => (Normal tt, f st).
Definition try_catch {A} (m : js A) (handler : js A) : js A :=
  fun st =>
    match m st with
    | (Normal a, st') => (Normal a, st')
    | (Throw _, st') => handler st'
    end.

#[global] Instance js_mret : MRet js := @js_ret.
#[global] Instance js_mbind : MBind js := fun A B k m => js_bind m k.

(** How a handler ends: it ran to its end, it returned early without a
    word, or it showed an alert, or two in a row (the longer alert texts
    are abridged). *)
Inductive outcome :=
| Done
| Quit
| Alert (msg : string)
| AlertTwice (first second : string).

(** The page that a handler runs on: the controls, as [applyFilters]
    finds them when the handler calls it, and the loaded papers. *)
Class Page := {
  els : controls;
  ALL : list dated;
}.

Section Handlers.
Context `{codec : JSONCodec} `{html : HTMLParser} `{page : Page}.

(** [refreshTopicFilterSelect] maps over the stored topic list, which has
    to be an array for that.  (The options it writes are HTML that the
    browser parses from the topic names, and the value that the select
    has afterwards is the one in [els].) *)
Definition refreshTopicFilterSelect : js unit :=
  topics ← read loadTopics;
  match topics with
  | JArr _ => js_ret tt
  | _ => throw TypeError
  end.

(** [applyFilters] filters the loaded papers and renders them; it reads
    the storage and writes nothing.  (The optional backend sync that
    follows it in the handlers is switched off.) *)
Definition applyFilters : js view := lift (page_view els ALL).

Definition createTopic (name : option string) : js outcome :=
  match name with
  | None => js_ret Quit
  | Some name =>
      if is_empty name then js_ret Quit
      else
        topics ← read loadTopics;
        match topics with
        | JArr l =>
            if existsb (is_str name) l then js_ret (Alert "Topic already exists.")
            else
              write (saveTopics (JArr (l ++ [JStr name])));;
              sbt ← lift loadStarsByTopic;
              sbt ← of_completion (dict_ensure sbt name);
              write (saveStarsByTopic sbt);;
              refreshTopicFilterSelect;;
              applyFilters;;
              js_ret Done
        | JStr s =>
            if includes s name then js_ret (Alert "Topic already exists.")
            else throw TypeError
        | _ => throw TypeError
        end
  end.

(** The check [topics.length === 0] and the [topics.join] of the prompt
    that follows: the continuation runs on a non-empty array. *)
Definition with_topics (empty_msg : string) (k : list json → js outcome)
  : js outcome :=
  topics ← read loadTopics;
  match topics with
  | JArr [] => js_ret (Alert empty_msg)
  | JArr l => k l
  | JStr EmptyString => js_ret (Alert empty_msg)
  | _ => throw TypeError
  end.

(** [sbt[newName] = sbt[oldName] || new Set(); delete sbt[oldName]].
    When the old name finds something that is not a set, that object
    becomes the new prototype (for the new name [__proto__]) or an own
    property; as an own property it makes the spread of
    [saveStarsByTopic] throw, unless the delete removes it again. *)
Definition move_set (sbt : dict) (oldName newName : string) : completion dict :=
  cbind (dict_get sbt oldName) (fun found =>
  cbind (match found with
         | IsSet set => dict_set sbt newName set
         | Undefined => dict_set sbt newName []
         | NotSet =>
             if String.eqb newName "__proto__" || String.eqb newName oldName
             then Normal sbt else Throw TypeError
         end) (fun sbt' =>
    Normal (dict_delete sbt' oldName))).

Definition renameTopic (oldName newName : option string) : js outcome :=
  with_topics "No topics to rename." (fun topics =>
    match oldName with
    | None => js_ret Quit
    | Some oldName =>
        if is_empty oldName || negb (existsb (is_str oldName) topics) then js_ret Quit
        else
          match newName with
          | None => js_ret Quit
          | Some newName =>
              if is_empty newName then js_ret Quit
              else if existsb (is_str newName) topics && negb (String.eqb newName oldName)
              then js_ret (Alert "A topic with that name already exists.")
              else
                let newTopics :=
                  map (fun t => if is_str oldName t then JStr newName else t) topics in
                write (saveTopics (JArr newTopics));;
                sbt ← lift loadStarsByTopic;
                sbt ← of_completion (move_set sbt oldName newName);
                write (saveStarsByTopic sbt);;
                refreshTopicFilterSelect;;
                applyFilters;;
                js_ret Done
          end
    end).

Definition deleteTopic (name : option string) (confirmed : bool) : js outcome :=
  with_topics "No topics to delete." (fun topics =>
    match name with
    | None => js_ret Quit
    | Some name =>
        if is_empty name || negb (existsb (is_str name) topics) then js_ret Quit
        else if negb confirmed then js_ret Quit
        else
          let newTopics := List.filter (fun t => negb (is_str name t)) topics in
          write (saveTopics (JArr newTopics));;
          sbt ← lift loadStarsByTopic;
          write (saveStarsByTopic (dict_delete sbt name));;
          refreshTopicFilterSelect;;
          applyFilters;;
          js_ret Done
    end).

(** The handlers that [render] attaches to each paper; [id] is the
    paper's identity. *)
Definition toggleReadLater (id : string) : js outcome :=
  set ← lift loadReadLater;
  let set := if set_has set (JStr id) then set_delete set (JStr id)
             else set_add set (JStr id) in
  write (saveReadLater set);;
  applyFilters;;
  js_ret Done.

Definition is_starred (id : string) (sbt : dict) : bool :=
  existsb (fun e => set_has (snd e) (JStr id)) (map_to_list (own sbt)).

Definition toggleStar (id : string) : js outcome :=
  stars ← lift loadStarsByTopic;
  if negb (is_starred id stars) then
    topics ← read loadTopics;
    match topics with
    | JNull => throw TypeError
    | JArr [] | JStr EmptyString =>
        js_ret (Alert "No topics yet. Click New Topic above to create one, then use the + topic select to add.")
    | _ => js_ret (Alert "Use the + topic select to add this paper into a topic.")
    end
  else
    sbt ← lift loadStarsByTopic;
    let sbt := Dict ((fun set => set_delete set (JStr id)) <$> own sbt) (proto sbt) in
    write (saveStarsByTopic sbt);;
    applyFilters;;
    js_ret Done.

(** The change of a card's topic select; [t] is the value of the chosen
    option. *)
Definition addToTopic (t : string) (id : string) : js outcome :=
  if is_empty t then js_ret Quit
  else
    sbt ← lift loadStarsByTopic;
    sbt ← of_completion (dict_ensure sbt t);
    sbt ← of_completion (dict_update sbt t (fun set => set_add set (JStr id)));
    write (saveStarsByTopic sbt);;
    applyFilters;;
    js_ret Done.

Definition removeFromTopic (topic : string) (id : string) : js outcome :=
  sbt ← lift loadStarsByTopic;
  sbt ← of_completion (dict_update sbt topic (fun set => set_delete set (JStr id)));
  write (saveStarsByTopic sbt);;
  applyFilters;;
  js_ret Done.

(** [exportReadLater]: the text handed to [download]. *)
Definition exportReadLater (st : gmap string string) : completion string :=
  cbind (loadReadLater st) (fun rl => Normal (JSON_stringify 2 (JArr rl))).

(** [importJSONFile]: [text] is the content of the chosen file and
    [kind] the answer to the prompt for the destination.  The alert for a
    format that is not recognized is shown before the refresh and the
    filters run; when these throw, the alert of the catch block follows
    it. *)
Definition importJSONFile (text : string) (kind : option string) : js outcome :=
  let unrecognized :=
    try_catch
      (refreshTopicFilterSelect;; applyFilters;;
       js_ret (Alert "Unrecognized JSON format."))
      (js_ret (AlertTwice "Unrecognized JSON format." "Failed to parse JSON.")) in
  try_catch
    (match JSON_parse text with
     | None => throw SyntaxError
     | Some (JArr ids) =>
         match kind with
         | None => js_ret Quit
         | Some kind =>
             if is_empty kind then js_ret Quit
             else
               (if String.eqb kind "read_later" then
                  set ← lift loadReadLater;
                  write (saveReadLater (set_add_all set ids))
                else
                  topics ← read loadTopics;
                  match topics with
                  | JArr l =>
                      if existsb (is_str kind) l then js_ret tt
                      else write (saveTopics (JArr (l ++ [JStr kind])))
                  | JStr s => if includes s kind then js_ret tt else throw TypeError
                  | _ => throw TypeError
                  end;;
                  sbt ← lift loadStarsByTopic;
                  sbt ← of_completion (dict_ensure sbt kind);
                  sbt ← of_completion
                          (for_of (fun sbt id =>
                                     dict_update sbt kind (fun set => set_add set id))
                                  sbt ids);
                  write (saveStarsByTopic sbt));;
               refreshTopicFilterSelect;;
               applyFilters;;
               js_ret Done
         end
     | Some parsed =>
         match get_prop parsed "readLater", get_prop parsed "starsByTopic",
               get_prop parsed "topics" with
         | Some readLater, Some starsByTopic, Some topics =>
             if truthy readLater && truthy starsByTopic && truthy topics then
               set ← of_completion (new_Set readLater);
               write (saveReadLater set);;
               write (saveTopics topics);;
               map ← of_completion (sets_of starsByTopic);
               write (saveStarsByTopic map);;
               refreshTopicFilterSelect;;
               applyFilters;;
               js_ret Done
             else unrecognized
         | _, _, _ => unrecognized
         end
     end)
    (js_ret (Alert "Failed to parse JSON.")).

(** *** The store's life *)

Inductive event :=
| CreateTopic (name : option string)
| RenameTopic (oldName newName : option string)
| DeleteTopic (name : option string) (confirmed : bool)
| ToggleReadLater (id : string)
| ToggleStar (id : string)
| AddToTopic (t id : string)
| RemoveFromTopic (topic id : string)
| ImportFile (text : string) (kind : option string).

Definition handle (e : event) : js outcome :=
  match e with
  | CreateTopic name => createTopic name
  | RenameTopic oldName newName => renameTopic oldName newName
  | DeleteTopic name confirmed => deleteTopic name confirmed
  | ToggleReadLater id => toggleReadLater id
  | ToggleStar id => toggleStar id
  | AddToTopic t id => addToTopic t id
  | RemoveFromTopic topic id => removeFromTopic topic id
  | ImportFile text kind => importJSONFile text kind
  end.

Definition after (e : event) (st : gmap string string) : gmap string string :=
  snd (handle e st).
End Handlers.

(** ** Exports by topic *)

(** [s.replace(/\s+/g, underscore)]: every run of white space becomes one
    underscore; [in_gap] says that the previous character was white
    space. *)
Fixpoint underscore_ws (in_gap : bool) (s : string) : string :=
  match s with
  | EmptyString => EmptyString
  | String c s' =>
      if is_ws c then
        if in_gap then underscore_ws true s' else String "_" (underscore_ws true s')
      else String c (underscore_ws false s')
  end.

(** The characters that the class [a-z0-9_] holds. *)
Definition is_slug_char (c : ascii) : bool :=
  let n := code c in
  (((97 <=? n) && (n <=? 122)) || ((48 <=? n) && (n <=? 57)) || (n =? 95))%N.

(** [s.replace(/[^a-z0-9_]/g, empty)] *)
Fixpoint strip_non_slug (s : string) : string :=
  match s with
  | EmptyString => EmptyString
  | String c s' =>
      if is_slug_char c then String c (strip_non_slug s') else strip_non_slug s'
  end.

Definition slugify (s : string) : string :=
  strip_non_slug (underscore_ws false (toLowerCase s)).

Section Exports.
Context `{codec : JSONCodec}.

(** [exportAllTopics]: the calls of [download], each a file name and a
    text, one per key of the star map (the order of the keys is the
    map's, not the object's). *)
Definition exportAllTopics (st : gmap string string)
  : completion (list (string * string)) :=
  cbind (loadStarsByTopic st) (fun sbt =>
    Normal (map (fun e =>
                   ("stars_" +:+ slugify (fst e) +:+ ".json",
                    JSON_stringify 2 (JArr (snd e))))
                (map_to_list (own sbt)))).

(** [exportSelectedTopic]: [topic] is the value of the topic filter.
    What [sbt[topic]] finds is spread into an array: a set, nothing (the
    empty array then), or something that cannot be iterated. *)
Definition exportSelectedTopic (topic : string) (st : gmap string string)
  : completion (outcome * list (string * string)) :=
  if is_empty topic then Normal (Alert "Choose a Topic first.", [])
  else
    cbind (loadStarsByTopic st) (fun sbt =>
    cbind (dict_get sbt topic) (fun found =>
    cbind (match found with
           | IsSet set => Normal set
           | Undefined => Normal []
           | NotSet => Throw TypeError
           end) (fun arr =>
      Normal (Done, [("stars_" +:+ slugify topic +:+ ".json",
                      JSON_stringify 2 (JArr arr))])))).

End Exports.

(** ** The one-day viewer: the dates of the index

    The version of the page that shows one day at a time moves between
    the dates that paper_json/index.json lists. *)

(** An entry of the index. *)
Record index_entry := IndexEntry { date : string; count : Z }.

(** [array.findIndex(f)]: -1 when no element passes the test. *)
Fixpoint findIndex {A} (f : A → bool) (l : list A) : Z :=
  match l with
  | [] => -1
  | x :: l' =>
      if f x then 0
      else let i := findIndex f l' in if i <? 0 then -1 else i + 1
  end.

(** [findNeighborDate]: [None] is the null of a date without neighbour. *)
Definition findNeighborDate (INDEX : list index_entry) (current : string) (dir : Z)
  : option string :=
  if (length INDEX =? 0)%nat then None
  else
    let i := findIndex (fun x => String.eqb (date x) current) INDEX in
    if i <? 0 then None
    else
      let j := i + (if dir <? 0 then -1 else 1) in
      if (j <? 0) || (j >=? Z.of_nat (length INDEX)) then None
      else date <$> INDEX !! Z.to_nat j.

(** ** The read-later viewer

    The version of the page that has the read-later set and no topics
    keeps the set under one key; its load checks the shape of what it
    parsed.  Its controls are those of the full page without the star
    and topic filters, which it does not read. *)

Module ReadLaterOnly.

(** What [render] shows for one paper. *)
Record card := Card {
  card_paper : dated;
  card_categories : string;
  active : bool;
}.

Inductive content :=
| TextContent (text : string)
| Sections (sections : list (string * list card)).

Record view := View { view_content : content; view_count : string }.

Section Store.
Context `{codec : JSONCodec}.

Definition STORAGE_KEY_RL : string := "arxiv_read_later".

(** [loadReadLater]: the parse and the construction of the set are both
    inside the try block. *)
Definition loadReadLater (st : gmap string string) : list json :=
  catch
    (cbind (match st !! STORAGE_KEY_RL with
            | Some s =>
                if is_empty s then Normal (JArr [])
                else match JSON_parse s with
                     | Some v => Normal v
                     | None => Throw SyntaxError
                     end
            | None => Normal (JArr [])
            end)
       (fun arr => new_Set (match arr with JArr _ => arr | _ => JArr [] end)))
    [].

Definition saveReadLater (set : list json) (st : gmap string string)
  : gmap string string :=
  <[STORAGE_KEY_RL := JSON_stringify 0 (JArr set)]> st.

(** [applyFilters]: the papers handed to [render]. *)
Definition filtered (els : controls) (ALL : list dated) (st : gmap string string)
  : list dated :=
  let terms := getActiveTerms (search_value els) (active_chips els) in
  let titleOnly := titleOnly_checked els in
  let cats := getAllowedCats (cat_boxes els) in
  let onlyRL := onlyReadLater_checked els in
  let rlSet := loadReadLater st in
  List.filter (fun p =>
     categoryMatches (paper_of p) cats &&
     textMatches (paper_of p) terms titleOnly &&
     readLaterMatches (paper_of p) onlyRL rlSet) ALL.

Definition render_card (rlSet : list json) (p : dated) : completion card :=
  let id := getPaperId (paper_of p) in
  cbind (join_category (paper_of p)) (fun categories =>
    Normal (Card p categories (has_id rlSet id))).

Fixpoint render_groups (rlSet : list json) (groups : list (string * list dated))
    (total : nat) : completion (list (string * list card) * nat) :=
  match groups with
  | [] => Normal ([], total)
  | (date, items) :: groups' =>
      if (length items =? 0)%nat then render_groups rlSet groups' total
      else
        let total := (total + length items)%nat in
        cbind (for_each (render_card rlSet) items) (fun cards =>
        cbind (render_groups rlSet groups' total) (fun r =>
          Normal ((date, cards) :: fst r, snd r)))
  end.

Definition render (papers : list dated) (st : gmap string string) : completion view :=
  let groups := groupByDate papers in
  if (length groups =? 0)%nat
  then Normal (View (TextContent "No papers match your filters.") "0")
  else
    let rlSet := loadReadLater st in
    cbind (render_groups rlSet groups 0) (fun r =>
      Normal (View (Sections (fst r)) (pretty (snd r)))).

(** What [applyFilters] leaves on the page. *)
Definition page_view (els : controls) (ALL : list dated) (st : gmap string string)
  : completion view :=
  render (filtered els ALL st) st.

Context `{page : Page}.

Definition applyFilters : js view := lift (page_view els ALL).

(** [importReadLaterFile]: [text] is the content of the chosen file. *)
Definition importReadLaterFile (text : string) : js outcome :=
  try_catch
    (match JSON_parse text with
     | None => throw SyntaxError
     | Some (JArr ids) =>
         set ← read loadReadLater;
         write (saveReadLater (set_add_all set ids));;
         applyFilters;;
         js_ret Done
     | Some _ => js_ret (Alert "Expected an array of paper IDs.")
     end)
    (js_ret (Alert "Failed to parse JSON.")).

End Store.
End ReadLaterOnly.

(** ** A reference codec

    An executable JSON printer and parser for the values above, used to
    run the store on concrete storage contents.  Strings are escaped the
    way [JSON.stringify] escapes them; a positive [indent] puts every
    item on a line of its own. *)

Definition chr (n : N) : ascii := ascii_of_N n.
Definition str1 (n : N) : string := String (chr n) EmptyString.

Definition hex_digit (n : N) : ascii :=
  if (n <? 10)%N then chr (48 + n) else chr (87 + n).

Definition hex_value (c : ascii) : option N :=
  let n := code c in
  if ((48 <=? n) && (n <=? 57))%N then Some (n - 48)%N
  else if ((97 <=? n) && (n <=? 102))%N then Some (n - 87)%N
  else if ((65 <=? n) && (n <=? 70))%N then Some (n - 55)%N
  else None.

Definition escape_char (c : ascii) : string :=
  let n := code c in
  if (n =? 34)%N then String (chr 92) (str1 34)
  else if (n =? 92)%N then String (chr 92) (str1 92)
  else if (n =? 8)%N then String (chr 92) "b"
  else if (n =? 12)%N then String (chr 92) "f"
  else if (n =? 10)%N then String (chr 92) "n"
  else if (n =? 13)%N then String (chr 92) "r"
  else if (n =? 9)%N then String (chr 92) "t"
  else if (n <? 32)%N then
    String (chr 92) (String "u" (String "0" (String "0"
      (String (hex_digit (n / 16)) (String (hex_digit (n mod 16)) EmptyString)))))
  else String c EmptyString.

Fixpoint escape (s : string) : string :=
  match s with
  | EmptyString => EmptyString
  | String c s' => escape_char c +:+ escape s'
  end.

Definition quote (s : string) : string := dquote +:+ escape s +:+ dquote.

Fixpoint spaces (n : nat) : string :=
  match n with
  | O => EmptyString
  | S n' => String " " (spaces n')
  end.

(** The line break before an item at nesting depth [level]. *)
Definition newline (indent level : nat) : string :=
  match indent with
  | O => EmptyString
  | S _ => String (chr 10) (spaces (indent * level))
  end.

Definition colon (indent : nat) : string :=
  match indent with
  | O => ":"
  | S _ => ": "
  end.

(** The items after the first: each after a comma and a line break, then
    the closing bracket. *)
Definition print_more {A} (item : A → string) (sep close : string)
  : list A → string :=
  fix more (l : list A) : string :=
    match l with
    | [] => close
    | y :: l' => "," +:+ sep +:+ item y +:+ more l'
    end.

Fixpoint print (indent level : nat) (v : json) : string :=
  match v with
  | JNull => "null"
  | JBool true => "true"
  | JBool false => "false"
  | JStr s => quote s
  | JArr [] => "[]"
  | JArr (x :: xs) =>
      "[" +:+ newline indent (S level) +:+ print indent (S level) x +:+
      print_more (print indent (S level))
        (newline indent (S level)) (newline indent level +:+ "]") xs
  | JObj [] => "{}"
  | JObj ((k, x) :: ps) =>
      "{" +:+ newline indent (S level) +:+
      quote k +:+ colon indent +:+ print indent (S level) x +:+
      print_more (fun kv => quote (fst kv) +:+ colon indent +:+
                            print indent (S level) (snd kv))
        (newline indent (S level)) (newline indent level +:+ "}") ps
  end.

Definition is_json_ws (c : ascii) : bool :=
  let n := code c in
  ((n =? 32) || (n =? 9) || (n =? 10) || (n =? 13))%N.

Fixpoint skip_ws (s : string) : string :=
  match s with
  | EmptyString => EmptyString
  | String c s' => if is_json_ws c then skip_ws s' else s
  end.

Fixpoint strip_prefix (p s : string) : option string :=
  match p, s with
  | EmptyString, _ => Some s
  | String _ _, EmptyString => None
  | String a p', String b s' => if Ascii.eqb a b then strip_prefix p' s' else None
  end.

(** The character an escape letter stands for. *)
Definition unescape (e : ascii) : option ascii :=
  let n := code e in
  if (n =? 34)%N then Some (chr 34)
  else if (n =? 92)%N then Some (chr 92)
  else if (n =? 47)%N then Some (chr 47)
  else if (n =? 98)%N then Some (chr 8)
  else if (n =? 102)%N then Some (chr 12)
  else if (n =? 110)%N then Some (chr 10)
  else if (n =? 114)%N then Some (chr 13)
  else if (n =? 116)%N then Some (chr 9)
  else None.

Definition hex4 (a b c d : ascii) : option ascii :=
  match hex_value a, hex_value b, hex_value c, hex_value d with
  | Some 0%N, Some 0%N, Some x, Some y => Some (chr (16 * x + y))
  | _, _, _, _ => None
  end.

(** The text of a string literal after its opening quote: the string it
    denotes and what follows the closing quote. *)
Fixpoint parse_string_body (s : string) : option (string * string) :=
  match s with
  | EmptyString => None
  | String c s' =>
      let n := code c in
      if (n =? 34)%N then Some (EmptyString, s')
      else if (n =? 92)%N then
        match s' with
        | EmptyString => None
        | String e s'' =>
            match unescape e with
            | Some ch =>
                match parse_string_body s'' with
                | Some (str, rest) => Some (String ch str, rest)
                | None => None
                end
            | None =>
                if (code e =? 117)%N then
                  match s'' with
                  | String h1 (String h2 (String h3 (String h4 s3))) =>
                      match hex4 h1 h2 h3 h4, parse_string_body s3 with
                      | Some ch, Some (str, rest) => Some (String ch str, rest)
                      | _, _ => None
                      end
                  | _ => None
                  end
                else None
            end
        end
      else if (n <? 32)%N then None
      else
        match parse_string_body s' with
        | Some (str, rest) => Some (String c str, rest)
        | None => None
        end
  end.

Fixpoint parse_value (fuel : nat) (s : string) : option (json * string) :=
  match fuel with
  | O => None
  | S fuel' =>
      match skip_ws s with
      | EmptyString => None
      | String c r =>
          match code c with
          | 110%N => rest ← strip_prefix "ull" r; Some (JNull, rest)
          | 116%N => rest ← strip_prefix "rue" r; Some (JBool true, rest)
          | 102%N => rest ← strip_prefix "alse" r; Some (JBool false, rest)
          | 34%N => '(str, rest) ← parse_string_body r; Some (JStr str, rest)
          | 91%N =>
              match skip_ws r with
              | String c' rest =>
                  if (code c' =? 93)%N then Some (JArr [], rest)
                  else '(l, rest') ← parse_items fuel' r; Some (JArr l, rest')
              | EmptyString => None
              end
          | 123%N =>
              match skip_ws r with
              | String c' rest =>
                  if (code c' =? 125)%N then Some (JObj [], rest)
                  else '(l, rest') ← parse_members fuel' r; Some (JObj l, rest')
              | EmptyString => None
              end
          | _ => None
          end
      end
  end
with parse_items (fuel : nat) (s : string) : option (list json * string) :=
  match fuel with
  | O => None
  | S fuel' =>
      '(v, r) ← parse_value fuel' s;
      match skip_ws r with
      | String c rest =>
          if (code c =? 44)%N then
            '(vs, rest') ← parse_items fuel' rest; Some (v :: vs, rest')
          else if (code c =? 93)%N then Some ([v], rest)
          else None
      | EmptyString => None
      end
  end
with parse_members (fuel : nat) (s : string)
  : option (list (string * json) * string) :=
  match fuel with
  | O => None
  | S fuel' =>
      match skip_ws s with
      | String q r =>
          if (code q =? 34)%N then
            '(k, r1) ← parse_string_body r;
            match skip_ws r1 with
            | String c r2 =>
                if (code c =? 58)%N then
                  '(v, r3) ← parse_value fuel' r2;
                  match skip_ws r3 with
                  | String c' rest =>
                      if (code c' =? 44)%N then
                        '(ms, rest') ← parse_members fuel' rest;
                        Some ((k, v) :: ms, rest')
                      else if (code c' =? 125)%N then Some ([(k, v)], rest)
                      else None
                  | EmptyString => None
                  end
                else None
            | EmptyString => None
            end
          else None
      | EmptyString => None
      end
  end.

Definition ref_parse (s : string) : option json :=
  match parse_value (S (String.length s)) s with
  | Some (v, rest) => if is_empty (skip_ws rest) then Some v else None
  | None => None
  end.

Definition ref_stringify (indent : nat) (v : json) : string := print indent 0 v.

(** * The vocabulary of the properties *)

(** ** Text match and term extraction *)

(** [needle] occurs in [hay] as a substring. *)
Definition occurs (needle hay : string) : Prop :=
  ∃ pre post, hay = pre +:+ needle +:+ post.

(** The term without its surrounding double quotes, as [textMatches]
    strips them. *)
Definition unquote (term : string) : string :=
  if startsWith term dquote && endsWith term dquote then slice 1 (-1) term else term.

(** Case-insensitive occurrence. *)
Definition occurs_ci (needle hay : string) : Prop :=
  occurs (toLowerCase needle) (toLowerCase hay).

(** The text a paper is searched in. *)
Definition searched_text (p : paper) (titleOnly : bool) : string :=
  if titleOnly then or_empty (title p)
  else or_empty (title p) +:+ " " +:+ or_empty (summary p).

(** The text match as the design document words it: every term occurs in
    the title, or in the title directly followed by the summary. *)
Definition textMatches_as_stated (p : paper) (terms : list string) (titleOnly : bool)
  : Prop :=
  terms = [] ∨
  ∀ term, term ∈ terms →
    occurs_ci (unquote term)
      (if titleOnly then or_empty (title p)
       else or_empty (title p) +:+ or_empty (summary p)).

(** ** Loading and grouping *)

(** The address of a day's file. *)
Definition day_url (dateStr : string) : string :=
  "paper_json/" +:+ dateStr +:+ ".json".

(** The fetch of a day fails: the request is rejected, the status is not
    OK, the body is not JSON, or the payload is not an array. *)
Definition day_fails (fetch : string → completion response) (dateStr : string) : Prop :=
  (∃ e, fetch (day_url dateStr) = Throw e) ∨
  (∃ res, fetch (day_url dateStr) = Normal res ∧
     (ok res = false ∨ (∃ e, json_body res = Throw e) ∨ json_body res = Normal NotArray)).

(** Later dates first. *)
Definition date_desc (a b : string * list dated) : Prop :=
  (fst b <? fst a)%string = true.

(** The papers of one date, in their order. *)
Definition of_date (d : string) (papers : list dated) : list dated :=
  filter (fun p => __date p = d) papers.

(** ** Search text *)

(** No double quote in [s]. *)
Fixpoint quote_free (s : string) : bool :=
  match s with
  | EmptyString => true
  | String c s' => negb (Ascii.eqb c (ascii_of_N 34)) && quote_free s'
  end.

(** No white space in [s]. *)
Fixpoint ws_free (s : string) : bool :=
  match s with
  | EmptyString => true
  | String c s' => negb (is_ws c) && ws_free s'
  end.

(** A phrase inside its double quotes. *)
Definition quoted (phrase : string) : string := dquote +:+ phrase +:+ dquote.

(** A text whose double quotes all belong to complete quoted phrases:
    unquoted text, or unquoted text, a non-empty quoted phrase and such a
    text again. *)
Inductive well_quoted : string → Prop :=
| well_quoted_text s : quote_free s = true → well_quoted s
| well_quoted_phrase s phrase rest :
    quote_free s = true → quote_free phrase = true → phrase ≠ EmptyString →
    well_quoted rest → well_quoted (s +:+ quoted phrase +:+ rest).

(** The test of [filter(Boolean)] on a string. *)
Definition nonempty (s : string) : bool := negb (is_empty s).

(** The single-word terms that [getActiveTerms] takes from the text
    outside the quoted phrases. *)
Definition single_words (s : string) : list string :=
  let w := trim s in
  List.filter nonempty (if is_empty w then [] else split_ws w).

(** A text without any match: all its characters, one by one. *)
Fixpoint lits (s : string) : list piece :=
  match s with
  | EmptyString => []
  | String c s' => Lit c :: lits s'
  end.

(** Term extraction as the design document words it: wherever the search
    text holds a double-quoted phrase, that phrase (with or without its
    quotes) is among the terms. *)
Definition phrase_is_term (value phrase : string) : Prop :=
  (∃ pre post, value = pre +:+ quoted phrase +:+ post) →
  phrase ∈ getActiveTerms value [] ∨ quoted phrase ∈ getActiveTerms value [].

(** ** The reference codec *)

(** The fuel that parsing a value back takes. *)
Fixpoint json_size (v : json) : nat :=
  match v with
  | JArr l => S (sum_list (map (fun x => S (json_size x)) l))
  | JObj ps => S (sum_list (map (fun kv => S (json_size (snd kv))) ps))
  | _ => 1
  end.

(** A printed value starts with a character that is neither white space
    nor a closing bracket. *)
Definition opens_value (c : ascii) : Prop :=
  is_json_ws c = false ∧ code c ≠ 93%N ∧ code c ≠ 125%N.

(** The round trip of one value, for any fuel that covers its size. *)
Definition reads_back (v : json) : Prop :=
  ∀ indent level fuel rest,
    (json_size v <= fuel)%nat →
    parse_value fuel (print indent level v +:+ rest) = Some (v, rest).

(** ** The tag store *)

(** A well-formed set: built by adding elements that were not yet in. *)
Inductive set_ok : list json → Prop :=
| set_ok_nil : set_ok []
| set_ok_snoc s x : set_ok s → set_has s x = false → set_ok (s ++ [x]).

(** A star map as the page stores it: a plain dictionary, with the
    prototype it started with and no property of its own that is named
    [__proto__], whose sets are well-formed. *)
Definition stars_ok (m : dict) : Prop :=
  proto m = None ∧ m !! "__proto__" = None ∧ ∀ k s, m !! k = Some s → set_ok s.

(** What every dictionary that the page builds has of that. *)
Definition sets_ok (m : dict) : Prop :=
  m !! "__proto__" = None ∧ (∀ k s, m !! k = Some s → set_ok s) ∧
  (∀ s, proto m = Some s → set_ok s).


(** The topic list with every occurrence of the old name replaced. *)
Definition renamed (oldName newName : string) (topics : list json) : list json :=
  map (fun t => if is_str oldName t then JStr newName else t) topics.

Section Vocabulary.
Context `{codec : JSONCodec} `{html : HTMLParser}.
Implicit Types st : gmap string string.

(** A key whose stored value cannot be used: there is none, or it is not
    valid JSON. *)
Definition unreadable (key : string) st : Prop :=
  st !! key = None ∨ ∃ s, st !! key = Some s ∧ JSON_parse s = None.

(** The loads never throw, as a property of one storage state. *)
Definition loads_never_throw st : Prop :=
  (∃ set, loadReadLater st = Normal set) ∧
  (∃ m, loadStarsByTopic st = Normal m).

(** The three fields of a full payload, when all are there and truthy. *)
Definition payload_fields (parsed : json) : option (json * json * json) :=
  match get_prop parsed "readLater", get_prop parsed "starsByTopic",
        get_prop parsed "topics" with
  | Some readLater, Some starsByTopic, Some topics =>
      if truthy readLater && truthy starsByTopic && truthy topics
      then Some (readLater, starsByTopic, topics) else None
  | _, _, _ => None
  end.

(** Both loads succeed, and every topic that has a star set is in the
    topic list. *)
Definition stars_within_topics st : Prop :=
  ∃ l m, loadTopics st = JArr l ∧ loadStarsByTopic st = Normal m ∧
         ∀ k, k ∈ dom m → JStr k ∈ l.

(** A full payload that itself has the property. *)
Definition payload_consistent (parsed : json) : Prop :=
  ∀ readLater starsByTopic topics,
    payload_fields parsed = Some (readLater, starsByTopic, topics) →
    ∃ l m, topics = JArr l ∧ sets_of starsByTopic = Normal m ∧
           ∀ k, k ∈ dom m → JStr k ∈ l.

(** The two provisos of the property: the topic select of a card hands
    its handler a topic of the list, and an imported full payload, which
    is taken as it is, is consistent. *)
Definition enabled (e : event) st : Prop :=
  match e with
  | AddToTopic t _ => ∃ l, loadTopics st = JArr l ∧ JStr t ∈ l
  | ImportFile text _ =>
      ∀ parsed, JSON_parse text = Some parsed → payload_consistent parsed
  | _ => True
  end.

(** The storage states that the page reaches from the empty store; the
    page may show other papers and other filter settings at every
    step. *)
Inductive reachable : gmap string string → Prop :=
| reachable_init : reachable ∅
| reachable_step st e (page : Page) :
    reachable st → enabled e st → reachable (after e st).

(** The same with a plain dictionary for the star map, as every star map
    is that the page has stored. *)
Definition stars_plainly_within_topics st : Prop :=
  ∃ l m, loadTopics st = JArr l ∧ loadStarsByTopic st = Normal (Dict m None) ∧
         ∀ k, k ∈ dom m → JStr k ∈ l.

Context `{page : Page}.

(** How a handler ends that runs the filters on the store it has
    written: it is done when the page renders, and it throws what the
    filters or the rendering throw. *)
Definition rendered st : completion outcome :=
  cbind (page_view els ALL st) (fun _ => Normal Done).

(** What is thrown inside the try block of the import ends in the alert
    of its catch block. *)
Definition caught (c : completion outcome) : outcome :=
  match c with
  | Normal o => o
  | Throw _ => Alert "Failed to parse JSON."
  end.

(** An additive import as the design document words it, for the
    read-later set: what was stored before the import is still stored
    after it. *)
Definition import_keeps_read_later text kind st : Prop :=
  ∀ before after,
    loadReadLater st = Normal before →
    loadReadLater (snd (importJSONFile text kind st)) = Normal after →
    ∀ id, id ∈ before → id ∈ after.


End Vocabulary.

(** ** Tags, exports and navigation *)

(** The cards of a view. *)
Definition cards_of (v : view) : list card :=
  match view_content v with
  | TextContent _ => []
  | Sections sections => concat (snd <$> sections)
  end.

(** The test of one term against a paper. *)
Definition term_matches (p : paper) (titleOnly : bool) (term : string) : bool :=
  textMatches p [term] titleOnly.

(** The topic list without a name. *)
Definition without (name : string) (topics : list json) : list json :=
  List.filter (fun t => negb (is_str name t)) topics.

Section StoreVocabulary.
Context `{codec : JSONCodec}.
Implicit Types st : gmap string string.

(** The stored topic list is an array without repetitions. *)
Definition topics_distinct st : Prop :=
  ∃ l, loadTopics st = JArr l ∧ NoDup l.

(** An event that is not the import of a full payload. *)
Definition piecewise (e : event) : Prop :=
  match e with
  | ImportFile text _ =>
      ∀ parsed, JSON_parse text = Some parsed → payload_fields parsed = None
  | _ => True
  end.

(** The keys that the handler of an event can write. *)
Definition writes (e : event) : gset string :=
  match e with
  | ToggleReadLater _ => {[ READ_LATER ]}
  | CreateTopic _ | RenameTopic _ _ | DeleteTopic _ _ => {[ TOPICS; STARS_BY_TOPIC ]}
  | ToggleStar _ | AddToTopic _ _ | RemoveFromTopic _ _ => {[ STARS_BY_TOPIC ]}
  | ImportFile _ _ => {[ READ_LATER; TOPICS; STARS_BY_TOPIC ]}
  end.

(** A computation that leaves the value stored under [k] as it is,
    however it ends. *)
Definition keeps {A} (k : string) (m : js A) : Prop :=
  ∀ st, snd (m st) !! k = st !! k.

End StoreVocabulary.

(** Every character of [s] passes the test [f]. *)
Fixpoint all_chars (f : ascii → bool) (s : string) : bool :=
  match s with
  | EmptyString => true
  | String c s' => f c && all_chars f s'
  end.

Section ReadLaterVocabulary.
Context `{codec : JSONCodec}.

(** The stored read-later text is the text of an array. *)
Definition stored_array (st : gmap string string) (l : list json) : Prop :=
  ∃ s, st !! ReadLaterOnly.STORAGE_KEY_RL = Some s ∧ s ≠ EmptyString ∧
       JSON_parse s = Some (JArr l).

End ReadLaterVocabulary.

(** ** Sample data *)

(** A paper whose title ends where a term would have to go on into the
    summary. *)
Definition paper_abcd : paper :=
  Paper None None (Some "ab") (Some "cd") None None false.

Definition paper_cs : paper :=
  Paper None None (Some "t") None (Some ["cs.CV"; "cs.LG"]) None true.

Definition paper_x : paper :=
  Paper (Some "2401.00001") None (Some "X") None None None false.

Definition paper_y : paper :=
  Paper (Some "2401.00002") None (Some "Y") None None None false.

(** Three days, the second of which answers 404, and a paper that the
    first and the third day both list. *)
Definition three_days (i : nat) : string :=
  match i with
  | 0%nat => "2024-01-03"
  | 1%nat => "2024-01-02"
  | _ => "2024-01-01"
  end.

Definition net_404 (url : string) : completion response :=
  if String.eqb url "paper_json/2024-01-03.json"
  then Normal (Response true (Normal (ArrayOf [paper_x; paper_y])))
  else if String.eqb url "paper_json/2024-01-02.json"
  then Normal (Response false (Throw SyntaxError))
  else Normal (Response true (Normal (ArrayOf [paper_x]))).

(** The search text of the design document's scenario, and two papers. *)
Definition search_llm : string := quoted "large language model" +:+ " reasoning".

Definition search_two_phrases : string :=
  quoted "video generation" +:+ " of " +:+ search_llm.

Definition paper_llm : paper :=
  Paper None None (Some "A Large Language Model Survey")
    (Some "We study REASONING at scale.") None None false.

Definition paper_words : paper :=
  Paper None None (Some "Large models of language")
    (Some "Reasoning with a language model.") None None false.

(** Stored text that is valid JSON but not an array. *)
Definition storage_object_read_later : gmap string string := {[ READ_LATER := "{}" ]}.

(** Stored text that is not JSON. *)
Definition storage_garbage : gmap string string :=
  {[ READ_LATER := "{oops"; STARS_BY_TOPIC := "[tru" ]}.

(** A full payload. *)
Definition payload_p2 : json :=
  JObj [("readLater", JArr [JStr "p2"]);
        ("topics", JArr [JStr "nlp"]);
        ("starsByTopic", JObj [("nlp", JArr [JStr "p3"])])].

(** A full payload whose star map has a set under the name [__proto__]. *)
Definition payload_proto : json :=
  JObj [("readLater", JArr [JStr "p2"]);
        ("topics", JArr [JStr "nlp"]);
        ("starsByTopic", JObj [("nlp", JArr [JStr "p3"]); ("__proto__", JArr [JStr "p4"])])].

(** A payload whose star map names a topic that its topic list lacks. *)
Definition payload_stray : json :=
  JObj [("readLater", JArr []);
        ("topics", JArr [JStr "nlp"]);
        ("starsByTopic", JObj [("vision", JArr [JStr "p1"])])].

(** A session: a topic is created, starred, renamed, a file of identities
    is imported into a new topic, and the first topic is deleted. *)
Definition session : list event :=
  [CreateTopic (Some "vision");
   AddToTopic "vision" "p1";
   RenameTopic (Some "vision") (Some "cv");
   ImportFile ("[" +:+ quoted "p2" +:+ "]") (Some "nlp");
   DeleteTopic (Some "cv") true].

(** Controls that filter nothing. *)
Definition idle_controls : controls :=
  Controls "  " [] false [Checkbox false "cs.CV"; Checkbox false "cs.LG"] false false "".

(** Controls with a topic selected, some chips active and nothing else
    set. *)
Definition controls_topic (topic : string) (chips : list string) : controls :=
  Controls "  " chips false [] false false topic.

Definition two_papers : list dated :=
  [Dated paper_x "2024-01-01"; Dated paper_y "2024-01-03"].

(** The topic list and the star map of [storage_vision], and a paper
    that has a star there. *)
Definition topics_vision : list json := [JStr "nlp"; JStr "vision"; JStr "robots"].

Definition stars_vision : dict :=
  Dict {[ "vision" := [JStr "p1"; JStr "p2"] ]} None.

Definition paper_p1 : paper :=
  Paper (Some "p1") None (Some "Starred") None None None false.

Definition card_p1 : card :=
  Card (Dated paper_p1 "2024-01-03") "" false true ["vision"].

(** An index of three days. *)
Definition index_three : list index_entry :=
  [IndexEntry "2024-01-01" 3; IndexEntry "2024-01-02" 5; IndexEntry "2024-01-03" 2].

(** A page with two papers and no filter set, and the same page with a
    paper whose category is a string. *)
Definition page_two : Page := {| els := idle_controls; ALL := two_papers |}.

Definition paper_odd : paper :=
  Paper (Some "2401.00003") None (Some "Z") None None None true.

Definition page_odd : Page :=
  {| els := idle_controls; ALL := two_papers ++ [Dated paper_odd "2024-01-02"] |}.

(** * Properties *)

(** ** Strings *)

Lemma str_app_cons c s t : String c s +:+ t = String c (s +:+ t).
Proof. reflexivity. Qed.

Lemma str_app_empty_r s : s +:+ EmptyString = s.
Proof. induction s as [|c s IH]; [done|]. by rewrite str_app_cons, IH. Qed.

Lemma str_app_assoc s t u : (s +:+ t) +:+ u = s +:+ t +:+ u.
Proof. induction s as [|c s IH]; [done|]. by rewrite !str_app_cons, IH. Qed.

Lemma str_length_app s t : String.length (s +:+ t) = (String.length s + String.length t)%nat.
Proof. induction s as [|c s IH]; [done|]. rewrite str_app_cons. simpl. by rewrite IH. Qed.

Lemma toLowerCase_app s t : toLowerCase (s +:+ t) = toLowerCase s +:+ toLowerCase t.
Proof. induction s as [|c s IH]; [done|]. rewrite str_app_cons. simpl. by rewrite IH. Qed.

Lemma is_empty_true s : is_empty s = true ↔ s = EmptyString.
Proof. by destruct s. Qed.

Lemma startsWith_spec s p : startsWith s p = true ↔ ∃ post, s = p +:+ post.
Proof.
  revert s. induction p as [|a p IH]; intros s.
  - split; [intros _; by exists s|]. by destruct s.
  - destruct s as [|b s]; simpl.
    + split; [done|]. intros [post H]. by rewrite str_app_cons in H.
    + destruct (Ascii.eqb_spec a b) as [->|Hne].
      * rewrite IH. split; intros [post H]; exists post.
        -- by rewrite str_app_cons, H.
        -- rewrite str_app_cons in H. by injection H.
      * split; [done|]. intros [post H]. rewrite str_app_cons in H. by injection H.
Qed.

Lemma includes_spec hay needle : includes hay needle = true ↔ occurs needle hay.
Proof.
  unfold occurs. induction hay as [|c hay IH]; cbn [includes].
  - rewrite orb_false_r, startsWith_spec. split.
    + intros [post H]. by exists EmptyString, post.
    + intros ([|c pre] & post & H); [by exists post|]. by rewrite str_app_cons in H.
  - rewrite orb_true_iff, IH, startsWith_spec. split.
    + intros [[post H]|(pre & post & H)].
      * by exists EmptyString, post.
      * exists (String c pre), post. by rewrite str_app_cons, H.
    + intros ([|c' pre] & post & H).
      * left. by exists post.
      * right. rewrite str_app_cons in H. injection H as _ H. by exists pre, post.
Qed.

(** ** Text match *)

Lemma endsWith_spec s p : endsWith s p = true ↔ ∃ pre, s = pre +:+ p.
Proof.
  induction s as [|c s IH]; cbn [endsWith].
  - rewrite is_empty_true. split.
    + intros ->. by exists EmptyString.
    + intros [[|c pre] H]; [done|]. by rewrite str_app_cons in H.
  - rewrite orb_true_iff, IH, String.eqb_eq. split.
    + intros [<-|[pre ->]]; [by exists EmptyString|]. by exists (String c pre).
    + intros [[|c' pre] H]; [by left|]. right.
      rewrite str_app_cons in H. injection H as _ ->. by exists pre.
Qed.

Lemma substring_prefix body rest :
  String.substring 0 (String.length body) (body +:+ rest) = body.
Proof.
  induction body as [|c body IH]; simpl.
  - by destruct rest.
  - by rewrite IH.
Qed.

Lemma slice_quoted a body b :
  slice 1 (-1) (String a (body +:+ String b EmptyString)) = body.
Proof.
  unfold slice. cbn [String.length]. rewrite str_length_app. cbn [String.length].
  replace (1 <? 0) with false by done. replace (-1 <? 0) with true by done.
  set (n := String.length body).
  replace (Z.to_nat (Z.min 1 (Z.of_nat (S (n + 1))))) with 1%nat by lia.
  replace (Z.to_nat (Z.max (Z.of_nat (S (n + 1)) + -1) 0 - Z.min 1 (Z.of_nat (S (n + 1)))))
    with n by lia.
  cbn [String.substring]. apply substring_prefix.
Qed.

Lemma unquote_quoted body : unquote (dquote +:+ body +:+ dquote) = body.
Proof.
  unfold unquote.
  assert (startsWith (dquote +:+ body +:+ dquote) dquote = true) as ->.
  { apply startsWith_spec. by exists (body +:+ dquote). }
  assert (endsWith (dquote +:+ body +:+ dquote) dquote = true) as ->.
  { apply endsWith_spec. exists (dquote +:+ body). by rewrite str_app_assoc. }
  apply slice_quoted.
Qed.

Lemma unquote_plain term :
  startsWith term dquote = false ∨ endsWith term dquote = false → unquote term = term.
Proof. unfold unquote. by intros [-> | ->]; rewrite ?andb_false_r. Qed.

Lemma haystack_lower (p : paper) (titleOnly : bool) :
  (if titleOnly then normalize (title p)
   else normalize (title p) +:+ " " +:+ normalize (summary p))
  = toLowerCase (searched_text p titleOnly).
Proof.
  unfold searched_text, normalize. destruct titleOnly; [done|].
  by rewrite !toLowerCase_app.
Qed.

Lemma forallb_elem_of {A} (f : A → bool) (l : list A) :
  forallb f l = true ↔ ∀ x, x ∈ l → f x = true.
Proof.
  rewrite forallb_forall. split; intros H x Hx; apply H; by apply list_elem_of_In.
Qed.

(** C1 (as amended): with no terms every paper matches; otherwise a paper
    matches exactly when every term, trimmed, is blank or occurs, case
    ignored and without its surrounding double quotes, in the title (title
    only) or in title, one space and summary joined. *)
Theorem textMatches_spec (p : paper) (terms : list string) (titleOnly : bool) :
  textMatches p [] titleOnly = true ∧
  (textMatches p terms titleOnly = true ↔
   ∀ term, term ∈ terms →
     trim term = EmptyString ∨
     occurs_ci (unquote (trim term)) (searched_text p titleOnly)) ∧
  (∀ body, unquote (dquote +:+ body +:+ dquote) = body).
Proof.
  split; [done|]. split; [|apply unquote_quoted].
  unfold textMatches. rewrite haystack_lower.
  destruct terms as [|t terms].
  { split; [|done]. intros _ term Hin. by apply elem_of_nil in Hin. }
  replace (length (t :: terms) =? 0)%nat with false by done.
  rewrite forallb_elem_of. split.
  - intros H term Hin. specialize (H term Hin). cbv beta zeta in H.
    destruct (is_empty (trim term)) eqn:He.
    + left. by apply is_empty_true.
    + right. by apply includes_spec in H.
  - intros H term Hin. cbv beta zeta.
    destruct (is_empty (trim term)) eqn:He; [done|].
    destruct (H term Hin) as [Hblank|Hocc].
    + apply is_empty_true in Hblank. congruence.
    + by apply includes_spec.
Qed.

(** The wording of the design document fails: the code puts a space
    between title and summary, so a term that straddles the two does not
    match. *)
Lemma textMatches_as_stated_fails :
  ¬ (textMatches paper_abcd ["bc"] false = true
     ↔ textMatches_as_stated paper_abcd ["bc"] false).
Proof.
  intros [_ H]. enough (textMatches paper_abcd ["bc"] false = true) by done.
  apply H. right. intros term ->%list_elem_of_singleton.
  by exists "a", "d".
Qed.

Example textMatches_scenario :
  textMatches paper_llm (getActiveTerms search_llm []) false = true ∧
  textMatches paper_words (getActiveTerms search_llm []) false = false ∧
  textMatches paper_llm (getActiveTerms search_llm []) true = false.
Proof. by vm_compute. Qed.

(** ** Category match *)

Lemma existsb_elem_of {A} (f : A → bool) (l : list A) :
  existsb f l = true ↔ ∃ x, x ∈ l ∧ f x = true.
Proof.
  rewrite existsb_exists. split; intros (x & Hx & Hf); exists x; split; try done;
    by apply list_elem_of_In.
Qed.

(** C6: an empty selection accepts every paper; a non-empty selection
    accepts a paper exactly when one of its categories is selected. *)
Theorem categoryMatches_spec (p : paper) (allowed : gset string) :
  (allowed = ∅ → categoryMatches p allowed = true) ∧
  (allowed ≠ ∅ →
   (categoryMatches p allowed = true ↔
    ∃ c, c ∈ default [] (category p) ∧ c ∈ allowed)).
Proof.
  unfold categoryMatches. split.
  - intros ->. done.
  - intros Hne. destruct (size allowed =? 0)%nat eqn:Hs.
    + apply Nat.eqb_eq, size_empty_iff in Hs. by apply leibniz_equiv in Hs.
    + rewrite existsb_elem_of.
      replace (match category p with Some l => l | None => [] end)
        with (default [] (category p)) by by destruct (category p).
      by setoid_rewrite bool_decide_eq_true.
Qed.

Lemma categoryMatches_spec_witness :
  categoryMatches paper_cs ∅ = true ∧
  (categoryMatches paper_cs {["cs.LG"]} = true ↔
   ∃ c, c ∈ default [] (category paper_cs) ∧ c ∈ ({["cs.LG"]} : gset string)).
Proof.
  split.
  - exact (proj1 (categoryMatches_spec paper_cs ∅) eq_refl).
  - apply (proj2 (categoryMatches_spec paper_cs {["cs.LG"]})).
    intros H. by apply (non_empty_singleton_L (C := gset string)) in H.
Defined.

(** ** Loading the daily files *)

Section LoadProps.

Variable fetch : string → completion response.

Variable dayString : nat → string.

Lemma fetchDay_fails dateStr : day_fails fetch dateStr → fetchDay fetch dateStr = [].
Proof.
  unfold day_fails, fetchDay, day_url.
  intros [[e ->]|(res & -> & [Hok|[[e He]|Hna]])]; simpl; [done|..].
  - by rewrite Hok.
  - destruct (ok res); [|done]. by rewrite He.
  - destruct (ok res); [|done]. by rewrite Hna.
Qed.

Lemma fetchDay_array dateStr res ps :
  fetch (day_url dateStr) = Normal res → ok res = true →
  json_body res = Normal (ArrayOf ps) →
  fetchDay fetch dateStr = map (fun p => Dated p dateStr) ps.
Proof.
  unfold fetchDay, day_url. intros -> Hok Hb. simpl. by rewrite Hok, Hb.
Qed.

Lemma loadDays_tasks_spec i n tasks :
  loadDays_tasks fetch dayString i n tasks
  = tasks ++ map (fun j => fetchDay fetch (dayString j)) (seq i n).
Proof.
  revert i tasks. induction n as [|n IH]; intros i tasks; simpl.
  - by rewrite app_nil_r.
  - by rewrite IH, <- app_assoc.
Qed.

(** C3: the list is the concatenation, in day order, of what each day
    contributes; a day whose fetch fails contributes nothing, a day
    whose payload is an array contributes each of its papers, and the
    papers are counted per day, so nothing is removed as a duplicate. *)
Theorem loadDays_spec (nDays : Z) :
  loadDays fetch dayString nDays
  = concat (map (fun i => fetchDay fetch (dayString i)) (seq 0 (Z.to_nat nDays))) ∧
  (∀ dateStr, day_fails fetch dateStr → fetchDay fetch dateStr = []) ∧
  (∀ dateStr res ps,
     fetch (day_url dateStr) = Normal res → ok res = true →
     json_body res = Normal (ArrayOf ps) →
     fetchDay fetch dateStr = map (fun p => Dated p dateStr) ps) ∧
  length (loadDays fetch dayString nDays)
  = sum_list (map (fun i => length (fetchDay fetch (dayString i)))
                  (seq 0 (Z.to_nat nDays))).
Proof.
  assert (loadDays fetch dayString nDays
          = concat (map (fun i => fetchDay fetch (dayString i))
                        (seq 0 (Z.to_nat nDays)))) as Heq.
  { unfold loadDays. by rewrite loadDays_tasks_spec. }
  split; [done|]. split; [apply fetchDay_fails|]. split; [apply fetchDay_array|].
  rewrite Heq. generalize (seq 0 (Z.to_nat nDays)) as days.
  induction days as [|d days IH]; [done|].
  cbn [map concat sum_list]. by rewrite length_app, IH.
Qed.

End LoadProps.

Lemma loadDays_spec_witness :
  loadDays net_404 three_days 3
  = [Dated paper_x "2024-01-03"; Dated paper_y "2024-01-03"; Dated paper_x "2024-01-01"] ∧
  fetchDay net_404 "2024-01-02" = [].
Proof.
  destruct (loadDays_spec net_404 three_days 3) as (Hcat & Hfail & Harr & _).
  split.
  - rewrite Hcat. change (Z.to_nat 3) with 3%nat.
    cbn [seq map concat three_days].
    rewrite (Hfail "2024-01-02").
    + rewrite (Harr "2024-01-03" _ [paper_x; paper_y] eq_refl eq_refl eq_refl).
      by rewrite (Harr "2024-01-01" _ [paper_x] eq_refl eq_refl eq_refl).
    + right. eexists. split; [reflexivity|]. by left.
  - apply Hfail. right. eexists. split; [reflexivity|]. by left.
Defined.

(** ** Grouping by date *)

Lemma ltb_irrefl s : (s <? s)%string = false.
Proof.
  unfold String.ltb. pose proof (String.compare_antisym s s) as Ha.
  by destruct (s ?= s)%string.
Qed.

Lemma ltb_leb a b : (a <? b)%string = true → String.le a b.
Proof.
  unfold String.ltb, String.le, String.leb. by destruct (a ?= b)%string.
Qed.

Lemma ltb_trans a b c :
  (a <? b)%string = true → (b <? c)%string = true → (a <? c)%string = true.
Proof.
  intros Hab Hbc.
  pose proof (ltb_leb _ _ Hab) as Lab. pose proof (ltb_leb _ _ Hbc) as Lbc.
  assert (String.le a c) as Lac by by etrans.
  destruct (a <? c)%string eqn:Hac; [done|].
  assert (a = c) as ->.
  { unfold String.ltb, String.le, String.leb in *.
    destruct (a ?= c)%string eqn:Hc; try done. by apply String.compare_eq_iff. }
  assert (b = c) as -> by by apply (anti_symm String.le).
  by rewrite ltb_irrefl in Hab.
Qed.

Lemma ltb_total a b : a ≠ b → (a <? b)%string = false → (b <? a)%string = true.
Proof.
  unfold String.ltb. rewrite (String.compare_antisym a b). intros Hne H.
  destruct (b ?= a)%string eqn:Hc; simpl in *; try done.
  apply String.compare_eq_iff in Hc. congruence.
Qed.

Lemma sort_insert_perm {A} (cmp : A → A → Z) x l : sort_insert cmp x l ≡ₚ x :: l.
Proof.
  induction l as [|y l IH]; simpl; [done|].
  destruct (cmp x y >? 0); [|done]. by rewrite IH, Permutation_swap.
Qed.

Lemma sort_perm {A} (cmp : A → A → Z) l : array_sort cmp l ≡ₚ l.
Proof.
  induction l as [|x l IH]; simpl; [done|].
  by rewrite sort_insert_perm, IH.
Qed.

Lemma sort_insert_sorted x l :
  fst x ∉ l.*1 → StronglySorted date_desc l →
  StronglySorted date_desc (sort_insert by_date_desc x l).
Proof.
  intros Hx Hs. induction Hs as [|y l Hs IH Hall]; simpl.
  - repeat constructor.
  - apply not_elem_of_cons in Hx as [Hxy Hx]. unfold by_date_desc at 1.
    destruct (fst x <? fst y)%string eqn:Hlt; simpl.
    + constructor; [by apply IH|].
      rewrite sort_insert_perm. by constructor.
    + assert (date_desc x y) as Hyx by by apply ltb_total.
      constructor; [by constructor|]. constructor; [done|].
      eapply Forall_impl; [exact Hall|]. intros z Hz.
      unfold date_desc in *. by eapply ltb_trans.
Qed.

Lemma sort_sorted l :
  NoDup l.*1 → StronglySorted date_desc (array_sort by_date_desc l).
Proof.
  induction l as [|x l IH]; simpl; [constructor|].
  intros [Hx Hnd]%NoDup_cons. apply sort_insert_sorted; [|by apply IH].
  by rewrite sort_perm.
Qed.

Lemma map_push_keys k p m : (map_push k p m).*1 = m.*1.
Proof.
  induction m as [|[k' l] m IH]; [done|]. cbn [map_push].
  destruct (String.eqb k k'); rewrite !fmap_cons; [done|]. by rewrite IH.
Qed.

Lemma map_has_keys k m : map_has k m = true ↔ k ∈ m.*1.
Proof.
  unfold map_has. rewrite existsb_elem_of, list_elem_of_fmap.
  split.
  - intros (e & He & ->%String.eqb_eq). by exists e.
  - intros (e & -> & He). exists e. by rewrite String.eqb_refl.
Qed.

Lemma map_push_elem_of k p m d l :
  NoDup m.*1 →
  (d, l) ∈ map_push k p m ↔
  (d ≠ k ∧ (d, l) ∈ m) ∨ (d = k ∧ ∃ l0, (k, l0) ∈ m ∧ l = l0 ++ [p]).
Proof.
  induction m as [|[k' l'] m IH]; simpl.
  - intros _. split; [by intros ?%elem_of_nil|].
    intros [[_ ?%elem_of_nil]|(_ & l0 & ?%elem_of_nil & _)]; done.
  - intros [Hk' Hnd]%NoDup_cons. specialize (IH Hnd).
    assert (∀ x, (k', x) ∉ m) as Hfresh.
    { intros x Hin. apply Hk'. apply list_elem_of_fmap. by exists (k', x). }
    destruct (String.eqb_spec k k') as [->|Hne].
    + rewrite !elem_of_cons. split.
      * intros [Heq|Hin].
        -- injection Heq as -> ->. right. split; [done|]. exists l'. split; [by apply elem_of_cons; left|done].
        -- left. split; [|by right]. intros ->. by eapply Hfresh.
      * intros [[Hd [Heq|Hin]]|(-> & l0 & [Heq|Hin]%elem_of_cons & ->)].
        -- by injection Heq as -> ->.
        -- by right.
        -- injection Heq as ->. by left.
        -- by destruct (Hfresh l0).
    + rewrite !elem_of_cons, IH. split.
      * intros [Heq|[[Hd Hin]|(-> & l0 & Hin & ->)]].
        -- injection Heq as -> ->. left. split; [done|by left].
        -- left. split; [done|by right].
        -- right. split; [done|]. exists l0. split; [by apply elem_of_cons; right|done].
      * intros [[Hd [Heq|Hin]]|(-> & l0 & [Heq|Hin]%elem_of_cons & ->)].
        -- by left.
        -- right. by left.
        -- by injection Heq as ->.
        -- right. right. split; [done|]. by exists l0.
Qed.

Lemma of_date_snoc d papers p :
  of_date d (papers ++ [p])
  = of_date d papers ++ (if decide (__date p = d) then [p] else []).
Proof.
  unfold of_date. by rewrite filter_app.
Qed.

(** The [Map] that the loop of [groupByDate] builds has one entry per date
    that occurs, holding the papers of that date. *)
Lemma group_map_spec papers :
  let m := foldl group_step [] papers in
  NoDup m.*1 ∧
  ∀ d l, (d, l) ∈ m ↔ l = of_date d papers ∧ l ≠ [].
Proof.
  induction papers as [|p papers IH] using rev_ind; simpl.
  - split; [constructor|]. intros d l. split; [by intros ?%elem_of_nil|].
    by intros [-> ?].
  - rewrite foldl_app. simpl. simpl in IH. destruct IH as [Hnd IH].
    set (m := foldl group_step [] papers) in *.
    unfold group_step. set (k := __date p).
    destruct (map_has k m) eqn:Hhas.
    + split; [by rewrite map_push_keys|].
      intros d l. rewrite map_push_elem_of by done. rewrite of_date_snoc.
      apply map_has_keys, list_elem_of_fmap in Hhas as ([k0 l0] & Hk & Hin).
      simpl in Hk. subst k0. pose proof Hin as [-> Hl0]%IH.
      destruct (decide (__date p = d)) as [Hd|Hd].
      * fold k in Hd. subst d. split.
        -- intros [[? _]|(_ & l1 & [-> _]%IH & ->)]; [done|].
           split; [done|]. by destruct (of_date k papers).
        -- intros [-> _]. right. split; [done|]. by exists (of_date k papers).
      * fold k in Hd. rewrite app_nil_r. rewrite IH. split.
        -- by intros [[_ ?]|[-> _]].
        -- intros ?. left. split; [|done]. by intros ->.
    + assert (k ∉ m.*1) as Hk.
      { intros ?%map_has_keys. congruence. }
      assert (of_date k papers = []) as Hnone.
      { destruct (of_date k papers) as [|x xs] eqn:Hf; [done|].
        destruct Hk. apply list_elem_of_fmap. exists (k, x :: xs). split; [done|].
        apply IH. by rewrite Hf. }
      assert (NoDup (m ++ [(k, [])]).*1) as Hnd'.
      { rewrite fmap_app. simpl. apply NoDup_app. split; [done|]. split.
        - intros x Hx ->%list_elem_of_singleton. done.
        - apply NoDup_singleton. }
      split; [by rewrite map_push_keys|].
      intros d l. rewrite map_push_elem_of by done. rewrite of_date_snoc.
      rewrite !elem_of_app, !list_elem_of_singleton.
      destruct (decide (__date p = d)) as [Hd|Hd].
      * fold k in Hd. subst d. rewrite Hnone. simpl. split.
        -- intros [[? _]|(_ & l1 & [Hin|[= ->]%list_elem_of_singleton]%elem_of_app & ->)];
             try done.
           apply IH in Hin as [-> ?]. by rewrite Hnone.
        -- intros [-> _]. right. split; [done|]. exists []. split; [|done].
           apply elem_of_app. right. by apply list_elem_of_singleton.
      * fold k in Hd. rewrite app_nil_r. split.
        -- intros [[_ [Hin|[= -> ->]]]|[-> _]]; try done. by apply IH.
        -- intros Hl. left. split; [by intros ->|]. left. by apply IH.
Qed.

(** C9: the groups come in strictly descending order of their date
    strings, and they partition the papers by date: there is a group for a
    date exactly when some paper has it, and the group holds the papers of
    that date, in their order. *)
Theorem groupByDate_spec (papers : list dated) :
  StronglySorted date_desc (groupByDate papers) ∧
  (∀ d l, (d, l) ∈ groupByDate papers ↔ l = of_date d papers ∧ l ≠ []) ∧
  (∀ p, p ∈ papers → ∃ l, (__date p, l) ∈ groupByDate papers ∧ p ∈ l).
Proof.
  destruct (group_map_spec papers) as [Hnd Hm]. simpl in Hnd, Hm.
  assert (∀ d l, (d, l) ∈ groupByDate papers ↔ l = of_date d papers ∧ l ≠ []) as H.
  { intros d l. unfold groupByDate. by rewrite sort_perm. }
  split; [by apply sort_sorted|]. split; [done|].
  intros p Hp. exists (of_date (__date p) papers).
  assert (p ∈ of_date (__date p) papers) as Hin.
  { unfold of_date. by apply list_elem_of_filter. }
  split; [|done]. apply H. split; [done|]. by intros Heq; rewrite Heq in Hin;
    apply elem_of_nil in Hin.
Qed.

Example groupByDate_example :
  groupByDate [Dated paper_x "2024-01-01"; Dated paper_y "2024-01-03";
               Dated paper_x "2024-01-03"]
  = [("2024-01-03", [Dated paper_y "2024-01-03"; Dated paper_x "2024-01-03"]);
     ("2024-01-01", [Dated paper_x "2024-01-01"])].
Proof. by vm_compute. Qed.

(** ** Term extraction *)

Lemma span_unquoted_spec body rest :
  quote_free body = true →
  span_unquoted (body +:+ dquote +:+ rest) = (body, dquote +:+ rest).
Proof.
  induction body as [|c body IH]; [done|]. cbn [quote_free].
  intros [Hc Hb]%andb_true_iff. rewrite str_app_cons. cbn [span_unquoted].
  apply negb_true_iff in Hc. by rewrite Hc, IH.
Qed.

Lemma match_quoted_spec phrase rest :
  quote_free phrase = true → phrase ≠ EmptyString →
  match_quoted (quoted phrase +:+ rest) = Some (phrase, rest).
Proof.
  intros Hq Hne. unfold quoted. rewrite !str_app_assoc.
  change (dquote +:+ phrase +:+ dquote +:+ rest)
    with (String (ascii_of_N 34) (phrase +:+ dquote +:+ rest)).
  cbn [match_quoted]. rewrite Ascii.eqb_refl, span_unquoted_spec by done.
  by destruct phrase.
Qed.

Lemma span_unquoted_length s body rest :
  span_unquoted s = (body, rest) → (String.length rest <= String.length s)%nat.
Proof.
  revert body rest. induction s as [|c s IH]; intros body rest; cbn [span_unquoted].
  - by intros [= <- <-].
  - destruct (Ascii.eqb c (ascii_of_N 34)); [by intros [= <- <-]|].
    destruct (span_unquoted s) as [b r]. intros [= <- <-].
    specialize (IH b r eq_refl). simpl. lia.
Qed.

Lemma match_quoted_length s body rest :
  match_quoted s = Some (body, rest) → (String.length rest < String.length s)%nat.
Proof.
  destruct s as [|c s]; [done|]. cbn [match_quoted].
  destruct (Ascii.eqb c (ascii_of_N 34)); [|done].
  destruct (span_unquoted s) as [[|b bs] [|q r]] eqn:Hs; try done.
  intros [= <- <-]. apply span_unquoted_length in Hs. simpl in *. lia.
Qed.

(** The fuel of [pieces] is enough: more fuel changes nothing. *)
Lemma scan_quoted_fuel fuel s :
  (String.length s <= fuel)%nat → scan_quoted fuel s = pieces s.
Proof.
  unfold pieces. revert s. induction fuel as [fuel IH] using lt_wf_ind.
  intros s Hlen. destruct fuel as [|fuel].
  { destruct s; [done|simpl in Hlen; lia]. }
  destruct s as [|c s]; [done|].
  cbn [String.length scan_quoted].
  destruct (match_quoted (String c s)) as [[body rest]|] eqn:Hm.
  - apply match_quoted_length in Hm. simpl in Hm, Hlen.
    rewrite (IH fuel) by lia. rewrite (IH (String.length s)) by lia. done.
  - simpl in Hlen. rewrite (IH fuel) by lia. done.
Qed.

Lemma pieces_quoted phrase rest :
  quote_free phrase = true → phrase ≠ EmptyString →
  pieces (quoted phrase +:+ rest) = Quoted phrase :: pieces rest.
Proof.
  intros Hq Hne. unfold pieces at 1.
  pose proof (match_quoted_spec phrase rest Hq Hne) as Hm.
  pose proof (match_quoted_length _ _ _ Hm) as Hlen.
  destruct (String.length (quoted phrase +:+ rest)) as [|n]; [lia|].
  cbn [scan_quoted]. rewrite Hm. rewrite scan_quoted_fuel by lia. done.
Qed.

Lemma pieces_unquoted pre rest :
  quote_free pre = true → pieces (pre +:+ rest) = lits pre ++ pieces rest.
Proof.
  induction pre as [|c pre IH]; [done|]. cbn [quote_free].
  intros [Hc Hp]%andb_true_iff. apply negb_true_iff in Hc.
  rewrite str_app_cons. unfold pieces at 1. cbn [String.length scan_quoted match_quoted].
  rewrite Hc. rewrite scan_quoted_fuel by done. by rewrite IH.
Qed.

Lemma groups_app ps qs : groups (ps ++ qs) = groups ps ++ groups qs.
Proof.
  induction ps as [|[c|b] ps IH]; simpl; by rewrite ?IH.
Qed.

Lemma literals_app ps qs : literals (ps ++ qs) = literals ps +:+ literals qs.
Proof.
  induction ps as [|[c|b] ps IH]; simpl; rewrite ?str_app_cons; by rewrite ?IH.
Qed.

Lemma groups_lits s : groups (lits s) = [].
Proof. induction s; simpl; done. Qed.

Lemma literals_lits s : literals (lits s) = s.
Proof. induction s as [|c s IH]; simpl; by rewrite ?IH. Qed.

Lemma split_ws_from_ws_free in_gap s w :
  w ∈ split_ws_from in_gap s → ws_free w = true.
Proof.
  revert in_gap w. induction s as [|c s IH]; intros in_gap w; cbn [split_ws_from].
  - by intros ->%list_elem_of_singleton.
  - destruct (is_ws c) eqn:Hc.
    + destruct in_gap; [apply IH|]. intros [->|Hin]%elem_of_cons; [done|]. by eapply IH.
    + pose proof (IH false) as IH'.
      destruct (split_ws_from false s) as [|w0 ws].
      * intros ->%list_elem_of_singleton. simpl. by rewrite Hc.
      * intros [->|Hin]%elem_of_cons.
        -- simpl. rewrite Hc. simpl. apply IH'. by left.
        -- apply IH'. by right.
Qed.

Lemma filter_elem_of {A} (f : A → bool) (l : list A) x :
  x ∈ List.filter f l ↔ x ∈ l ∧ f x = true.
Proof. by rewrite !list_elem_of_In, filter_In. Qed.

Lemma single_words_spec s w :
  w ∈ single_words s → w ≠ EmptyString ∧ ws_free w = true.
Proof.
  unfold single_words. cbv zeta. intros [Hin Hne]%filter_elem_of. split.
  - intros ->. done.
  - destruct (is_empty (trim s)); [by apply elem_of_nil in Hin|].
    by eapply split_ws_from_ws_free.
Qed.

Lemma filter_nonempty_quoted l :
  List.filter nonempty (map (fun m => dquote +:+ m +:+ dquote) l)
  = map quoted l.
Proof. induction l as [|x l IH]; simpl; [done|]. by rewrite IH. Qed.

Lemma pieces_lits s : quote_free s = true → pieces s = lits s.
Proof.
  intros Hs. rewrite <- (str_app_empty_r s) at 1.
  rewrite pieces_unquoted by done. apply app_nil_r.
Qed.

(** A well-quoted text is scanned on its own, whatever follows it. *)
Lemma pieces_well_quoted pre rest :
  well_quoted pre → pieces (pre +:+ rest) = pieces pre ++ pieces rest.
Proof.
  induction 1 as [s Hs|s phrase pre Hs Hq Hne Hpre IH].
  - by rewrite pieces_unquoted, (pieces_lits s).
  - rewrite !str_app_assoc.
    rewrite (pieces_unquoted s (quoted phrase +:+ pre +:+ rest)) by done.
    rewrite (pieces_unquoted s (quoted phrase +:+ pre)) by done.
    rewrite !pieces_quoted by done. by rewrite IH, <- app_assoc.
Qed.

Lemma filter_nonempty_terms l rest :
  List.filter nonempty (map (fun m => dquote +:+ m +:+ dquote) l ++ rest)
  = map quoted l ++ List.filter nonempty rest.
Proof. by rewrite List.filter_app, filter_nonempty_quoted. Qed.

(** C7 (as amended): when the trimmed search text holds a non-empty
    double-quoted phrase and every double quote before it belongs to a
    complete quoted phrase, the phrase, in its quotes, is one single term,
    in its place among the quoted phrases of the text; after them come the
    single words of the text outside the phrases and the non-empty chip
    terms.  The single words are non-empty and free of white space, and no
    term is empty. *)
Theorem getActiveTerms_quoted (value pre phrase post : string) (chips : list string) :
  trim value = pre +:+ quoted phrase +:+ post →
  well_quoted pre → quote_free phrase = true → phrase ≠ EmptyString →
  getActiveTerms value chips
  = map quoted (matchAll_quoted pre)
    ++ quoted phrase
    :: map quoted (matchAll_quoted post)
    ++ single_words (replace_quoted pre +:+ replace_quoted post)
    ++ List.filter nonempty chips ∧
  (∀ w, w ∈ single_words (replace_quoted pre +:+ replace_quoted post) →
     w ≠ EmptyString ∧ ws_free w = true) ∧
  (∀ t, t ∈ getActiveTerms value chips → t ≠ EmptyString).
Proof.
  intros Hraw Hpre Hq Hne. split; [|split].
  - unfold getActiveTerms. cbv zeta. rewrite Hraw.
    unfold matchAll_quoted, replace_quoted.
    rewrite pieces_well_quoted, pieces_quoted by done.
    rewrite groups_app, literals_app. cbn [groups literals].
    change (fun t => negb (is_empty t)) with nonempty.
    rewrite filter_nonempty_terms, List.filter_app.
    change (phrase :: groups (pieces post)) with ([phrase] ++ groups (pieces post)).
    rewrite !map_app, <- !app_assoc. done.
  - intros w. apply single_words_spec.
  - intros t [_ Ht]%filter_elem_of ->. done.
Qed.

Lemma getActiveTerms_quoted_witness :
  getActiveTerms search_two_phrases ["diffusion"]
  = [quoted "video generation"; quoted "large language model"; "of"; "reasoning";
     "diffusion"].
Proof.
  apply (getActiveTerms_quoted search_two_phrases
           ("" +:+ quoted "video generation" +:+ " of ")
           "large language model" " reasoning" ["diffusion"]); try done.
  by apply well_quoted_phrase; [..|apply well_quoted_text].
Defined.

(** It fails when a double quote comes before the phrase: the quotes are
    paired from the left, and the words of the phrase become two terms. *)
Lemma phrase_is_term_fails :
  ¬ phrase_is_term (quoted " " +:+ "a b" +:+ dquote) "a b".
Proof.
  intros H. destruct H as [H|H].
  - by exists (dquote +:+ " "), "".
  - apply list_elem_of_In in H. vm_compute in H.
    destruct H as [H|[H|[H|[]]]]; discriminate H.
  - apply list_elem_of_In in H. vm_compute in H.
    destruct H as [H|[H|[H|[]]]]; discriminate H.
Qed.

(** ** The reference codec *)

Lemma json_ind (P : json → Prop) :
  P JNull → (∀ b, P (JBool b)) → (∀ s, P (JStr s)) →
  (∀ l, Forall P l → P (JArr l)) →
  (∀ ps, Forall (fun kv => P (snd kv)) ps → P (JObj ps)) →
  ∀ v, P v.
Proof.
  intros Hnull Hbool Hstr Harr Hobj. fix IH 1. intros [|b|s|l|ps].
  - apply Hnull.
  - apply Hbool.
  - apply Hstr.
  - apply Harr. induction l as [|x l IHl]; constructor; [apply IH|apply IHl].
  - apply Hobj. induction ps as [|[k x] ps IHps]; constructor; [apply IH|apply IHps].
Qed.

Lemma parse_escape_char c t :
  parse_string_body (escape_char c +:+ t)
  = match parse_string_body t with
    | Some (str, rest) => Some (String c str, rest)
    | None => None
    end.
Proof. destruct c as [[] [] [] [] [] [] [] []]; reflexivity. Qed.

Lemma parse_string_body_escape s rest :
  parse_string_body (escape s +:+ dquote +:+ rest) = Some (s, rest).
Proof.
  induction s as [|c s IH]; [done|].
  cbn [escape]. by rewrite str_app_assoc, parse_escape_char, IH.
Qed.

Lemma skip_ws_spaces n s : skip_ws (spaces n +:+ s) = skip_ws s.
Proof.
  induction n as [|n IH]; [done|]. cbn [spaces]. rewrite str_app_cons.
  cbn [skip_ws]. by change (is_json_ws " ") with true.
Qed.

Lemma skip_ws_newline indent level s : skip_ws (newline indent level +:+ s) = skip_ws s.
Proof.
  destruct indent as [|n]; [done|]. unfold newline. rewrite str_app_cons.
  cbn [skip_ws]. change (is_json_ws (chr 10)) with true. cbv iota.
  apply skip_ws_spaces.
Qed.

Lemma print_head indent level v :
  ∃ c t, print indent level v = String c t ∧ opens_value c.
Proof.
  destruct v as [|[]|s|[|x xs]|[|[k x] ps]]; eexists _, _; (split; [reflexivity|done]).
Qed.

Lemma skip_ws_quote k s : ∃ t, skip_ws (quote k +:+ s) = String (chr 34) t.
Proof. by eexists. Qed.

Lemma skip_ws_print indent level v s :
  skip_ws (print indent level v +:+ s) = print indent level v +:+ s.
Proof.
  destruct (print_head indent level v) as (c & t & -> & Hws & _).
  rewrite str_app_cons. cbn [skip_ws]. by rewrite Hws.
Qed.

Lemma parse_value_skip fuel s s' :
  skip_ws s = skip_ws s' → parse_value fuel s = parse_value fuel s'.
Proof. destruct fuel; [done|]. simpl. by intros ->. Qed.

Lemma parse_members_skip fuel s s' :
  skip_ws s = skip_ws s' → parse_members fuel s = parse_members fuel s'.
Proof. destruct fuel; [done|]. simpl. by intros ->. Qed.

Lemma parse_value_array fuel r :
  parse_value (S fuel) (String "[" r)
  = match skip_ws r with
    | String c rest =>
        if (code c =? 93)%N then Some (JArr [], rest)
        else '(l, rest') ← parse_items fuel r; Some (JArr l, rest')
    | EmptyString => None
    end.
Proof. reflexivity. Qed.

Lemma parse_value_object fuel r :
  parse_value (S fuel) (String "{" r)
  = match skip_ws r with
    | String c rest =>
        if (code c =? 125)%N then Some (JObj [], rest)
        else '(l, rest') ← parse_members fuel r; Some (JObj l, rest')
    | EmptyString => None
    end.
Proof. reflexivity. Qed.

Lemma parse_items_step fuel s :
  parse_items (S fuel) s
  = '(v, r) ← parse_value fuel s;
    match skip_ws r with
    | String c rest =>
        if (code c =? 44)%N then
          '(vs, rest') ← parse_items fuel rest; Some (v :: vs, rest')
        else if (code c =? 93)%N then Some ([v], rest)
        else None
    | EmptyString => None
    end.
Proof. reflexivity. Qed.

Lemma parse_members_key fuel k t :
  parse_members (S fuel) (quote k +:+ t)
  = match skip_ws t with
    | String c r2 =>
        if (code c =? 58)%N then
          '(v, r3) ← parse_value fuel r2;
          match skip_ws r3 with
          | String c' rest =>
              if (code c' =? 44)%N then
                '(ms, rest') ← parse_members fuel rest;
                Some ((k, v) :: ms, rest')
              else if (code c' =? 125)%N then Some ([(k, v)], rest)
              else None
          | EmptyString => None
          end
        else None
    | EmptyString => None
    end.
Proof.
  unfold quote. rewrite !str_app_assoc.
  change (dquote +:+ escape k +:+ dquote +:+ t)
    with (String (chr 34) (escape k +:+ dquote +:+ t)).
  cbn [parse_members skip_ws]. change (is_json_ws (chr 34)) with false. cbv iota.
  change (code (chr 34) =? 34)%N with true. cbv iota.
  by rewrite parse_string_body_escape.
Qed.

Lemma parse_members_member fuel indent k t :
  parse_members (S fuel) (quote k +:+ colon indent +:+ t)
  = '(v, r3) ← parse_value fuel t;
    match skip_ws r3 with
    | String c' rest =>
        if (code c' =? 44)%N then
          '(ms, rest') ← parse_members fuel rest;
          Some ((k, v) :: ms, rest')
        else if (code c' =? 125)%N then Some ([(k, v)], rest)
        else None
    | EmptyString => None
    end.
Proof.
  rewrite parse_members_key. destruct indent as [|n].
  - reflexivity.
  - change (colon (S n) +:+ t) with (String ":" (String " " t)).
    cbn [skip_ws]. change (is_json_ws ":") with false. cbv iota.
    change (code ":" =? 58)%N with true. cbv iota.
    by rewrite (parse_value_skip fuel (String " " t) t).
Qed.

Lemma parse_items_print indent level xs :
  Forall reads_back xs → ∀ x fuel rest,
  reads_back x →
  (json_size x + sum_list (map (fun y => S (json_size y)) xs) < fuel)%nat →
  parse_items fuel
    (newline indent (S level) +:+ print indent (S level) x +:+
     print_more (print indent (S level)) (newline indent (S level))
       (newline indent level +:+ "]") xs +:+ rest)
  = Some (x :: xs, rest).
Proof.
  induction 1 as [|y xs Hy Hxs IH]; intros x fuel rest Hx Hfuel;
    (destruct fuel as [|fuel]; [lia|]); rewrite parse_items_step;
    rewrite (parse_value_skip _ _ _ (skip_ws_newline _ _ _));
    cbn [map sum_list] in Hfuel; (rewrite Hx by lia); cbn [mbind option_bind].
  - cbn [print_more]. rewrite str_app_assoc, skip_ws_newline. done.
  - cbn [print_more]. rewrite !str_app_assoc.
    change ("," +:+ ?s) with (String "," s). cbn [skip_ws].
    change (is_json_ws ",") with false. cbv iota.
    change (code "," =? 44)%N with true. cbv iota.
    rewrite IH by (done || (unfold id in *; lia)). done.
Qed.

Lemma parse_members_print indent level ps :
  Forall (fun kv => reads_back (snd kv)) ps → ∀ k x fuel rest,
  reads_back x →
  (json_size x + sum_list (map (fun kv => S (json_size (snd kv))) ps) < fuel)%nat →
  parse_members fuel
    (newline indent (S level) +:+ quote k +:+ colon indent +:+
     print indent (S level) x +:+
     print_more (fun kv => quote (fst kv) +:+ colon indent +:+
                           print indent (S level) (snd kv))
       (newline indent (S level)) (newline indent level +:+ "}") ps +:+ rest)
  = Some ((k, x) :: ps, rest).
Proof.
  induction 1 as [|[k' y] ps Hy Hps IH]; intros k x fuel rest Hx Hfuel;
    (destruct fuel as [|fuel]; [lia|]);
    rewrite (parse_members_skip _ _ _ (skip_ws_newline _ _ _));
    rewrite parse_members_member;
    cbn [map sum_list snd] in Hfuel; (rewrite Hx by lia); cbn [mbind option_bind].
  - cbn [print_more]. rewrite str_app_assoc, skip_ws_newline. done.
  - cbn [print_more fst snd]. rewrite !str_app_assoc.
    change ("," +:+ ?s) with (String "," s). cbn [skip_ws].
    change (is_json_ws ",") with false. cbv iota.
    change (code "," =? 44)%N with true. cbv iota.
    rewrite IH by (done || (unfold id in *; simpl in *; lia)). done.
Qed.

Lemma parse_print v : reads_back v.
Proof.
  induction v as [|b|s|l IH|ps IH] using json_ind;
    intros indent level fuel rest Hfuel;
    (destruct fuel as [|fuel]; [cbn [json_size] in Hfuel; lia|]).
  - reflexivity.
  - by destruct b.
  - cbn [print]. unfold quote. rewrite !str_app_assoc.
    change (dquote +:+ escape s +:+ dquote +:+ rest)
      with (String (chr 34) (escape s +:+ dquote +:+ rest)).
    cbn [parse_value skip_ws]. change (is_json_ws (chr 34)) with false. cbv iota.
    change (code (chr 34)) with 34%N. cbv iota.
    by rewrite parse_string_body_escape.
  - destruct l as [|x xs]; [reflexivity|]. apply Forall_cons in IH as [Hx Hxs].
    cbn [print]. rewrite !str_app_assoc.
    change ("[" +:+ ?s) with (String "[" s). rewrite parse_value_array.
    rewrite skip_ws_newline, skip_ws_print.
    destruct (print_head indent (S level) x) as (c & t & Hc & _ & Hnot & _).
    rewrite Hc at 1. rewrite str_app_cons.
    apply N.eqb_neq in Hnot. rewrite Hnot.
    cbn [json_size map sum_list] in Hfuel.
    rewrite parse_items_print by (done || (unfold id in *; lia)). done.
  - destruct ps as [|[k x] ps]; [reflexivity|]. apply Forall_cons in IH as [Hx Hps].
    cbn [print]. rewrite !str_app_assoc.
    change ("{" +:+ ?s) with (String "{" s). rewrite parse_value_object.
    rewrite skip_ws_newline.
    match goal with
    | |- context [skip_ws (quote k +:+ ?s)] =>
        destruct (skip_ws_quote k s) as [t ->]
    end.
    change (code (chr 34) =? 125)%N with false. cbv iota.
    cbn [json_size map sum_list snd] in Hfuel.
    rewrite parse_members_print by (done || (unfold id in *; lia)). done.
Qed.

Lemma print_more_cons {A} (item : A → string) sep close y l :
  print_more item sep close (y :: l)
  = "," +:+ sep +:+ item y +:+ print_more item sep close l.
Proof. reflexivity. Qed.

Lemma print_more_length {A} (item : A → string) (size : A → nat) sep close l :
  Forall (fun y => (size y <= String.length (item y))%nat) l →
  (sum_list (map (fun y => S (size y)) l) + String.length close
   <= String.length (print_more item sep close l))%nat.
Proof.
  induction 1 as [|y l Hy Hl IH]; [done|].
  rewrite print_more_cons. cbn [map sum_list].
  rewrite !str_length_app. cbn [String.length]. unfold id in *. lia.
Qed.

Lemma print_length v :
  ∀ indent level, (json_size v <= String.length (print indent level v))%nat.
Proof.
  induction v as [|b|s|l IH|ps IH] using json_ind; intros indent level.
  - simpl. lia.
  - destruct b; simpl; lia.
  - cbn [print json_size]. unfold quote. rewrite !str_length_app. simpl. lia.
  - destruct l as [|x xs]; [simpl; lia|]. apply Forall_cons in IH as [Hx Hxs].
    cbn [print json_size map sum_list]. rewrite !str_length_app.
    pose proof (print_more_length (print indent (S level)) json_size
      (newline indent (S level)) (newline indent level +:+ "]") xs) as Hmore.
    rewrite str_length_app in Hmore. cbn [String.length] in *.
    specialize (Hx indent (S level)). unfold id in *.
    assert (Forall (fun y => (json_size y <= String.length (print indent (S level) y))%nat) xs)
      as HF by (eapply Forall_impl; [exact Hxs|]; intros y Hy; apply Hy).
    specialize (Hmore HF). lia.
  - destruct ps as [|[k x] ps]; [simpl; lia|]. apply Forall_cons in IH as [Hx Hps].
    cbn [print json_size map sum_list snd]. rewrite !str_length_app.
    pose proof (print_more_length
      (fun kv => quote (fst kv) +:+ colon indent +:+ print indent (S level) (snd kv))
      (fun kv => json_size (snd kv))
      (newline indent (S level)) (newline indent level +:+ "}") ps) as Hmore.
    rewrite str_length_app in Hmore. cbn [String.length] in *.
    specialize (Hx indent (S level)). unfold id in *. simpl in Hx.
    assert (Forall (fun kv : string * json =>
              (json_size (snd kv) <= String.length
                 (quote (fst kv) +:+ colon indent +:+ print indent (S level) (snd kv)))%nat) ps)
      as HF.
    { eapply Forall_impl; [exact Hps|]. intros kv Hkv. cbv beta in Hkv.
      rewrite !str_length_app. specialize (Hkv indent (S level)). lia. }
    specialize (Hmore HF). lia.
Qed.

Lemma ref_parse_stringify indent v : ref_parse (ref_stringify indent v) = Some v.
Proof.
  unfold ref_parse, ref_stringify.
  pose proof (parse_print v indent 0%nat
    (S (String.length (print indent 0 v))) EmptyString) as H.
  rewrite str_app_empty_r in H. rewrite H; [done|].
  pose proof (print_length v indent 0%nat). lia.
Qed.

Lemma ref_stringify_nonempty indent v : ref_stringify indent v ≠ EmptyString.
Proof.
  unfold ref_stringify. by destruct (print_head indent 0 v) as (c & t & -> & _).
Qed.

(** The reference codec satisfies the laws of the platform's codec. *)
#[global] Instance ref_codec : JSONCodec := {|
  JSON_parse := ref_parse;
  JSON_stringify := ref_stringify;
  parse_stringify := ref_parse_stringify;
  stringify_nonempty := ref_stringify_nonempty;
|}.

(** A stand-in for the browser's HTML parser in the examples: it is the
    browser's on the names without the character [<], and finds no
    button for the others. *)
Lemma ref_badge_button_plain topic : has_lt topic = false → negb (has_lt topic) = true.
Proof. by intros ->. Qed.

#[global] Instance ref_html : HTMLParser := {|
  badge_button topic := negb (has_lt topic);
  badge_button_plain := ref_badge_button_plain;
|}.

(** ** Sets *)

Lemma set_add_ok s x : set_ok s → set_ok (set_add s x).
Proof.
  intros Hs. unfold set_add. destruct (set_has s x) eqn:Hx; [done|]. by constructor.
Qed.

Lemma set_add_all_ok s xs : set_ok s → set_ok (set_add_all s xs).
Proof.
  unfold set_add_all. revert s. induction xs as [|x xs IH]; intros s Hs; [done|].
  simpl. by apply IH, set_add_ok.
Qed.

Lemma set_add_all_fixed s : set_ok s → set_add_all [] s = s.
Proof.
  unfold set_add_all. induction 1 as [|s x Hs IH Hx]; [done|].
  rewrite foldl_app. simpl. rewrite IH. unfold set_add. by rewrite Hx.
Qed.

Lemma set_has_app s t x : set_has (s ++ t) x = set_has s x || set_has t x.
Proof. unfold set_has. apply existsb_app. Qed.

Lemma set_delete_app s t y : set_delete (s ++ t) y = set_delete s y ++ set_delete t y.
Proof. unfold set_delete. apply List.filter_app. Qed.

Lemma set_has_delete s x y : set_has s x = false → set_has (set_delete s y) x = false.
Proof.
  unfold set_has, set_delete. induction s as [|z s IH]; [done|]. simpl.
  intros [Hz Hs]%orb_false_iff. destruct (negb (sameValueZero y z)); simpl; auto.
  by rewrite Hz, IH.
Qed.

Lemma set_delete_ok s y : set_ok s → set_ok (set_delete s y).
Proof.
  induction 1 as [|s x Hs IH Hx]; [constructor|].
  rewrite set_delete_app. unfold set_delete at 2. simpl.
  destruct (negb (sameValueZero y x)).
  - constructor; [done|]. by apply set_has_delete.
  - by rewrite app_nil_r.
Qed.

Lemma new_Set_ok v s : new_Set v = Normal s → set_ok s.
Proof.
  destruct v; simpl; intros [= <-]; try constructor; by apply set_add_all_ok, set_ok_nil.
Qed.

Lemma new_Set_array s : set_ok s → new_Set (JArr s) = Normal s.
Proof. intros Hs. simpl. by rewrite set_add_all_fixed. Qed.

(** ** Dictionaries *)

Lemma dict_eta (d : dict) : Dict (own d) (proto d) = d.
Proof. by destruct d. Qed.

Lemma not_proto_name k : k ≠ "__proto__" → String.eqb k "__proto__" = false.
Proof. by intros ?%String.eqb_neq. Qed.

Lemma dict_lookup_unfold (d : dict) k : d !! k = own d !! k.
Proof. done. Qed.

Lemma dict_dom_unfold (d : dict) : dom d = dom (own d).
Proof. done. Qed.

Ltac dict_simpl := rewrite ?dict_lookup_unfold, ?dict_dom_unfold in *; cbn [own proto] in *.

Lemma dict_get_own d k set : d !! k = Some set → dict_get d k = Normal (IsSet set).
Proof. unfold dict_get. dict_simpl. by intros ->. Qed.


Lemma dict_set_plain m k set :
  k ≠ "__proto__" → dict_set (Dict m None) k set = Normal (Dict (<[k := set]> m) None).
Proof.
  intros Hk%not_proto_name. unfold dict_set. cbn [own proto]. rewrite Hk.
  by destruct (m !! k).
Qed.

Lemma dict_set_proto m set :
  m !! "__proto__" = None →
  dict_set (Dict m None) "__proto__" set = Normal (Dict m (Some set)).
Proof. intros Hm. unfold dict_set. cbn [own proto]. by rewrite Hm. Qed.

Lemma sets_ok_plain m :
  m !! "__proto__" = None → (∀ k s, m !! k = Some s → set_ok s) → sets_ok (Dict m None).
Proof. intros H1 H2. split; [done|]. split; [done|]. by intros s. Qed.

Lemma stars_ok_eta m : stars_ok m → m = Dict (own m) None.
Proof. intros (Hp & _). destruct m as [o p]. cbn [proto] in Hp. by subst p. Qed.

Lemma stars_ok_sets_ok m : stars_ok m → sets_ok m.
Proof. intros (Hp & Hn & Hs). split; [done|]. split; [done|]. intros s. by rewrite Hp. Qed.


Lemma dict_empty_unfold : (∅ : dict) = Dict ∅ None.
Proof. done. Qed.

Lemma sets_ok_empty : sets_ok ∅.
Proof. rewrite dict_empty_unfold. by apply sets_ok_plain. Qed.

Lemma dict_set_ok d k set d' :
  sets_ok d → set_ok set → dict_set d k set = Normal d' → sets_ok d'.
Proof.
  intros (Hn & Hs & Hp) Hset. unfold dict_set. dict_simpl.
  assert (k ≠ "__proto__" → sets_ok (Dict (<[k := set]> (own d)) (proto d))) as Hins.
  { intros Hk. split; [|split; [|done]]; dict_simpl.
    - by rewrite lookup_insert_ne.
    - intros k' s'. dict_simpl. rewrite lookup_insert.
      destruct (decide (k = k')); [by intros [= <-]|apply Hs]. }
  destruct (own d !! k) as [old|] eqn:Hk.
  { intros [= <-]. apply Hins. intros ->. congruence. }
  destruct (String.eqb_spec k "__proto__") as [->|Hne].
  { intros [= <-]. split; [done|]. split; [done|]. cbn [proto]. by intros s [= <-]. }
  destruct (proto d); [destruct (String.eqb k "size"); [done|]|];
    intros [= <-]; by apply Hins.
Qed.

Lemma dict_delete_ok d k : sets_ok d → sets_ok (dict_delete d k).
Proof.
  intros (Hn & Hs & Hp). unfold dict_delete. split; [|split; [|done]]; dict_simpl.
  - rewrite lookup_delete. by destruct (decide (k = "__proto__")).
  - intros k' s'. dict_simpl. rewrite lookup_delete. destruct (decide (k = k')); [done|apply Hs].
Qed.

Lemma dict_get_ok d k set : sets_ok d → dict_get d k = Normal (IsSet set) → set_ok set.
Proof.
  intros (Hn & Hs & Hp). unfold dict_get, inherited. dict_simpl.
  destruct (own d !! k) as [s|] eqn:Hk; [intros [= <-]; by eapply Hs|].
  destruct (proto d) as [s|]; [|by destruct (bool_decide _)].
  destruct (String.eqb k "__proto__"); [intros [= <-]; by apply Hp|].
  destruct (String.eqb k "size"); [done|]. by destruct (bool_decide _).
Qed.

Lemma dict_ensure_ok d k d' : sets_ok d → dict_ensure d k = Normal d' → sets_ok d'.
Proof.
  intros Hd. unfold dict_ensure. destruct (dict_get d k) as [[s| |]|]; cbn [cbind];
    try (by intros [= <-]).
  apply dict_set_ok; [done|constructor].
Qed.

Lemma dict_update_ok d k f d' :
  sets_ok d → (∀ s, set_ok s → set_ok (f s)) → dict_update d k f = Normal d' → sets_ok d'.
Proof.
  intros (Hn & Hs & Hp) Hf. unfold dict_update, inherited. dict_simpl.
  destruct (own d !! k) as [s|] eqn:Hk.
  - intros [= <-]. assert (k ≠ "__proto__") as Hne by (intros ->; congruence).
    split; [|split; [|done]]; dict_simpl.
    + by rewrite lookup_insert_ne.
    + intros k' s'. dict_simpl. rewrite lookup_insert.
      destruct (decide (k = k')); [|apply Hs]. intros [= <-]. apply Hf. by eapply Hs.
  - destruct (proto d) as [s|] eqn:Hproto; [|by destruct (bool_decide _)].
    destruct (String.eqb k "__proto__").
    + cbn [cbind]. intros [= <-]. split; [done|]. split; [done|]. cbn [proto].
      intros s' [= <-]. by apply Hf, Hp.
    + destruct (String.eqb k "size"); [done|]. by destruct (bool_decide _).
Qed.

(** ** Reading back what was saved *)

Lemma props_get_NoDup k v props :
  NoDup props.*1 → (k, v) ∈ props → props_get k props = Some v.
Proof.
  induction props as [|[k' v'] props IH]; [by intros _ ?%elem_of_nil|].
  rewrite fmap_cons. intros [Hk' Hnd]%NoDup_cons [Heq|Hin]%elem_of_cons; cbn [props_get].
  - injection Heq as <- <-.
    destruct (props_get k props) as [w|] eqn:Hw.
    + exfalso. apply Hk'. clear -Hw. induction props as [|[k1 v1] props IH]; [done|].
      cbn [props_get] in Hw. rewrite fmap_cons. destruct (props_get k props).
      * right. by apply IH.
      * destruct (String.eqb_spec k k1) as [->|]; [by left|done].
    + by rewrite String.eqb_refl.
  - by rewrite (IH Hnd Hin).
Qed.

Lemma first_names_NoDup names : NoDup names → first_names names = names.
Proof.
  induction 1 as [|k names Hk Hnd IH]; [done|]. cbn [first_names]. rewrite IH. f_equal.
  clear -Hk. induction names as [|k' names IH]; [done|]. cbn [List.filter].
  apply not_elem_of_cons in Hk as [Hne Hk]. apply String.eqb_neq in Hne. rewrite Hne.
  cbn [negb]. by rewrite IH.
Qed.

Lemma own_props_NoDup props :
  NoDup props.*1 → own_props (JObj props) = Normal props.
Proof.
  intros Hnd. cbn [own_props]. f_equal.
  change (map fst props) with (props.*1). rewrite first_names_NoDup by done.
  assert (∀ l, l ⊆ props →
            map (fun k => (k, default JNull (props_get k props))) l.*1 = l) as H.
  { induction l as [|[k v] l IH]; intros Hl; [done|].
    rewrite fmap_cons. cbn [map]. rewrite IH by set_solver.
    rewrite (props_get_NoDup k v) by set_solver. done. }
  by apply H.
Qed.

Lemma sets_of_props_entries (l : list (string * list json)) (out : gmap string (list json)) :
  Forall (fun kv => fst kv ≠ "__proto__" ∧ set_ok (snd kv)) l →
  sets_of_props ((fun kv => (fst kv, JArr (snd kv))) <$> l) (Dict out None)
  = Normal (Dict (foldl (fun o kv => <[fst kv := snd kv]> o) out l) None).
Proof.
  intros H. revert out. induction H as [|[k s] l [Hk Hs] Hl IH]; intros out; [done|].
  rewrite fmap_cons. cbn [sets_of_props fst snd] in *. rewrite new_Set_array by done.
  cbn [cbind]. rewrite dict_set_plain by done. cbn [cbind]. by rewrite IH.
Qed.

Lemma foldl_insert_list_to_map {A} (l : list (string * A)) (out : gmap string A) :
  NoDup l.*1 →
  foldl (fun o kv => <[fst kv := snd kv]> o) out l = list_to_map l ∪ out.
Proof.
  revert out. induction l as [|[k v] l IH]; intros out.
  - intros _. simpl. by rewrite (left_id_L ∅ (∪)).
  - rewrite fmap_cons. intros [Hk Hnd]%NoDup_cons. cbn [foldl fst snd].
    rewrite IH by done. cbn [list_to_map foldr fst snd].
    rewrite <- insert_union_l. symmetry. apply insert_union_r.
    by apply not_elem_of_list_to_map_1.
Qed.

Lemma sets_of_saved (m : gmap string (list json)) :
  m !! "__proto__" = None → (∀ k s, m !! k = Some s → set_ok s) →
  sets_of (JObj ((fun kv => (fst kv, JArr (snd kv))) <$> map_to_list m))
  = Normal (Dict m None).
Proof.
  intros Hn Hok. unfold sets_of.
  assert (((fun kv : string * list json => (fst kv, JArr (snd kv))) <$> map_to_list m).*1
          = (map_to_list m).*1) as Hkeys.
  { rewrite <- list_fmap_compose. done. }
  rewrite own_props_NoDup by (rewrite Hkeys; apply NoDup_fst_map_to_list).
  cbn [cbind]. rewrite dict_empty_unfold, sets_of_props_entries.
  - rewrite foldl_insert_list_to_map by apply NoDup_fst_map_to_list.
    by rewrite list_to_map_to_list, (right_id_L ∅ (∪)).
  - apply Forall_forall. intros [k s] Hin%elem_of_map_to_list. cbn [fst snd]. split.
    + intros ->. congruence.
    + by eapply Hok.
Qed.

Lemma sets_of_props_ok props out m :
  sets_ok out → sets_of_props props out = Normal m → sets_ok m.
Proof.
  revert out. induction props as [|[k v] props IH]; intros out Hout; cbn [sets_of_props].
  - by intros [= <-].
  - destruct (new_Set v) as [s|e] eqn:Hs; [|done]. cbn [cbind].
    destruct (dict_set out k s) as [out'|e] eqn:Hset; [|done]. cbn [cbind].
    apply IH. eapply dict_set_ok; [done| |done]. by eapply new_Set_ok.
Qed.

Lemma sets_of_ok obj m : sets_of obj = Normal m → sets_ok m.
Proof.
  unfold sets_of. destruct (own_props obj) as [props|]; [|done]. cbn [cbind].
  apply sets_of_props_ok, sets_ok_empty.
Qed.

Section StoreProps.

Context `{codec : JSONCodec}.

Implicit Types st : gmap string string.

Lemma loadJSON_saveJSON key fallback val st :
  loadJSON key fallback (saveJSON key val st) = val.
Proof.
  unfold loadJSON, saveJSON. rewrite lookup_insert_eq.
  destruct (is_empty (JSON_stringify 0 val)) eqn:He.
  - apply is_empty_true in He. by apply stringify_nonempty in He.
  - by rewrite parse_stringify.
Qed.

Lemma loadJSON_saveJSON_ne key key' fallback val st :
  key ≠ key' → loadJSON key fallback (saveJSON key' val st) = loadJSON key fallback st.
Proof. intros Hne. unfold loadJSON, saveJSON. by rewrite lookup_insert_ne. Qed.

(** What each load sees after each save. *)
Lemma loadTopics_saveTopics list st : loadTopics (saveTopics list st) = list.
Proof. apply loadJSON_saveJSON. Qed.

Lemma loadTopics_saveReadLater set st : loadTopics (saveReadLater set st) = loadTopics st.
Proof. by apply loadJSON_saveJSON_ne. Qed.

Lemma loadTopics_saveStarsByTopic m st :
  loadTopics (saveStarsByTopic m st) = loadTopics st.
Proof. by apply loadJSON_saveJSON_ne. Qed.

Lemma loadReadLater_saveReadLater set st :
  set_ok set → loadReadLater (saveReadLater set st) = Normal set.
Proof.
  intros Hs. unfold loadReadLater, saveReadLater. rewrite loadJSON_saveJSON.
  by apply new_Set_array.
Qed.

Lemma loadReadLater_saveTopics list st :
  loadReadLater (saveTopics list st) = loadReadLater st.
Proof. unfold loadReadLater, saveTopics. by rewrite loadJSON_saveJSON_ne. Qed.

Lemma loadReadLater_saveStarsByTopic m st :
  loadReadLater (saveStarsByTopic m st) = loadReadLater st.
Proof. unfold loadReadLater, saveStarsByTopic. by rewrite loadJSON_saveJSON_ne. Qed.

Lemma loadStarsByTopic_saved m st :
  sets_ok m → loadStarsByTopic (saveStarsByTopic m st) = Normal (Dict (own m) None).
Proof.
  intros (Hn & Hs & _). unfold loadStarsByTopic, saveStarsByTopic. rewrite loadJSON_saveJSON.
  rewrite dict_lookup_unfold in Hn. rewrite delete_id by done. by apply sets_of_saved.
Qed.

Lemma loadStarsByTopic_saveStarsByTopic m st :
  stars_ok m → loadStarsByTopic (saveStarsByTopic m st) = Normal m.
Proof.
  intros Hm. rewrite loadStarsByTopic_saved by by apply stars_ok_sets_ok.
  by rewrite <- stars_ok_eta.
Qed.

Lemma loadStarsByTopic_saveTopics list st :
  loadStarsByTopic (saveTopics list st) = loadStarsByTopic st.
Proof. unfold loadStarsByTopic, saveTopics. by rewrite loadJSON_saveJSON_ne. Qed.

Lemma loadStarsByTopic_saveReadLater set st :
  loadStarsByTopic (saveReadLater set st) = loadStarsByTopic st.
Proof. unfold loadStarsByTopic, saveReadLater. by rewrite loadJSON_saveJSON_ne. Qed.

Lemma loadReadLater_ok st set : loadReadLater st = Normal set → set_ok set.
Proof. apply new_Set_ok. Qed.

Lemma loadStarsByTopic_ok st m : loadStarsByTopic st = Normal m → sets_ok m.
Proof. apply sets_of_ok. Qed.

Lemma loadJSON_unreadable key fallback st :
  unreadable key st → loadJSON key fallback st = fallback.
Proof.
  unfold loadJSON. intros [->|(s & -> & ->)]; [done|]. by destruct (is_empty s).
Qed.

(** C10 (as amended): when the stored value of a key is absent or is not
    valid JSON, the load of that key returns its fallback and does not
    throw: the empty set for read-later, the empty list for the topics,
    the empty map for the stars. *)
Theorem loads_fall_back st :
  (unreadable READ_LATER st → loadReadLater st = Normal []) ∧
  (unreadable TOPICS st → loadTopics st = JArr []) ∧
  (unreadable STARS_BY_TOPIC st → loadStarsByTopic st = Normal ∅).
Proof.
  split; [|split]; intros H.
  - unfold loadReadLater. by rewrite loadJSON_unreadable.
  - unfold loadTopics. by rewrite loadJSON_unreadable.
  - unfold loadStarsByTopic. by rewrite loadJSON_unreadable.
Qed.

End StoreProps.

(** The loads do throw on stored text that is valid JSON of another shape:
    an object is not iterable. *)
Lemma loads_never_throw_fails : ¬ loads_never_throw storage_object_read_later.
Proof. intros [[set H] _]. vm_compute in H. discriminate H. Qed.

Lemma loads_fall_back_witness :
  loadReadLater storage_garbage = Normal [] ∧
  loadTopics storage_garbage = JArr [] ∧
  loadStarsByTopic storage_garbage = Normal ∅.
Proof.
  destruct (loads_fall_back (codec := ref_codec) storage_garbage) as (Hrl & Ht & Hs).
  split; [|split].
  - apply Hrl. right. exists "{oops". split; reflexivity.
  - apply Ht. by left.
  - apply Hs. right. exists "[tru". split; reflexivity.
Defined.

(** ** Running handlers *)

Lemma existsb_is_str name l : existsb (is_str name) l = true ↔ JStr name ∈ l.
Proof.
  rewrite existsb_elem_of. split.
  - intros (v & Hv & Hs). destruct v; try done. simpl in Hs.
    by apply String.eqb_eq in Hs as ->.
  - intros H. exists (JStr name). split; [done|]. simpl. apply String.eqb_refl.
Qed.

Lemma existsb_is_str_false name l : existsb (is_str name) l = false ↔ JStr name ∉ l.
Proof. rewrite <- existsb_is_str. by destruct (existsb (is_str name) l). Qed.

Lemma is_empty_false s : is_empty s = false ↔ s ≠ EmptyString.
Proof. by destruct s. Qed.

Lemma is_str_true name t : is_str name t = true ↔ t = JStr name.
Proof.
  destruct t; simpl; try (split; [done|by intros [=]]).
  rewrite String.eqb_eq. split; [by intros ->|by intros [= ->]].
Qed.

Section Run.

Context `{codec : JSONCodec} `{html : HTMLParser} `{page : Page}.

Implicit Types st : gmap string string.

Lemma run_ret {A B} (a : A) (k : A → js B) st : (js_ret a ≫= k) st = k a st.
Proof. done. Qed.

Lemma run_read {A B} (f : gmap string string → A) (k : A → js B) st :
  (read f ≫= k) st = k (f st) st.
Proof. done. Qed.

Lemma run_write {B} (f : gmap string string → gmap string string) (k : unit → js B) st :
  (write f ≫= k) st = k tt (f st).
Proof. done. Qed.

Lemma run_lift {A B} (f : gmap string string → completion A) (k : A → js B) st a :
  f st = Normal a → (lift f ≫= k) st = k a st.
Proof. intros H. unfold mbind, js_mbind, js_bind, lift. by rewrite H. Qed.

Lemma run_lift_throw {A B} (f : gmap string string → completion A) (k : A → js B)
    st e :
  f st = Throw e → (lift f ≫= k) st = (Throw e, st).
Proof. intros H. unfold mbind, js_mbind, js_bind, lift. by rewrite H. Qed.

Lemma run_normal {A B} (a : A) (k : A → js B) st :
  (of_completion (Normal a) ≫= k) st = k a st.
Proof. done. Qed.

Lemma run_throw {A B} e (k : A → js B) st :
  (of_completion (Throw e) ≫= k) st = (Throw e, st).
Proof. done. Qed.

Lemma run_assoc {A B C} (m : js A) (f : A → js B) (g : B → js C) st :
  ((m ≫= f) ≫= g) st = (m ≫= fun x => f x ≫= g) st.
Proof.
  unfold mbind, js_mbind, js_bind. by destruct (m st) as [[x|e] st'].
Qed.

Lemma try_catch_state {A} (m : js A) (a : A) st :
  snd (try_catch m (js_ret a) st) = snd (m st).
Proof. unfold try_catch, js_ret. by destruct (m st) as [[x|e] st']. Qed.

Lemma try_catch_normal {A} (m h : js A) st a st' :
  m st = (Normal a, st') → try_catch m h st = (Normal a, st').
Proof. intros H. unfold try_catch. by rewrite H. Qed.

(** The filters and the rendering leave the storage as it is; a handler
    that ends with them ends as they end. *)
Lemma applyFilters_run (b : outcome) st :
  (applyFilters ≫= fun _ => js_ret b) st
  = (cbind (page_view els ALL st) (fun _ => Normal b), st).
Proof.
  unfold applyFilters, mbind, js_mbind, js_bind, lift, js_ret.
  by destruct (page_view els ALL st).
Qed.

Lemma applyFilters_done st :
  (applyFilters ≫= fun _ => js_ret Done) st = (rendered st, st).
Proof. apply applyFilters_run. Qed.

Lemma applyFilters_state (b : outcome) st :
  snd ((applyFilters ≫= fun _ => js_ret b) st) = st.
Proof. by rewrite applyFilters_run. Qed.

Lemma refresh_run (b : outcome) st l :
  loadTopics st = JArr l →
  (refreshTopicFilterSelect ≫= fun _ => applyFilters ≫= fun _ => js_ret b) st
  = (cbind (page_view els ALL st) (fun _ => Normal b), st).
Proof.
  intros Ht. unfold refreshTopicFilterSelect. rewrite run_assoc, run_read, Ht, run_ret.
  apply applyFilters_run.
Qed.

Lemma refresh_done st l :
  loadTopics st = JArr l →
  (refreshTopicFilterSelect ≫= fun _ => applyFilters ≫= fun _ => js_ret Done) st
  = (rendered st, st).
Proof. apply refresh_run. Qed.

Lemma refresh_state (b : outcome) st :
  snd ((refreshTopicFilterSelect ≫= fun _ => applyFilters ≫= fun _ => js_ret b) st) = st.
Proof.
  unfold refreshTopicFilterSelect. rewrite run_assoc, run_read.
  destruct (loadTopics st); try done. rewrite run_ret. apply applyFilters_state.
Qed.

(** What a handler has stored when it ends with a save of the star map
    that depends on a step that can throw. *)
Lemma save_stars_state (c : completion dict) st :
  snd ((of_completion c ≫= fun sbt =>
        write (saveStarsByTopic sbt) ≫= fun _ =>
        refreshTopicFilterSelect ≫= fun _ => applyFilters ≫= fun _ => js_ret Done) st)
  = match c with
    | Normal sbt => saveStarsByTopic sbt st
    | Throw _ => st
    end.
Proof. destruct c as [sbt|e]; [|done]. by rewrite run_normal, run_write, refresh_state. Qed.

Lemma save_stars_state' (c : completion dict) st :
  snd ((of_completion c ≫= fun sbt =>
        write (saveStarsByTopic sbt) ≫= fun _ => applyFilters ≫= fun _ => js_ret Done) st)
  = match c with
    | Normal sbt => saveStarsByTopic sbt st
    | Throw _ => st
    end.
Proof. destruct c as [sbt|e]; [|done]. by rewrite run_normal, run_write, applyFilters_state. Qed.

End Run.

Section Rename.

Context `{codec : JSONCodec} `{html : HTMLParser} `{page : Page}.

Implicit Types st : gmap string string.

(** *** Renaming a topic *)

Lemma with_topics_run msg (k : list json → js outcome) st l :
  loadTopics st = JArr l → l ≠ [] → with_topics msg k st = k l st.
Proof.
  intros Ht Hl. unfold with_topics. rewrite run_read, Ht. by destruct l.
Qed.

(** A rename that passes the checks of the handler writes the topic list
    and then moves the star set. *)
Lemma renameTopic_state st topics m oldName newName :
  loadTopics st = JArr topics → loadStarsByTopic st = Normal m →
  JStr oldName ∈ topics → oldName ≠ EmptyString → newName ≠ EmptyString →
  (JStr newName ∈ topics → newName = oldName) →
  snd (renameTopic (Some oldName) (Some newName) st)
  = match move_set m oldName newName with
    | Normal m' =>
        saveStarsByTopic m' (saveTopics (JArr (renamed oldName newName topics)) st)
    | Throw _ => saveTopics (JArr (renamed oldName newName topics)) st
    end.
Proof.
  intros Ht Hs Hold Ho Hn Hnew.
  unfold renameTopic. rewrite (with_topics_run _ _ _ topics) by (done || by intros ->; apply elem_of_nil in Hold).
  apply is_empty_false in Ho, Hn. rewrite Ho, Hn.
  pose proof Hold as Hold'. apply existsb_is_str in Hold'. rewrite Hold'.
  assert (existsb (is_str newName) topics && negb (String.eqb newName oldName) = false)
    as ->.
  { destruct (existsb (is_str newName) topics) eqn:Hex; [|done].
    apply existsb_is_str in Hex. rewrite (Hnew Hex). by rewrite String.eqb_refl. }
  cbn [orb negb]. cbv zeta. rewrite run_write.
  rewrite (run_lift _ _ _ m) by (unfold loadStarsByTopic, saveTopics;
                                 by rewrite loadJSON_saveJSON_ne).
  apply save_stars_state.
Qed.



End Rename.

(** *** Sample stores *)

Definition storage_vision : gmap string string :=
  saveStarsByTopic stars_vision (saveTopics (JArr topics_vision) ∅).

Definition storage_p1 : gmap string string := saveReadLater [JStr "p1"] ∅.

Ltac not_among :=
  let H := fresh in
  intros H%list_elem_of_In; cbn in H;
  repeat (destruct H as [H|H]; [discriminate H|]); exact H.

Lemma storage_vision_topics : loadTopics storage_vision = JArr topics_vision.
Proof. vm_compute. reflexivity. Qed.

Lemma storage_vision_read_later : loadReadLater storage_vision = Normal [].
Proof. vm_compute. reflexivity. Qed.

Lemma storage_vision_stars : loadStarsByTopic storage_vision = Normal stars_vision.
Proof. vm_compute. reflexivity. Qed.

Lemma storage_p1_topics : loadTopics storage_p1 = JArr [].
Proof. vm_compute. reflexivity. Qed.

Lemma storage_p1_read_later : loadReadLater storage_p1 = Normal [JStr "p1"].
Proof. vm_compute. reflexivity. Qed.

Lemma storage_p1_stars : loadStarsByTopic storage_p1 = Normal ∅.
Proof. vm_compute. reflexivity. Qed.

Lemma parse_p2 : JSON_parse ("[" +:+ quoted "p2" +:+ "]") = Some (JArr [JStr "p2"]).
Proof. vm_compute. reflexivity. Qed.

Lemma set_ok_p1 : set_ok [JStr "p1"].
Proof. apply (set_ok_snoc []); [constructor|done]. Qed.

Lemma stars_vision_ok : stars_ok stars_vision.
Proof.
  split; [done|]. split; [done|]. unfold stars_vision. intros k s. dict_simpl.
  intros [_ <-]%lookup_singleton_Some.
  apply (set_ok_snoc [JStr "p1"]); [|done]. apply set_ok_p1.
Qed.

Lemma topics_vision_NoDup : NoDup topics_vision.
Proof. repeat (apply NoDup_cons; split; [not_among|]). apply NoDup_nil_2. Qed.



Section Transfer.

Context `{codec : JSONCodec} `{html : HTMLParser} `{page : Page}.

Implicit Types st : gmap string string.

(** Renaming a topic to its own name passes the handler's checks and
    drops the topic's star set. *)
Lemma renameTopic_same_name st topics m name set :
  loadTopics st = JArr topics → loadStarsByTopic st = Normal m →
  JStr name ∈ topics → name ≠ EmptyString → m !! name = Some set →
  loadStarsByTopic (snd (renameTopic (Some name) (Some name) st))
  = Normal (Dict (delete name (own m)) None).
Proof.
  intros Ht Hs Hin Hn Hset. pose proof (loadStarsByTopic_ok _ _ Hs) as Hok.
  rewrite (renameTopic_state st topics m) by done.
  unfold move_set. rewrite (dict_get_own _ _ set) by done. cbn [cbind].
  unfold dict_set. dict_simpl. rewrite Hset. cbn [cbind]. unfold dict_delete. cbn [own proto].
  rewrite delete_insert_eq.
  rewrite loadStarsByTopic_saved; [done|]. by apply (dict_delete_ok m name).
Qed.

(** C4: the file that [exportReadLater] writes, imported as a bare array
    with destination read_later into an empty store, stores the same
    read-later set (same identities, same order). *)
Theorem export_import_roundtrip st set :
  loadReadLater st = Normal set →
  ∃ file,
    exportReadLater st = Normal file ∧
    loadReadLater (snd (importJSONFile file (Some "read_later") ∅)) = Normal set.
Proof.
  intros Hset. exists (JSON_stringify 2 (JArr set)). split.
  { unfold exportReadLater. by rewrite Hset. }
  unfold importJSONFile. cbv zeta. rewrite try_catch_state, parse_stringify.
  change (is_empty "read_later") with false.
  change (String.eqb "read_later" "read_later") with true. cbv iota.
  pose proof (loadReadLater_ok _ _ Hset) as Hok.
  rewrite run_assoc, (run_lift _ _ _ []) by done. rewrite run_write.
  rewrite set_add_all_fixed by done.
  rewrite refresh_state. by apply loadReadLater_saveReadLater.
Qed.

(** *** Importing a full payload *)

Lemma payload_fields_object parsed x :
  payload_fields parsed = Some x → ∃ props, parsed = JObj props.
Proof. destruct parsed; try done. by eexists. Qed.

Lemma importJSONFile_payload_state text kind st parsed readLater starsByTopic topics
    set m :
  JSON_parse text = Some parsed →
  payload_fields parsed = Some (readLater, starsByTopic, topics) →
  new_Set readLater = Normal set → sets_of starsByTopic = Normal m →
  snd (importJSONFile text kind st)
  = saveStarsByTopic m (saveTopics topics (saveReadLater set st)).
Proof.
  intros Hp Hf Hset Hm. destruct (payload_fields_object _ _ Hf) as [props ->].
  unfold importJSONFile. cbv zeta. rewrite try_catch_state, Hp.
  unfold payload_fields in Hf.
  destruct (get_prop (JObj props) "readLater") as [rv|]; [|done].
  destruct (get_prop (JObj props) "starsByTopic") as [sv|]; [|done].
  destruct (get_prop (JObj props) "topics") as [tv|]; [|by destruct kind].
  destruct (truthy rv && truthy sv && truthy tv); [|done].
  injection Hf as -> -> ->.
  rewrite Hset, run_normal, run_write, run_write, Hm, run_normal, run_write.
  apply refresh_state.
Qed.

(** The star map that is built from an object has a set for every name
    of the object that is not [__proto__]. *)
Lemma dict_set_lookup out k s out' k' :
  dict_set out k s = Normal out' →
  out' !! k' = if decide (k = k' ∧ (k ≠ "__proto__" ∨ is_Some (out !! k)))
               then Some s else out !! k'.
Proof.
  unfold dict_set. dict_simpl. intros Hset.
  destruct (own out !! k) as [old|] eqn:Hown.
  { injection Hset as <-. dict_simpl. rewrite lookup_insert.
    destruct (decide (k = k')) as [->|Hne].
    - rewrite decide_True; [done|]. split; [done|]. right. by eexists.
    - rewrite decide_False; [done|]. by intros [? _]. }
  destruct (String.eqb_spec k "__proto__") as [->|Hne].
  { injection Hset as <-. dict_simpl. rewrite decide_False; [done|].
    intros [_ [?|[? ?]]]; congruence. }
  assert (Dict (<[k := s]> (own out)) (proto out) = out') as <-.
  { destruct (proto out); [destruct (String.eqb k "size"); [done|]|]; by injection Hset. }
  dict_simpl. rewrite lookup_insert. destruct (decide (k = k')) as [->|Hne'].
  - rewrite decide_True; [done|]. split; [done|]. by left.
  - rewrite decide_False; [done|]. by intros [? _].
Qed.

Lemma sets_of_props_other props out m k :
  k ∉ props.*1 → sets_of_props props out = Normal m → m !! k = out !! k.
Proof.
  revert out. induction props as [|[k' v] props IH]; intros out Hk.
  { cbn [sets_of_props]. by intros [= <-]. }
  rewrite fmap_cons in Hk. apply not_elem_of_cons in Hk as [Hne Hk]. cbn [fst] in Hne.
  cbn [sets_of_props]. destruct (new_Set v) as [s|e]; [|done]. cbn [cbind].
  destruct (dict_set out k' s) as [out'|e] eqn:Hset; [|done]. cbn [cbind].
  intros Hm. rewrite (IH out' Hk Hm), (dict_set_lookup _ _ _ _ k Hset).
  rewrite decide_False; [done|]. intros [-> _]. done.
Qed.

Lemma sets_of_props_elem props out m k v :
  NoDup props.*1 → k ≠ "__proto__" → (k, v) ∈ props →
  sets_of_props props out = Normal m →
  ∃ s, new_Set v = Normal s ∧ m !! k = Some s.
Proof.
  intros Hnd Hk. revert out. induction props as [|[k' v'] props IH]; intros out Hin.
  { by apply elem_of_nil in Hin. }
  rewrite fmap_cons in Hnd. apply NoDup_cons in Hnd as [Hk' Hnd]. cbn [fst] in Hk'.
  cbn [sets_of_props]. destruct (new_Set v') as [s|e] eqn:Hs; [|done]. cbn [cbind].
  destruct (dict_set out k' s) as [out'|e] eqn:Hset; [|done]. cbn [cbind].
  intros Hm. apply elem_of_cons in Hin as [[= -> ->]|Hin].
  - exists s. split; [done|].
    rewrite (sets_of_props_other _ _ _ _ Hk' Hm), (dict_set_lookup _ _ _ _ k' Hset).
    rewrite decide_True; [done|]. split; [done|]. by left.
  - by apply (IH Hnd out').
Qed.

Lemma first_names_elem_of k names : k ∈ first_names names ↔ k ∈ names.
Proof.
  induction names as [|k' names IH]; [done|]. cbn [first_names].
  rewrite !elem_of_cons, <- IH, list_elem_of_In, filter_In, <- list_elem_of_In.
  destruct (String.eqb_spec k' k) as [->|Hne]; cbn [negb].
  - split; [intros [?|[? ?]]|]; by left.
  - split; [intros [->|[? _]]; [done|by right]|intros [->|?]; [done|by right]].
Qed.

Lemma first_names_ok names : NoDup (first_names names).
Proof.
  induction names as [|k names IH]; [constructor|]. cbn [first_names].
  apply NoDup_cons. split.
  - rewrite list_elem_of_In, filter_In, String.eqb_refl. by intros [_ ?].
  - apply NoDup_ListNoDup, List.NoDup_filter, NoDup_ListNoDup, IH.
Qed.

Lemma props_get_Some k v props : props_get k props = Some v → k ∈ props.*1.
Proof.
  revert v. induction props as [|[k' v'] props IH]; intros v; [done|].
  cbn [props_get]. rewrite fmap_cons.
  destruct (props_get k props) as [w|]; [intros _; right; by apply (IH w)|].
  destruct (String.eqb_spec k k') as [->|]; [by left|done].
Qed.

Lemma names_of_pairs {A} (f : string → A) names :
  (map (fun k => (k, f k)) names).*1 = names.
Proof. induction names as [|k names IH]; [done|]. cbn [map]. by rewrite fmap_cons, IH. Qed.

Lemma sets_of_object props m k v :
  k ≠ "__proto__" → props_get k props = Some v →
  sets_of (JObj props) = Normal m →
  ∃ s, new_Set v = Normal s ∧ m !! k = Some s.
Proof.
  intros Hk Hv. unfold sets_of. cbn [own_props cbind].
  apply sets_of_props_elem; [|done|].
  - rewrite names_of_pairs. apply first_names_ok.
  - apply list_elem_of_In, in_map_iff. exists k. rewrite Hv. split; [done|].
    apply list_elem_of_In, first_names_elem_of. by eapply props_get_Some.
Qed.

(** C2 (as amended): importing a full payload replaces the tag state:
    afterwards the store holds the payload's read-later identities (once
    each), the payload's topic list and a plain star map with the
    payload's star sets, whatever it held before; only a star set under
    the name [__proto__] is not stored. *)
Theorem import_payload_replaces text kind st parsed readLater starsByTopic topics
    set m :
  JSON_parse text = Some parsed →
  payload_fields parsed = Some (readLater, starsByTopic, topics) →
  new_Set readLater = Normal set → sets_of starsByTopic = Normal m →
  loadReadLater (snd (importJSONFile text kind st)) = Normal set ∧
  loadTopics (snd (importJSONFile text kind st)) = topics ∧
  loadStarsByTopic (snd (importJSONFile text kind st)) = Normal (Dict (own m) None) ∧
  m !! "__proto__" = None ∧
  ∀ k v, k ≠ "__proto__" → get_prop starsByTopic k = Some v →
    ∃ s, new_Set v = Normal s ∧ m !! k = Some s.
Proof.
  intros Hp Hf Hset Hm.
  rewrite (importJSONFile_payload_state text kind st parsed readLater starsByTopic
             topics set m) by done.
  pose proof (sets_of_ok _ _ Hm) as Hok.
  split; [|split; [|split; [|split]]].
  - unfold loadReadLater, saveStarsByTopic, saveTopics.
    rewrite !loadJSON_saveJSON_ne by done.
    apply loadReadLater_saveReadLater. by eapply new_Set_ok.
  - by rewrite loadTopics_saveStarsByTopic, loadTopics_saveTopics.
  - by apply loadStarsByTopic_saved.
  - apply Hok.
  - intros k v Hk Hv. destruct starsByTopic as [| | | |props]; try done.
    cbn [get_prop] in Hv. by eapply sets_of_object.
Qed.

End Transfer.

Lemma export_import_roundtrip_witness :
  ∃ file,
    exportReadLater storage_p1 = Normal file ∧
    loadReadLater (snd (importJSONFile (page := page_two) file (Some "read_later") ∅))
    = Normal [JStr "p1"].
Proof.
  apply (export_import_roundtrip (codec := ref_codec) (page := page_two) storage_p1).
  vm_compute. reflexivity.
Defined.

Lemma import_payload_replaces_witness :
  loadReadLater (snd (importJSONFile (page := page_two) (JSON_stringify 0 payload_proto)
                        None storage_p1))
  = Normal [JStr "p2"] ∧
  loadTopics (snd (importJSONFile (page := page_two) (JSON_stringify 0 payload_proto)
                     None storage_p1))
  = JArr [JStr "nlp"] ∧
  loadStarsByTopic (snd (importJSONFile (page := page_two) (JSON_stringify 0 payload_proto)
                           None storage_p1))
  = Normal (Dict {[ "nlp" := [JStr "p3"] ]} None).
Proof.
  destruct (import_payload_replaces (codec := ref_codec) (page := page_two)
              (JSON_stringify 0 payload_proto) None storage_p1 payload_proto
              (JArr [JStr "p2"])
              (JObj [("nlp", JArr [JStr "p3"]); ("__proto__", JArr [JStr "p4"])])
              (JArr [JStr "nlp"]) [JStr "p2"]
              (Dict {[ "nlp" := [JStr "p3"] ]} (Some [JStr "p4"])))
    as (Hrl & Ht & Hs & _).
  - apply parse_stringify.
  - vm_compute. reflexivity.
  - vm_compute. reflexivity.
  - vm_compute. reflexivity.
  - exact (conj Hrl (conj Ht Hs)).
Defined.

(** The import is not additive: the identity stored before is gone. *)
Lemma import_keeps_read_later_fails :
  ¬ import_keeps_read_later (page := page_two) (JSON_stringify 0 payload_p2) None storage_p1.
Proof.
  intros H.
  assert (loadReadLater
            (snd (importJSONFile (page := page_two) (JSON_stringify 0 payload_p2) None
                    storage_p1))
          = Normal [JStr "p2"]) as Hafter by (vm_compute; reflexivity).
  assert (loadReadLater storage_p1 = Normal [JStr "p1"]) as Hbefore
    by (vm_compute; reflexivity).
  specialize (H [JStr "p1"] [JStr "p2"] Hbefore Hafter (JStr "p1")).
  assert (JStr "p1" ∈ [JStr "p2"]) as Hin by (apply H; by left).
  apply list_elem_of_singleton in Hin. discriminate Hin.
Qed.

(** ** The topics of the star map stay within the topic list *)

(** The own properties of a dictionary after an assignment, an update or
    a move. *)
Lemma elem_of_dict_dom (d : dict) k : k ∈ dom d ↔ is_Some (d !! k).
Proof. dict_simpl. apply elem_of_dom. Qed.

Lemma dict_set_dom d k s d' k' :
  dict_set d k s = Normal d' → k' ∈ dom d' → k' = k ∨ k' ∈ dom d.
Proof.
  intros Hset. rewrite !elem_of_dict_dom, (dict_set_lookup _ _ _ _ k' Hset).
  destruct (decide _) as [[-> _]|_]; [by left|by right].
Qed.

Lemma dict_ensure_dom d k d' k' :
  dict_ensure d k = Normal d' → k' ∈ dom d' → k' = k ∨ k' ∈ dom d.
Proof.
  unfold dict_ensure. destruct (dict_get d k) as [[s| |]|]; cbn [cbind]; try done;
    try (intros [= <-]; by right).
  apply dict_set_dom.
Qed.

Lemma dict_update_dom d k f d' k' :
  dict_update d k f = Normal d' → k' ∈ dom d' → k' ∈ dom d.
Proof.
  unfold dict_update. rewrite !elem_of_dict_dom. dict_simpl.
  destruct (own d !! k) as [s|] eqn:Hk.
  - intros [= <-]. dict_simpl. rewrite lookup_insert.
    destruct (decide (k = k')) as [<-|]; [by rewrite Hk|done].
  - destruct (inherited d k) as [[s| |]|]; cbn [cbind]; try done.
    by intros [= <-].
Qed.

Lemma for_of_update_dom k (f : list json → json → list json) ids d d' k' :
  for_of (fun sbt id => dict_update sbt k (fun set => f set id)) d ids = Normal d' →
  k' ∈ dom d' → k' ∈ dom d.
Proof.
  revert d. induction ids as [|id ids IH]; intros d; cbn [for_of].
  - by intros [= <-].
  - destruct (dict_update d k _) as [d1|] eqn:Hd1; [|done]. cbn [cbind].
    intros Hd' Hk'. eapply dict_update_dom; [done|]. by eapply IH.
Qed.

Lemma for_of_update_ok k ids d d' :
  sets_ok d →
  for_of (fun sbt id => dict_update sbt k (fun set => set_add set id)) d ids = Normal d' →
  sets_ok d'.
Proof.
  revert d. induction ids as [|id ids IH]; intros d Hd; cbn [for_of].
  - by intros [= <-].
  - destruct (dict_update d k _) as [d1|] eqn:Hd1; [|done]. cbn [cbind].
    apply IH. eapply dict_update_ok; [done| |done]. intros s. apply set_add_ok.
Qed.

Lemma move_set_dom d oldName newName d' k :
  move_set d oldName newName = Normal d' →
  k ∈ dom d' → k ≠ oldName ∧ (k = newName ∨ k ∈ dom d).
Proof.
  unfold move_set. destruct (dict_get d oldName) as [found|] eqn:Hget; [|done].
  cbn [cbind].
  destruct (match found with
            | IsSet set => dict_set d newName set
            | NotSet => _
            | Undefined => dict_set d newName []
            end) as [d1|] eqn:Hd1; [|done].
  cbn [cbind]. intros [= <-]. rewrite elem_of_dict_dom. unfold dict_delete. dict_simpl.
  rewrite lookup_delete. destruct (decide (oldName = k)) as [->|Hne]; [by intros [? ?]|].
  intros Hk. split; [done|].
  assert (k ∈ dom d1) as Hk1 by by apply elem_of_dict_dom.
  destruct found as [s| |].
  - by eapply dict_set_dom.
  - destruct (_ || _); [|done]. injection Hd1 as <-. by right.
  - by eapply dict_set_dom.
Qed.

Lemma move_set_ok d oldName newName d' :
  sets_ok d → move_set d oldName newName = Normal d' → sets_ok d'.
Proof.
  intros Hd. unfold move_set. destruct (dict_get d oldName) as [found|] eqn:Hget; [|done].
  cbn [cbind].
  destruct (match found with
            | IsSet set => dict_set d newName set
            | NotSet => _
            | Undefined => dict_set d newName []
            end) as [d1|] eqn:Hd1; [|done].
  cbn [cbind]. intros [= <-]. apply dict_delete_ok.
  destruct found as [s| |].
  - eapply dict_set_ok; [done| |done]. by eapply dict_get_ok.
  - destruct (_ || _); [|done]. by injection Hd1 as <-.
  - eapply dict_set_ok; [done| |done]. constructor.
Qed.

(** What is found under the old name when the move cannot be saved. *)
Lemma move_set_not_own d oldName newName :
  (∀ d', move_set d oldName newName ≠ Normal d') → sets_ok d → proto d = None →
  d !! oldName = None.
Proof.
  intros Hthrow Hd Hp. destruct (d !! oldName) as [s|] eqn:Hs; [|done]. exfalso.
  unfold move_set in Hthrow. rewrite (dict_get_own _ _ s) in Hthrow by done.
  cbn [cbind] in Hthrow. unfold dict_set in Hthrow. rewrite Hp in Hthrow.
  destruct (own d !! newName); [by eapply Hthrow|].
  destruct (String.eqb newName "__proto__"); by eapply Hthrow.
Qed.

Section Invariant.

Context `{codec : JSONCodec} `{html : HTMLParser} `{page : Page}.

Implicit Types st : gmap string string.

Lemma run_cbind {A B C} (c : completion A) (f : A → completion B) (k : B → js C) st :
  (of_completion c ≫= fun a => of_completion (f a) ≫= k) st
  = (of_completion (cbind c f) ≫= k) st.
Proof. by destruct c. Qed.

Lemma plainly_within st : stars_plainly_within_topics st → stars_within_topics st.
Proof. intros (l & m & Ht & Hs & Hsub). by exists l, (Dict m None). Qed.

Lemma cover_saved st l' m' :
  sets_ok m' → (∀ k, k ∈ dom m' → JStr k ∈ l') →
  stars_plainly_within_topics (saveStarsByTopic m' (saveTopics (JArr l') st)).
Proof.
  intros Hok Hsub. exists l', (own m'). split; [|split; [|done]].
  - by rewrite loadTopics_saveStarsByTopic, loadTopics_saveTopics.
  - by apply loadStarsByTopic_saved.
Qed.

Lemma cover_stars st l m' :
  loadTopics st = JArr l → sets_ok m' → (∀ k, k ∈ dom m' → JStr k ∈ l) →
  stars_plainly_within_topics (saveStarsByTopic m' st).
Proof.
  intros Ht Hok Hsub. exists l, (own m'). split; [|split; [|done]].
  - by rewrite loadTopics_saveStarsByTopic.
  - by apply loadStarsByTopic_saved.
Qed.

Lemma cover_topics st l' m :
  loadStarsByTopic st = Normal (Dict m None) → (∀ k, k ∈ dom m → JStr k ∈ l') →
  stars_plainly_within_topics (saveTopics (JArr l') st).
Proof.
  intros Hs Hsub. exists l', m. split; [|split; [|done]].
  - apply loadTopics_saveTopics.
  - by rewrite loadStarsByTopic_saveTopics.
Qed.

Lemma cover_read_later st set :
  stars_plainly_within_topics st → stars_plainly_within_topics (saveReadLater set st).
Proof.
  intros (l & m & Ht & Hs & Hsub). exists l, m.
  by rewrite loadTopics_saveReadLater, loadStarsByTopic_saveReadLater.
Qed.

Lemma createTopic_cover name st :
  stars_plainly_within_topics st → stars_plainly_within_topics (snd (createTopic name st)).
Proof.
  intros (l & m & Ht & Hs & Hsub). pose proof (loadStarsByTopic_ok _ _ Hs) as Hok.
  assert (stars_plainly_within_topics st) as Hst by by exists l, m.
  unfold createTopic. destruct name as [name|]; [|done].
  destruct (is_empty name); [done|]. rewrite run_read, Ht.
  destruct (existsb (is_str name) l) eqn:Hex; [done|].
  rewrite run_write, (run_lift _ _ _ (Dict m None)) by by rewrite loadStarsByTopic_saveTopics.
  rewrite save_stars_state.
  destruct (dict_ensure (Dict m None) name) as [sbt|e] eqn:Hsbt.
  - apply cover_saved; [by eapply dict_ensure_ok|].
    intros k Hk. apply elem_of_app.
    destruct (dict_ensure_dom _ _ _ _ Hsbt Hk) as [->|Hk'].
    + right. by apply list_elem_of_singleton.
    + left. by apply Hsub.
  - apply (cover_topics _ _ m); [done|]. intros k Hk. apply elem_of_app. left. by apply Hsub.
Qed.

Lemma renamed_keeps oldName newName l k :
  JStr k ∈ l → k ≠ oldName → JStr k ∈ renamed oldName newName l.
Proof.
  intros Hin Hne. unfold renamed. apply list_elem_of_In, in_map_iff.
  exists (JStr k). split; [|by apply list_elem_of_In]. simpl.
  destruct (String.eqb_spec oldName k); congruence.
Qed.

Lemma renamed_new oldName newName l :
  JStr oldName ∈ l → JStr newName ∈ renamed oldName newName l.
Proof.
  intros Hin. unfold renamed. apply list_elem_of_In, in_map_iff.
  exists (JStr oldName). split; [|by apply list_elem_of_In]. simpl.
  by rewrite String.eqb_refl.
Qed.

Lemma renameTopic_cover oldName newName st :
  stars_plainly_within_topics st →
  stars_plainly_within_topics (snd (renameTopic oldName newName st)).
Proof.
  intros (l & m & Ht & Hs & Hsub). pose proof (loadStarsByTopic_ok _ _ Hs) as Hok.
  assert (stars_plainly_within_topics st) as Hst by by exists l, m.
  destruct oldName as [oldName|], newName as [newName|];
    try (unfold renameTopic, with_topics; rewrite run_read, Ht;
         destruct l as [|t0 l0]; [done|]; try done;
         by destruct (is_empty oldName || negb (existsb (is_str oldName) (t0 :: l0)))).
  destruct (is_empty oldName || negb (existsb (is_str oldName) l)) eqn:Hold.
  { unfold renameTopic, with_topics. rewrite run_read, Ht.
    destruct l as [|t0 l0]; [done|]. by rewrite Hold. }
  apply orb_false_iff in Hold as [Ho%is_empty_false Hold].
  apply negb_false_iff, existsb_is_str in Hold.
  destruct (is_empty newName) eqn:Hn.
  { unfold renameTopic, with_topics. rewrite run_read, Ht.
    destruct l as [|t0 l0]; [done|]. apply existsb_is_str in Hold.
    apply is_empty_false in Ho. by rewrite Ho, Hold, Hn. }
  apply is_empty_false in Hn.
  destruct (existsb (is_str newName) l && negb (String.eqb newName oldName)) eqn:Hnew.
  { unfold renameTopic, with_topics. rewrite run_read, Ht.
    destruct l as [|t0 l0]; [done|]. apply existsb_is_str in Hold.
    apply is_empty_false in Ho, Hn. by rewrite Ho, Hold, Hn, Hnew. }
  rewrite (renameTopic_state st l (Dict m None)); [|done..|].
  2:{ intros Hin%existsb_is_str. rewrite Hin in Hnew.
      by apply negb_false_iff, String.eqb_eq in Hnew. }
  destruct (move_set (Dict m None) oldName newName) as [m'|e] eqn:Hm'.
  - apply cover_saved; [by eapply move_set_ok|].
    intros k Hk. destruct (move_set_dom _ _ _ _ _ Hm' Hk) as [Hne [->|Hk']].
    + by apply renamed_new.
    + apply renamed_keeps; [by apply Hsub|done].
  - apply (cover_topics _ _ m); [done|]. intros k Hk. apply renamed_keeps; [by apply Hsub|].
    intros ->. apply elem_of_dom in Hk as [s Hs'].
    assert (Dict m None !! oldName = None) as Hnone.
    { apply (move_set_not_own _ _ newName); [|done..]. intros d'. by rewrite Hm'. }
    dict_simpl. congruence.
Qed.

Lemma deleteTopic_cover name confirmed st :
  stars_plainly_within_topics st →
  stars_plainly_within_topics (snd (deleteTopic name confirmed st)).
Proof.
  intros (l & m & Ht & Hs & Hsub). pose proof (loadStarsByTopic_ok _ _ Hs) as Hok.
  assert (stars_plainly_within_topics st) as Hst by by exists l, m.
  unfold deleteTopic, with_topics. rewrite run_read, Ht.
  destruct l as [|t0 l0] eqn:Hl; [done|]. rewrite <- Hl in *. clear Hl.
  destruct name as [name|]; [|done].
  destruct (is_empty name || negb (existsb (is_str name) l)); [done|].
  destruct confirmed; [|done]. cbn [negb].
  rewrite run_write, (run_lift _ _ _ (Dict m None)) by by rewrite loadStarsByTopic_saveTopics.
  rewrite run_write, refresh_state.
  apply cover_saved; [by apply dict_delete_ok|].
  intros k Hk. apply elem_of_dict_dom in Hk. unfold dict_delete in Hk. dict_simpl.
  rewrite lookup_delete in Hk. destruct (decide (name = k)) as [->|Hne]; [by destruct Hk|].
  apply filter_elem_of. split; [by apply Hsub, elem_of_dom|]. simpl.
  destruct (String.eqb_spec name k); [congruence|done].
Qed.

Lemma toggleReadLater_cover id st :
  stars_plainly_within_topics st →
  stars_plainly_within_topics (snd (toggleReadLater id st)).
Proof.
  intros Hst. unfold toggleReadLater.
  destruct (loadReadLater st) as [set|e] eqn:Hrl.
  - rewrite (run_lift _ _ _ set) by done. cbv zeta.
    rewrite run_write, applyFilters_state. by apply cover_read_later.
  - by rewrite (run_lift_throw _ _ _ e).
Qed.

Lemma toggleStar_cover id st :
  stars_plainly_within_topics st → stars_plainly_within_topics (snd (toggleStar id st)).
Proof.
  intros (l & m & Ht & Hs & Hsub). pose proof (loadStarsByTopic_ok _ _ Hs) as (Hn & Hok & _).
  assert (stars_plainly_within_topics st) as Hst by by exists l, m.
  unfold toggleStar. rewrite (run_lift _ _ _ (Dict m None)) by done.
  destruct (negb (is_starred id (Dict m None))).
  - rewrite run_read, Ht. by destruct l.
  - rewrite (run_lift _ _ _ (Dict m None)) by done. cbv zeta.
    rewrite run_write, applyFilters_state.
    apply (cover_stars st l); [done|..].
    + apply sets_ok_plain; dict_simpl.
      * by rewrite lookup_fmap, Hn.
      * intros k s. rewrite lookup_fmap. destruct (m !! k) as [s0|] eqn:Hm; [|done].
        intros [= <-]. apply set_delete_ok. by eapply Hok.
    + intros k. dict_simpl. rewrite dom_fmap_L. apply Hsub.
Qed.

Lemma addToTopic_cover t id st :
  stars_plainly_within_topics st → (∃ l, loadTopics st = JArr l ∧ JStr t ∈ l) →
  stars_plainly_within_topics (snd (addToTopic t id st)).
Proof.
  intros (l & m & Ht & Hs & Hsub) (l' & Ht' & Hin).
  pose proof (loadStarsByTopic_ok _ _ Hs) as Hok.
  assert (stars_plainly_within_topics st) as Hst by by exists l, m.
  rewrite Ht in Ht'. injection Ht' as <-.
  unfold addToTopic. destruct (is_empty t); [done|].
  rewrite (run_lift _ _ _ (Dict m None)) by done. rewrite run_cbind, save_stars_state'.
  destruct (cbind _ _) as [sbt|e] eqn:Hsbt; [|done].
  destruct (dict_ensure (Dict m None) t) as [sbt1|] eqn:Hsbt1; [|done]. cbn [cbind] in Hsbt.
  apply (cover_stars st l); [done|..].
  - eapply dict_update_ok; [|apply (fun s => set_add_ok s (JStr id))|done].
    by eapply dict_ensure_ok.
  - intros k Hk. apply (dict_update_dom _ _ _ _ _ Hsbt) in Hk.
    destruct (dict_ensure_dom _ _ _ _ Hsbt1 Hk) as [->|Hk']; [done|by apply Hsub].
Qed.

Lemma removeFromTopic_cover topic id st :
  stars_plainly_within_topics st →
  stars_plainly_within_topics (snd (removeFromTopic topic id st)).
Proof.
  intros (l & m & Ht & Hs & Hsub). pose proof (loadStarsByTopic_ok _ _ Hs) as Hok.
  assert (stars_plainly_within_topics st) as Hst by by exists l, m.
  unfold removeFromTopic. rewrite (run_lift _ _ _ (Dict m None)) by done.
  rewrite save_stars_state'.
  destruct (dict_update _ _ _) as [sbt|e] eqn:Hsbt; [|done].
  apply (cover_stars st l); [done|..].
  - eapply dict_update_ok; [done| |done]. intros s Hs'. by apply set_delete_ok.
  - intros k Hk. apply (dict_update_dom _ _ _ _ _ Hsbt) in Hk. by apply Hsub.
Qed.

Lemma unrecognized_state st :
  snd (try_catch
         (refreshTopicFilterSelect ≫= fun _ => applyFilters ≫= fun _ =>
          js_ret (Alert "Unrecognized JSON format."))
         (js_ret (AlertTwice "Unrecognized JSON format." "Failed to parse JSON.")) st)
  = st.
Proof. by rewrite try_catch_state, refresh_state. Qed.

Lemma importJSONFile_cover text kind st :
  stars_plainly_within_topics st →
  (∀ parsed, JSON_parse text = Some parsed → payload_consistent parsed) →
  stars_plainly_within_topics (snd (importJSONFile text kind st)).
Proof.
  intros (l & m & Ht & Hs & Hsub) Hcons.
  pose proof (loadStarsByTopic_ok _ _ Hs) as Hok.
  assert (stars_plainly_within_topics st) as Hst by by exists l, m.
  unfold importJSONFile. cbv zeta. rewrite try_catch_state.
  destruct (JSON_parse text) as [parsed|] eqn:Hp; [|done].
  specialize (Hcons parsed eq_refl).
  destruct parsed as [|b|s|ids|props];
    try (cbn [get_prop]; by rewrite unrecognized_state).
  - (* a bare array of identities *)
    destruct kind as [kind|]; [|done]. destruct (is_empty kind); [done|].
    destruct (String.eqb kind "read_later").
    + rewrite run_assoc. destruct (loadReadLater st) as [set|e] eqn:Hrl.
      * rewrite (run_lift _ _ _ set) by done. rewrite run_write, refresh_state.
        by apply cover_read_later.
      * by rewrite (run_lift_throw _ _ _ e).
    + rewrite run_assoc, run_read, Ht.
      destruct (existsb (is_str kind) l) eqn:Hex.
      * rewrite run_assoc, run_ret, run_assoc, (run_lift _ _ _ (Dict m None)) by done.
        rewrite run_assoc.
        destruct (dict_ensure (Dict m None) kind) as [sbt1|] eqn:Hsbt1;
          [|by rewrite run_throw].
        rewrite run_normal, run_assoc.
        destruct (for_of _ sbt1 ids) as [sbt|] eqn:Hsbt; [|by rewrite run_throw].
        rewrite run_normal, run_write, refresh_state.
        apply (cover_stars st l); [done|..].
        -- eapply for_of_update_ok; [|done]. by eapply dict_ensure_ok.
        -- intros k Hk. apply (for_of_update_dom _ _ _ _ _ _ Hsbt) in Hk.
           destruct (dict_ensure_dom _ _ _ _ Hsbt1 Hk) as [->|Hk']; [|by apply Hsub].
           by apply existsb_is_str.
      * rewrite run_assoc, run_write, run_assoc.
        rewrite (run_lift _ _ _ (Dict m None)) by by rewrite loadStarsByTopic_saveTopics.
        assert (stars_plainly_within_topics (saveTopics (JArr (l ++ [JStr kind])) st))
          as Htopics.
        { apply (cover_topics _ _ m); [done|].
          intros k Hk. apply elem_of_app. left. by apply Hsub. }
        rewrite run_assoc.
        destruct (dict_ensure (Dict m None) kind) as [sbt1|] eqn:Hsbt1;
          [|by rewrite run_throw].
        rewrite run_normal, run_assoc.
        destruct (for_of _ sbt1 ids) as [sbt|] eqn:Hsbt; [|by rewrite run_throw].
        rewrite run_normal, run_write, refresh_state.
        apply cover_saved.
        -- eapply for_of_update_ok; [|done]. by eapply dict_ensure_ok.
        -- intros k Hk. apply (for_of_update_dom _ _ _ _ _ _ Hsbt) in Hk. apply elem_of_app.
           destruct (dict_ensure_dom _ _ _ _ Hsbt1 Hk) as [->|Hk'].
           ++ right. by apply list_elem_of_singleton.
           ++ left. by apply Hsub.
  - (* an object: a full payload, or not recognized *)
    unfold payload_consistent, payload_fields in Hcons.
    destruct (get_prop (JObj props) "readLater") as [rv|]; [|by rewrite unrecognized_state].
    destruct (get_prop (JObj props) "starsByTopic") as [sv|];
      [|by rewrite unrecognized_state].
    destruct (get_prop (JObj props) "topics") as [tv|]; [|by rewrite unrecognized_state].
    destruct (truthy rv && truthy sv && truthy tv); [|by rewrite unrecognized_state].
    destruct (Hcons rv sv tv eq_refl) as (l' & m' & -> & Hm' & Hsub').
    destruct (new_Set rv) as [set|e] eqn:Hset; [|done].
    rewrite run_normal, run_write, run_write, Hm', run_normal, run_write, refresh_state.
    apply cover_saved; [by eapply sets_of_ok|done].
Qed.

Lemma handle_cover e st :
  stars_plainly_within_topics st → enabled e st →
  stars_plainly_within_topics (after e st).
Proof.
  intros Hst He. unfold after. destruct e; cbn [handle].
  - by apply createTopic_cover.
  - by apply renameTopic_cover.
  - by apply deleteTopic_cover.
  - by apply toggleReadLater_cover.
  - by apply toggleStar_cover.
  - by apply addToTopic_cover.
  - by apply removeFromTopic_cover.
  - by apply importJSONFile_cover.
Qed.

End Invariant.

Section Reach.

Context `{codec : JSONCodec} `{html : HTMLParser}.

Lemma reachable_plainly st : reachable st → stars_plainly_within_topics st.
Proof.
  induction 1 as [|st e page Hr IH He].
  - exists [], ∅. by repeat split.
  - by apply handle_cover.
Qed.

(** C8 (as amended): from the empty store, after every operation (topic
    create, rename, delete, star add and remove, read-later toggle,
    import), every topic with a star set is in the topic list, provided
    that each imported full payload is itself consistent and that the
    topic select of a card hands its handler a topic of the list. *)
Theorem stars_within_topics_invariant st :
  reachable st → stars_within_topics st.
Proof. intros H. by apply plainly_within, reachable_plainly. Qed.

End Reach.

(** Neither proviso can be dropped.  A full-payload import writes the
    payload as it is.  And the options of a topic select are written as
    HTML: a topic whose name holds a double quote gives an option whose
    value is the part of the name before the quote, which the handler of
    the select then gives a star set. *)
Lemma stars_within_topics_fails :
  ¬ stars_within_topics
      (after (page := page_two) (ImportFile (JSON_stringify 0 payload_stray) None) ∅) ∧
  ¬ stars_within_topics
      (after (page := page_two) (AddToTopic "a" "p1")
         (after (page := page_two) (CreateTopic (Some ("a" +:+ dquote +:+ "b"))) ∅)).
Proof.
  split; intros (l & m & Ht & Hs & Hsub).
  - assert (loadTopics (after (page := page_two)
                          (ImportFile (JSON_stringify 0 payload_stray) None) ∅)
            = JArr [JStr "nlp"]) as Ht' by (vm_compute; reflexivity).
    assert (loadStarsByTopic
              (after (page := page_two) (ImportFile (JSON_stringify 0 payload_stray) None) ∅)
            = Normal (Dict {[ "vision" := [JStr "p1"] ]} None)) as Hs'
      by (vm_compute; reflexivity).
    rewrite Ht' in Ht. rewrite Hs' in Hs. injection Ht as <-. injection Hs as <-.
    assert (JStr "vision" ∈ [JStr "nlp"]) as Hin.
    { apply Hsub. rewrite dict_dom_unfold. cbn [own]. rewrite dom_singleton_L.
      by apply elem_of_singleton. }
    apply list_elem_of_singleton in Hin. discriminate Hin.
  - assert (loadTopics
              (after (page := page_two) (AddToTopic "a" "p1")
                 (after (page := page_two) (CreateTopic (Some ("a" +:+ dquote +:+ "b"))) ∅))
            = JArr [JStr ("a" +:+ dquote +:+ "b")]) as Ht' by (vm_compute; reflexivity).
    assert (loadStarsByTopic
              (after (page := page_two) (AddToTopic "a" "p1")
                 (after (page := page_two) (CreateTopic (Some ("a" +:+ dquote +:+ "b"))) ∅))
            = Normal (Dict {[ "a" := [JStr "p1"]; "a" +:+ dquote +:+ "b" := [] ]} None))
      as Hs' by (vm_compute; reflexivity).
    rewrite Ht' in Ht. rewrite Hs' in Hs. injection Ht as <-. injection Hs as <-.
    assert (JStr "a" ∈ [JStr ("a" +:+ dquote +:+ "b")]) as Hin.
    { apply Hsub. rewrite dict_dom_unfold. cbn [own]. rewrite dom_insert_L.
      apply elem_of_union. left. by apply elem_of_singleton. }
    apply list_elem_of_singleton in Hin. discriminate Hin.
Qed.

Definition storage_session : gmap string string :=
  foldl (fun st e => after (page := page_two) e st) ∅ session.

Lemma stars_within_topics_invariant_witness :
  stars_within_topics storage_session.
Proof.
  apply (stars_within_topics_invariant (codec := ref_codec)).
  unfold storage_session, session. cbn [foldl].
  repeat (apply reachable_step); try exact I; try apply reachable_init.
  - exists [JStr "vision"]. split; [vm_compute; reflexivity|]. by left.
  - intros parsed Hp. vm_compute in Hp. injection Hp as <-.
    intros rv sv tv Hf. discriminate Hf.
Defined.

(** * Further properties of the page *)

(** ** Sets of identities *)

Lemma sameValueZero_eq x y : sameValueZero x y = true → x = y.
Proof.
  destruct x, y; simpl; try done.
  - destruct b, b0; by simpl.
  - by intros ->%String.eqb_eq.
Qed.

Lemma sameValueZero_str id z : sameValueZero (JStr id) z = true ↔ z = JStr id.
Proof.
  split; [by intros <-%sameValueZero_eq|]. intros ->. simpl. apply String.eqb_refl.
Qed.

Lemma set_has_congr s x y : sameValueZero x y = true → set_has s x = set_has s y.
Proof. by intros ->%sameValueZero_eq. Qed.

Lemma set_has_add s y x :
  set_has (set_add s y) x = set_has s x || sameValueZero x y.
Proof.
  unfold set_add. destruct (set_has s y) eqn:Hy.
  - destruct (sameValueZero x y) eqn:Hxy; [|by rewrite orb_false_r].
    by rewrite (set_has_congr s x y), Hy.
  - rewrite set_has_app. unfold set_has at 2. simpl. by rewrite orb_false_r.
Qed.

Lemma set_has_add_all s ys x :
  set_has (set_add_all s ys) x = set_has s x || set_has ys x.
Proof.
  unfold set_add_all. revert s. induction ys as [|y ys IH]; intros s; simpl.
  - by rewrite orb_false_r.
  - rewrite IH, set_has_add. unfold set_has at 4. simpl.
    by rewrite orb_assoc.
Qed.

Lemma set_add_all_extends s ys :
  ∃ added, set_add_all s ys = s ++ added ∧ ∀ x, x ∈ added → x ∈ ys.
Proof.
  unfold set_add_all. revert s. induction ys as [|y ys IH]; intros s; simpl.
  - exists []. split; [by rewrite app_nil_r|]. by intros x ?%elem_of_nil.
  - destruct (IH (set_add s y)) as (added & -> & Hsub). unfold set_add.
    destruct (set_has s y).
    + exists added. split; [done|]. intros x Hx. right. by apply Hsub.
    + exists (y :: added). split; [by rewrite <- app_assoc|].
      intros x [->|Hx]%elem_of_cons; [by left|]. right. by apply Hsub.
Qed.

Lemma set_has_delete_str s id x :
  set_has (set_delete s (JStr id)) x
  = set_has s x && negb (sameValueZero (JStr id) x).
Proof.
  unfold set_has, set_delete. induction s as [|z s IH]; [done|]. cbn [List.filter existsb].
  destruct (sameValueZero (JStr id) z) eqn:Hz; cbn [negb existsb]; rewrite IH.
  - apply sameValueZero_str in Hz as ->.
    destruct (sameValueZero x (JStr id)) eqn:Hx; [|done].
    apply sameValueZero_eq in Hx as ->. simpl. by rewrite String.eqb_refl, !andb_false_r.
  - destruct (sameValueZero x z) eqn:Hx; [|done].
    apply sameValueZero_eq in Hx as ->. by rewrite Hz.
Qed.

Lemma has_id_other set id id' :
  id' ≠ Some id → has_id (set_delete set (JStr id)) id' = has_id set id'.
Proof.
  destruct id' as [id'|]; [|done]. intros Hne. cbn [has_id].
  rewrite set_has_delete_str. simpl.
  destruct (String.eqb_spec id id') as [->|]; [done|]. by rewrite andb_true_r.
Qed.

(** ** Plain dictionaries *)







Section HandlerProps.
Context `{codec : JSONCodec} `{html : HTMLParser} `{page : Page}.
Implicit Types st : gmap string string.

Lemma try_catch_caught (m : js outcome) st c st' :
  m st = (c, st') →
  try_catch m (js_ret (Alert "Failed to parse JSON.")) st = (Normal (caught c), st').
Proof. intros H. unfold try_catch. rewrite H. by destruct c. Qed.

(** ** Saving and loading *)

(** X1: what a save writes, the matching load reads back (a set whose
    elements are distinct, any topic list, a star map of such sets), and
    a save under one key leaves the loads of the other two keys as they
    were. *)
Theorem save_load_roundtrip st set list map :
  set_ok set → stars_ok map →
  (loadReadLater (saveReadLater set st) = Normal set ∧
   loadTopics (saveReadLater set st) = loadTopics st ∧
   loadStarsByTopic (saveReadLater set st) = loadStarsByTopic st) ∧
  (loadTopics (saveTopics list st) = list ∧
   loadReadLater (saveTopics list st) = loadReadLater st ∧
   loadStarsByTopic (saveTopics list st) = loadStarsByTopic st) ∧
  (loadStarsByTopic (saveStarsByTopic map st) = Normal map ∧
   loadReadLater (saveStarsByTopic map st) = loadReadLater st ∧
   loadTopics (saveStarsByTopic map st) = loadTopics st).
Proof.
  intros Hset Hmap. repeat split.
  - by apply loadReadLater_saveReadLater.
  - apply loadTopics_saveReadLater.
  - apply loadStarsByTopic_saveReadLater.
  - apply loadTopics_saveTopics.
  - apply loadReadLater_saveTopics.
  - apply loadStarsByTopic_saveTopics.
  - by apply loadStarsByTopic_saveStarsByTopic.
  - apply loadReadLater_saveStarsByTopic.
  - apply loadTopics_saveStarsByTopic.
Qed.

(** ** Creating and deleting a topic *)


Lemma without_spec name l t : t ∈ without name l ↔ t ∈ l ∧ t ≠ JStr name.
Proof.
  unfold without. rewrite filter_elem_of, negb_true_iff.
  split; intros [Hin Hne]; (split; [done|]).
  - intros ->. simpl in Hne. by rewrite String.eqb_refl in Hne.
  - destruct (is_str name t) eqn:Hs; [|done]. by apply is_str_true in Hs.
Qed.

(** X3: deleting a listed topic does nothing when the confirmation is
    declined; when it is confirmed the name leaves the topic list (the
    other topics keep their order), its star set leaves the star map,
    which keeps its other sets, and the read-later set is unchanged.
    The handler is done when the page then renders, and throws what the
    rendering throws. *)
Theorem deleteTopic_spec st l rl m name :
  loadTopics st = JArr l → loadReadLater st = Normal rl → loadStarsByTopic st = Normal m →
  name ≠ EmptyString → JStr name ∈ l →
  deleteTopic (Some name) false st = (Normal Quit, st) ∧
  ∃ st', deleteTopic (Some name) true st = (rendered st', st') ∧
    loadTopics st' = JArr (without name l) ∧
    (JStr name ∉ without name l) ∧
    loadStarsByTopic st' = Normal (Dict (delete name (own m)) None) ∧
    loadReadLater st' = Normal rl.
Proof.
  intros Ht Hrl Hm Hname Hin. apply is_empty_false in Hname.
  pose proof (loadStarsByTopic_ok _ _ Hm) as Hok.
  unfold deleteTopic, with_topics. rewrite !run_read, Ht.
  destruct l as [|t0 l0] eqn:Hl; [by apply elem_of_nil in Hin|].
  rewrite <- Hl in *. clear Hl.
  apply existsb_is_str in Hin. rewrite Hname, Hin. cbn [orb negb].
  split; [done|]. eexists. split; [|split; [|split; [|split]]].
  - rewrite run_write.
    rewrite (run_lift _ _ _ m) by by rewrite loadStarsByTopic_saveTopics.
    rewrite run_write. apply (refresh_done _ (without name l)).
    by rewrite loadTopics_saveStarsByTopic, loadTopics_saveTopics.
  - by rewrite loadTopics_saveStarsByTopic, loadTopics_saveTopics.
  - rewrite without_spec. by intros [_ ?].
  - by apply (loadStarsByTopic_saved (dict_delete m name)), dict_delete_ok.
  - by rewrite loadReadLater_saveStarsByTopic, loadReadLater_saveTopics.
Qed.

(** X4: the prompts of the topic controls that change nothing: with an
    empty topic list rename and delete only show their alert; a
    dismissed or empty answer, and a name that is not in the list, end
    the handler without a word; a new name that another topic already
    has shows the alert; in all these cases the store is as before. *)
Theorem topic_prompts_reject st l :
  loadTopics st = JArr l →
  (l = [] →
   (∀ oldName newName,
      renameTopic oldName newName st = (Normal (Alert "No topics to rename."), st)) ∧
   (∀ name confirmed,
      deleteTopic name confirmed st = (Normal (Alert "No topics to delete."), st))) ∧
  (l ≠ [] →
   (∀ newName, renameTopic None newName st = (Normal Quit, st)) ∧
   (∀ oldName newName,
      JStr oldName ∉ l → renameTopic (Some oldName) newName st = (Normal Quit, st)) ∧
   (∀ oldName,
      renameTopic (Some oldName) None st = (Normal Quit, st) ∧
      renameTopic (Some oldName) (Some EmptyString) st = (Normal Quit, st)) ∧
   (∀ oldName newName,
      JStr oldName ∈ l → oldName ≠ EmptyString → newName ≠ EmptyString →
      JStr newName ∈ l → newName ≠ oldName →
      renameTopic (Some oldName) (Some newName) st
      = (Normal (Alert "A topic with that name already exists."), st)) ∧
   (∀ confirmed, deleteTopic None confirmed st = (Normal Quit, st)) ∧
   (∀ name confirmed,
      JStr name ∉ l → deleteTopic (Some name) confirmed st = (Normal Quit, st))).
Proof.
  intros Ht. split.
  - intros ->. split; intros; unfold renameTopic, deleteTopic, with_topics;
      by rewrite run_read, Ht.
  - intros Hne. destruct l as [|t0 l0] eqn:Hl; [done|]. rewrite <- Hl in *. clear Hl.
    assert (∀ k : list json → js outcome, with_topics "No topics to rename." k st = k l st)
      as Hren by (intros k; unfold with_topics; rewrite run_read, Ht; by destruct l).
    assert (∀ k : list json → js outcome, with_topics "No topics to delete." k st = k l st)
      as Hdel by (intros k; unfold with_topics; rewrite run_read, Ht; by destruct l).
    split; [|split; [|split; [|split; [|split]]]].
    + intros newName. unfold renameTopic. by rewrite Hren.
    + intros oldName newName Hin%existsb_is_str_false. unfold renameTopic.
      rewrite Hren, Hin. by rewrite orb_true_r.
    + intros oldName. unfold renameTopic. rewrite !Hren.
      by destruct (is_empty oldName || negb (existsb (is_str oldName) l)).
    + intros oldName newName Hold%existsb_is_str Ho%is_empty_false Hn%is_empty_false
        Hnew%existsb_is_str Hdiff%String.eqb_neq.
      unfold renameTopic. by rewrite Hren, Ho, Hold, Hn, Hnew, Hdiff.
    + intros confirmed. unfold deleteTopic. by rewrite Hdel.
    + intros name confirmed Hin%existsb_is_str_false. unfold deleteTopic.
      rewrite Hdel, Hin. by rewrite orb_true_r.
Qed.

(** ** The buttons of a card *)

(** X5: the read-later button of a card flips the read-later filter for
    the papers of that identity and for no other paper, and leaves the
    topic list and the star map unchanged.  The handler is done when the
    page then renders, and throws what the rendering throws; the store is
    written in both cases. *)
Theorem toggleReadLater_spec st rl id :
  loadReadLater st = Normal rl →
  ∃ st' rl', toggleReadLater id st = (rendered st', st') ∧
    loadReadLater st' = Normal rl' ∧
    (∀ p, getPaperId p = Some id →
       readLaterMatches p true rl' = negb (readLaterMatches p true rl)) ∧
    (∀ p, getPaperId p ≠ Some id →
       readLaterMatches p true rl' = readLaterMatches p true rl) ∧
    loadTopics st' = loadTopics st ∧
    loadStarsByTopic st' = loadStarsByTopic st.
Proof.
  intros Hrl. pose proof (loadReadLater_ok _ _ Hrl) as Hok.
  set (rl' := if set_has rl (JStr id) then set_delete rl (JStr id)
              else set_add rl (JStr id)).
  assert (set_ok rl') as Hok'.
  { unfold rl'. destruct (set_has rl (JStr id)); [by apply set_delete_ok|by apply set_add_ok]. }
  exists (saveReadLater rl' st), rl'. split; [|split; [|split; [|split; [|split]]]].
  - unfold toggleReadLater. rewrite (run_lift _ _ _ rl) by done. cbv zeta. fold rl'.
    rewrite run_write. apply applyFilters_done.
  - by apply loadReadLater_saveReadLater.
  - intros p Hp. unfold readLaterMatches. rewrite Hp. cbn [negb has_id]. unfold rl'.
    destruct (set_has rl (JStr id)) eqn:Hhas.
    + rewrite set_has_delete_str. simpl. by rewrite String.eqb_refl, andb_false_r.
    + rewrite set_has_add, Hhas. simpl. by rewrite String.eqb_refl.
  - intros p Hp. unfold readLaterMatches. cbn [negb]. unfold rl'.
    destruct (set_has rl (JStr id)) eqn:Hhas; [by apply has_id_other|].
    destruct (getPaperId p) as [id'|]; [|done]. cbn [has_id]. rewrite set_has_add.
    simpl. destruct (String.eqb_spec id' id) as [->|]; [done|]. by rewrite orb_false_r.
  - apply loadTopics_saveReadLater.
  - apply loadStarsByTopic_saveReadLater.
Qed.


Lemma existsb_ext {A} (f g : A → bool) l :
  (∀ x, f x = g x) → existsb f l = existsb g l.
Proof. intros H. induction l as [|x l IH]; [done|]. simpl. by rewrite H, IH. Qed.






(** ** Importing a bare array *)

(** X8: importing a bare array into read_later is additive: the stored
    set keeps its elements in their order, the new elements come from the
    file, and a value is in the set afterwards exactly when it was in the
    set before or is in the file; topics and stars are unchanged.  The
    import is then done when the page renders, and shows the alert of
    its catch block when the rendering throws.  (The values of the file
    are JSON values without numbers, as everywhere here.) *)
Theorem import_array_read_later st text ids l rl :
  JSON_parse text = Some (JArr ids) →
  loadTopics st = JArr l → loadReadLater st = Normal rl →
  ∃ st' added,
    importJSONFile text (Some "read_later") st = (Normal (caught (rendered st')), st') ∧
    loadReadLater st' = Normal (rl ++ added) ∧
    (∀ x, x ∈ added → x ∈ ids) ∧
    (∀ x, set_has (rl ++ added) x = set_has rl x || set_has ids x) ∧
    loadTopics st' = JArr l ∧ loadStarsByTopic st' = loadStarsByTopic st.
Proof.
  intros Hp Ht Hrl. pose proof (loadReadLater_ok _ _ Hrl) as Hok.
  destruct (set_add_all_extends rl ids) as (added & Hadd & Hsub).
  assert (set_ok (rl ++ added)) as Hok' by (rewrite <- Hadd; by apply set_add_all_ok).
  exists (saveReadLater (rl ++ added) st), added.
  split; [|split; [|split; [|split; [|split]]]].
  - unfold importJSONFile. cbv zeta. apply try_catch_caught. rewrite Hp.
    change (is_empty "read_later") with false.
    change (String.eqb "read_later" "read_later") with true. cbv iota.
    rewrite run_assoc, (run_lift _ _ _ rl) by done. rewrite run_write, Hadd.
    apply (refresh_done _ l). by rewrite loadTopics_saveReadLater.
  - by apply loadReadLater_saveReadLater.
  - done.
  - intros x. by rewrite <- Hadd, set_has_add_all.
  - by rewrite loadTopics_saveReadLater.
  - by rewrite loadStarsByTopic_saveReadLater.
Qed.


(** ** What the handlers leave alone *)

Lemma keeps_ret {A} k (a : A) : keeps k (js_ret a).
Proof. done. Qed.

Lemma keeps_throw {A} k e : keeps k (@throw A e).
Proof. done. Qed.

Lemma keeps_read {A} k (f : gmap string string → A) : keeps k (read f).
Proof. done. Qed.

Lemma keeps_lift {A} k (f : gmap string string → completion A) : keeps k (lift f).
Proof. done. Qed.

Lemma keeps_of_completion {A} k (c : completion A) : keeps k (of_completion c).
Proof. done. Qed.

Lemma keeps_bind {A B} k (m : js A) (f : A → js B) :
  keeps k m → (∀ a, keeps k (f a)) → keeps k (m ≫= f).
Proof.
  intros Hm Hf st. unfold mbind, js_mbind, js_bind. specialize (Hm st).
  destruct (m st) as [[a|e] st']; [|done]. simpl in Hm. by rewrite Hf.
Qed.

Lemma keeps_try_catch {A} k (m h : js A) : keeps k m → keeps k h → keeps k (try_catch m h).
Proof.
  intros Hm Hh st. unfold try_catch. specialize (Hm st).
  destruct (m st) as [[a|e] st']; [done|]. simpl in Hm. by rewrite Hh.
Qed.

Lemma keeps_saveJSON k key val : k ≠ key → keeps k (write (saveJSON key val)).
Proof. intros Hne st. unfold write, saveJSON. simpl. by rewrite lookup_insert_ne. Qed.

Lemma keeps_saveReadLater k set : k ≠ READ_LATER → keeps k (write (saveReadLater set)).
Proof. apply keeps_saveJSON. Qed.

Lemma keeps_saveTopics k list : k ≠ TOPICS → keeps k (write (saveTopics list)).
Proof. apply keeps_saveJSON. Qed.

Lemma keeps_saveStarsByTopic k map :
  k ≠ STARS_BY_TOPIC → keeps k (write (saveStarsByTopic map)).
Proof. apply keeps_saveJSON. Qed.

Lemma keeps_applyFilters k : keeps k applyFilters.
Proof. apply keeps_lift. Qed.

Lemma keeps_refresh k : keeps k refreshTopicFilterSelect.
Proof.
  unfold refreshTopicFilterSelect. apply keeps_bind; [apply keeps_read|].
  intros []; auto using @keeps_ret, @keeps_throw.
Qed.

Ltac keeps_step :=
  lazymatch goal with
  | |- keeps _ (js_ret _) => apply keeps_ret
  | |- keeps _ (throw _) => apply keeps_throw
  | |- keeps _ (read _) => apply keeps_read
  | |- keeps _ (lift _) => apply keeps_lift
  | |- keeps _ (of_completion _) => apply keeps_of_completion
  | |- keeps _ applyFilters => apply keeps_applyFilters
  | |- keeps _ refreshTopicFilterSelect => apply keeps_refresh
  | |- keeps _ (write (saveReadLater _)) => apply keeps_saveReadLater; first [done|set_solver]
  | |- keeps _ (write (saveTopics _)) => apply keeps_saveTopics; first [done|set_solver]
  | |- keeps _ (write (saveStarsByTopic _)) => apply keeps_saveStarsByTopic; first [done|set_solver]
  | |- keeps _ (try_catch _ _) => apply keeps_try_catch
  | |- keeps _ (_ ≫= _) => apply keeps_bind; [|intros ?]
  | |- keeps _ (match ?x with _ => _ end) => destruct x
  end.

Lemma handle_keeps e k : k ∉ writes e → keeps k (handle e).
Proof.
  intros Hk. destruct e; cbn [handle writes] in *;
    unfold createTopic, renameTopic, deleteTopic, with_topics, toggleReadLater, toggleStar,
      addToTopic, removeFromTopic, importJSONFile; cbv zeta;
    repeat keeps_step.
Qed.

(** X10: each handler writes only its own keys, however it ends: the
    read-later button only the read-later key, the topic controls only
    the topic list and the star map, the star controls of a card only the
    star map, an import only these three keys; so the load of a key that
    a handler does not write returns afterwards what it returned
    before. *)
Theorem handlers_write_own_keys e st :
  (∀ k, k ∉ writes e → after e st !! k = st !! k) ∧
  (READ_LATER ∉ writes e → loadReadLater (after e st) = loadReadLater st) ∧
  (TOPICS ∉ writes e → loadTopics (after e st) = loadTopics st) ∧
  (STARS_BY_TOPIC ∉ writes e → loadStarsByTopic (after e st) = loadStarsByTopic st).
Proof.
  assert (∀ k, k ∉ writes e → after e st !! k = st !! k) as Hkeys.
  { intros k Hk. by apply handle_keeps. }
  split; [done|]. split; [|split]; intros Hk%Hkeys.
  - unfold loadReadLater, loadJSON. by rewrite Hk.
  - unfold loadTopics, loadJSON. by rewrite Hk.
  - unfold loadStarsByTopic, loadJSON. by rewrite Hk.
Qed.

(** ** The topic list has no repetitions *)

Lemma loadTopics_keeps {A} (m : js A) st :
  keeps TOPICS m → loadTopics (snd (m st)) = loadTopics st.
Proof. intros H. unfold loadTopics, loadJSON. by rewrite H. Qed.

Lemma topics_after_save {A} list (rest : unit → js A) st :
  keeps TOPICS (rest tt) →
  loadTopics (snd ((write (saveTopics list) ≫= rest) st)) = list.
Proof.
  intros H. rewrite run_write, loadTopics_keeps by done. apply loadTopics_saveTopics.
Qed.

Lemma NoDup_snoc_str l name : NoDup l → JStr name ∉ l → NoDup (l ++ [JStr name]).
Proof.
  intros Hnd Hin. apply NoDup_app. split; [done|]. split; [|apply NoDup_singleton].
  intros x Hx ->%list_elem_of_singleton. done.
Qed.

Lemma renamed_same name l : renamed name name l = l.
Proof.
  unfold renamed. induction l as [|t l IH]; [done|]. cbn [map]. rewrite IH.
  destruct (is_str name t) eqn:Hs; [|done]. by apply is_str_true in Hs as ->.
Qed.

Lemma renamed_elem_of oldName newName l x :
  x ∈ renamed oldName newName l →
  (x = JStr newName ∧ JStr oldName ∈ l) ∨ (x ∈ l ∧ x ≠ JStr oldName).
Proof.
  unfold renamed. rewrite list_elem_of_In, in_map_iff.
  intros (t & Hx & Hin%list_elem_of_In). destruct (is_str oldName t) eqn:Hs.
  - apply is_str_true in Hs as ->. by left.
  - subst x. right. split; [done|]. intros ->. simpl in Hs.
    by rewrite String.eqb_refl in Hs.
Qed.

Lemma renamed_NoDup oldName newName l :
  NoDup l → JStr newName ∉ l → NoDup (renamed oldName newName l).
Proof.
  intros Hnd Hnew. induction Hnd as [|t l Ht Hnd IH]; [constructor|].
  apply not_elem_of_cons in Hnew as [Hne Hnew].
  change (renamed oldName newName (t :: l))
    with ((if is_str oldName t then JStr newName else t) :: renamed oldName newName l).
  apply NoDup_cons. split; [|by apply IH].
  intros Hin%renamed_elem_of. destruct (is_str oldName t) eqn:Hs.
  - apply is_str_true in Hs as ->. destruct Hin as [[_ Hin]|[Hin _]]; done.
  - destruct Hin as [[-> _]|[Hin _]]; done.
Qed.

Lemma without_NoDup name l : NoDup l → NoDup (without name l).
Proof.
  unfold without. induction 1 as [|t l Ht Hnd IH]; [constructor|]. cbn [List.filter].
  destruct (negb (is_str name t)); [|done]. apply NoDup_cons. split; [|done].
  by intros [? _]%filter_elem_of.
Qed.

(** X11: a topic list without repetitions stays without repetitions
    under every handler, the import of a bare array included; only the
    import of a full payload, which stores the topics of the payload as
    they are, is excepted. *)
Theorem topics_stay_distinct e st :
  topics_distinct st → piecewise e → topics_distinct (after e st).
Proof.
  intros (l & Ht & Hnd) Hpw.
  assert (topics_distinct st) as Hst by by exists l.
  assert (∀ e', keeps TOPICS (handle e') → topics_distinct (after e' st)) as Hkeeps.
  { intros e' He'. exists l. split; [|done]. unfold after. by rewrite loadTopics_keeps. }
  destruct e as [name|oldName newName|name confirmed|id|id|t id|topic id|text kind];
    try (apply Hkeeps, handle_keeps; cbn [writes]; set_solver).
  - (* a new topic *)
    unfold after. cbn [handle]. unfold createTopic.
    destruct name as [name|]; [|done]. destruct (is_empty name); [done|].
    rewrite run_read, Ht. destruct (existsb (is_str name) l) eqn:Hex; [done|].
    exists (l ++ [JStr name]). split.
    + apply topics_after_save. cbv zeta. repeat keeps_step.
    + by apply NoDup_snoc_str, existsb_is_str_false.
  - (* a topic renamed *)
    unfold after. cbn [handle]. unfold renameTopic, with_topics. rewrite run_read, Ht.
    destruct l as [|t0 l0] eqn:Hl; [done|]. rewrite <- Hl in *. clear Hl.
    destruct oldName as [oldName|]; [|done].
    destruct (is_empty oldName || negb (existsb (is_str oldName) l)); [done|].
    destruct newName as [newName|]; [|done].
    destruct (is_empty newName); [done|].
    destruct (existsb (is_str newName) l && negb (String.eqb newName oldName)) eqn:Hnew;
      [done|].
    exists (renamed oldName newName l). split.
    + apply topics_after_save. cbv zeta. repeat keeps_step.
    + apply andb_false_iff in Hnew as [Hnew|Hnew].
      * by apply renamed_NoDup, existsb_is_str_false.
      * apply negb_false_iff, String.eqb_eq in Hnew as ->. by rewrite renamed_same.
  - (* a topic deleted *)
    unfold after. cbn [handle]. unfold deleteTopic, with_topics. rewrite run_read, Ht.
    destruct l as [|t0 l0] eqn:Hl; [done|]. rewrite <- Hl in *. clear Hl.
    destruct name as [name|]; [|done].
    destruct (is_empty name || negb (existsb (is_str name) l)); [done|].
    destruct confirmed; [|done]. cbn [negb].
    exists (without name l). split.
    + apply topics_after_save. repeat keeps_step.
    + by apply without_NoDup.
  - (* a file imported *)
    unfold after. cbn [handle piecewise] in *. unfold importJSONFile. cbv zeta.
    rewrite try_catch_state. destruct (JSON_parse text) as [parsed|] eqn:Hp; [|done].
    specialize (Hpw parsed eq_refl).
    destruct parsed as [|b|s|ids|props];
      try (cbn [get_prop]; by rewrite unrecognized_state).
    + destruct kind as [kind|]; [|done]. destruct (is_empty kind); [done|].
      destruct (String.eqb kind "read_later").
      * exists l. split; [|done]. rewrite loadTopics_keeps; [done|]. repeat keeps_step.
      * rewrite run_assoc, run_read, Ht.
        destruct (existsb (is_str kind) l) eqn:Hex.
        -- exists l. split; [|done]. rewrite loadTopics_keeps; [done|]. repeat keeps_step.
        -- exists (l ++ [JStr kind]). split.
           ++ rewrite run_assoc. apply topics_after_save. cbv zeta. repeat keeps_step.
           ++ by apply NoDup_snoc_str, existsb_is_str_false.
    + unfold payload_fields in Hpw.
      destruct (get_prop (JObj props) "readLater") as [rv|]; [|by rewrite unrecognized_state].
      destruct (get_prop (JObj props) "starsByTopic") as [sv|];
        [|by rewrite unrecognized_state].
      destruct (get_prop (JObj props) "topics") as [tv|]; [|by rewrite unrecognized_state].
      destruct (truthy rv && truthy sv && truthy tv); [done|by rewrite unrecognized_state].
Qed.

End HandlerProps.


Lemma save_load_roundtrip_witness :
  loadReadLater (saveReadLater [JStr "p1"] storage_vision) = Normal [JStr "p1"] ∧
  loadTopics (saveTopics (JArr topics_vision) storage_p1) = JArr topics_vision ∧
  loadStarsByTopic (saveStarsByTopic stars_vision storage_p1) = Normal stars_vision.
Proof.
  split; [|split].
  - exact (proj1 (proj1 (save_load_roundtrip (codec := ref_codec) storage_vision
                           [JStr "p1"] JNull stars_vision set_ok_p1 stars_vision_ok))).
  - exact (proj1 (proj1 (proj2 (save_load_roundtrip (codec := ref_codec) storage_p1
                           [JStr "p1"] (JArr topics_vision) stars_vision
                           set_ok_p1 stars_vision_ok)))).
  - exact (proj1 (proj2 (proj2 (save_load_roundtrip (codec := ref_codec) storage_p1
                           [JStr "p1"] JNull stars_vision set_ok_p1 stars_vision_ok)))).
Defined.


Lemma deleteTopic_spec_witness :
  deleteTopic (page := page_two) (Some "vision") false storage_vision
  = (Normal Quit, storage_vision) ∧
  ∃ st', deleteTopic (page := page_two) (Some "vision") true storage_vision
         = (rendered (page := page_two) st', st') ∧
    loadTopics st' = JArr (without "vision" topics_vision) ∧
    (JStr "vision" ∉ without "vision" topics_vision) ∧
    loadStarsByTopic st' = Normal (Dict (delete "vision" (own stars_vision)) None) ∧
    loadReadLater st' = Normal [].
Proof.
  apply (deleteTopic_spec (codec := ref_codec) (page := page_two) storage_vision
           topics_vision [] stars_vision "vision" storage_vision_topics
           storage_vision_read_later storage_vision_stars); [discriminate|].
  right. by left.
Defined.

Lemma toggleReadLater_spec_witness :
  ∃ st' rl', toggleReadLater (page := page_two) "2401.00001" storage_p1
             = (rendered (page := page_two) st', st') ∧
    loadReadLater st' = Normal rl' ∧
    readLaterMatches paper_x true rl' = negb (readLaterMatches paper_x true [JStr "p1"]) ∧
    readLaterMatches paper_p1 true rl' = readLaterMatches paper_p1 true [JStr "p1"].
Proof.
  destruct (toggleReadLater_spec (codec := ref_codec) (page := page_two) storage_p1
              [JStr "p1"] "2401.00001" storage_p1_read_later)
    as (st' & rl' & Hrun & Hrl & Hid & Hother & _).
  exists st', rl'. split; [exact Hrun|]. split; [exact Hrl|]. split.
  - apply Hid. reflexivity.
  - apply Hother. discriminate.
Defined.



Lemma import_array_read_later_witness :
  ∃ st' added,
    importJSONFile (page := page_two) ("[" +:+ quoted "p2" +:+ "]") (Some "read_later")
      storage_p1
    = (Normal (caught (rendered (page := page_two) st')), st') ∧
    loadReadLater st' = Normal ([JStr "p1"] ++ added) ∧
    (∀ x, x ∈ added → x ∈ [JStr "p2"]) ∧
    (∀ x, set_has ([JStr "p1"] ++ added) x = set_has [JStr "p1"] x || set_has [JStr "p2"] x) ∧
    loadTopics st' = JArr [] ∧ loadStarsByTopic st' = loadStarsByTopic storage_p1.
Proof.
  exact (import_array_read_later (codec := ref_codec) (page := page_two) storage_p1
           ("[" +:+ quoted "p2" +:+ "]") [JStr "p2"] [] [JStr "p1"]
           parse_p2 storage_p1_topics storage_p1_read_later).
Defined.


Lemma topic_prompts_reject_witness :
  renameTopic (page := page_two) (Some "vision") (Some "nlp") storage_vision
  = (Normal (Alert "A topic with that name already exists."), storage_vision) ∧
  deleteTopic (page := page_two) (Some "cv") true storage_vision
  = (Normal Quit, storage_vision).
Proof.
  destruct (topic_prompts_reject (codec := ref_codec) (page := page_two) storage_vision
              topics_vision storage_vision_topics) as [_ H].
  destruct H as (_ & _ & _ & Hren & _ & Hdel); [discriminate|]. split.
  - apply Hren; [right; by left|discriminate|discriminate|by left|discriminate].
  - apply Hdel. not_among.
Defined.

Lemma handlers_write_own_keys_witness :
  after (page := page_two) (CreateTopic (Some "cv")) storage_p1 !! READ_LATER
  = storage_p1 !! READ_LATER ∧
  loadTopics (after (page := page_two) (ToggleReadLater "p2") storage_vision)
  = loadTopics storage_vision.
Proof.
  split.
  - apply (handlers_write_own_keys (codec := ref_codec) (page := page_two)
             (CreateTopic (Some "cv")) storage_p1).
    cbn [writes]. intros [H|H]%elem_of_union; apply elem_of_singleton in H; discriminate H.
  - apply (handlers_write_own_keys (codec := ref_codec) (page := page_two)
             (ToggleReadLater "p2") storage_vision).
    cbn [writes]. intros H%elem_of_singleton. discriminate H.
Defined.

Lemma topics_stay_distinct_witness :
  topics_distinct
    (after (page := page_two) (RenameTopic (Some "vision") (Some "cv")) storage_vision).
Proof.
  apply (topics_stay_distinct (codec := ref_codec) (page := page_two)
           (RenameTopic (Some "vision") (Some "cv")) storage_vision); [|exact I].
  exists topics_vision. exact (conj storage_vision_topics topics_vision_NoDup).
Defined.

(** ** Filtering and rendering *)

Lemma textMatches_forallb p terms titleOnly :
  textMatches p terms titleOnly = forallb (term_matches p titleOnly) terms.
Proof.
  unfold term_matches, textMatches. destruct terms as [|t terms]; [done|].
  replace (length (t :: terms) =? 0)%nat with false by done.
  generalize (t :: terms) as l. induction l as [|x l IH]; [done|].
  cbn [forallb]. rewrite IH. f_equal. cbn [length Nat.eqb forallb].
  by rewrite andb_true_r.
Qed.

Lemma textMatches_app p ts us titleOnly :
  textMatches p (ts ++ us) titleOnly
  = textMatches p ts titleOnly && textMatches p us titleOnly.
Proof. rewrite !textMatches_forallb. apply forallb_app. Qed.

Lemma getActiveTerms_chips value chips :
  getActiveTerms value chips
  = getActiveTerms value [] ++ List.filter nonempty chips.
Proof.
  unfold getActiveTerms. cbv zeta.
  change (fun t => negb (is_empty t)) with nonempty.
  rewrite !List.filter_app. cbn [List.filter]. by rewrite app_nil_r, <- app_assoc.
Qed.

(** A filter whose test runs the test of another filter on fewer
    elements completes when the other does. *)
Lemma filter_each_narrow {A} (f g : A → completion bool) (h : A → bool) l shown :
  (∀ x, g x = if h x then f x else Normal false) →
  filter_each f l = Normal shown →
  filter_each g l = Normal (List.filter h shown).
Proof.
  intros Hg. revert shown. induction l as [|x l IH]; intros shown; cbn [filter_each].
  - by intros [= <-].
  - rewrite Hg. destruct (f x) as [keep|e] eqn:Hf; [|done]. cbn [cbind].
    destruct (filter_each f l) as [xs|e]; [|done]. cbn [cbind]. intros [= <-].
    rewrite (IH xs eq_refl). destruct (h x) eqn:Hh; cbn [cbind];
      destruct keep; try done; cbn [List.filter]; by rewrite Hh.
Qed.

Lemma filter_each_true {A} (f : A → completion bool) l :
  (∀ x, f x = Normal true) → filter_each f l = Normal l.
Proof.
  intros Hf. induction l as [|x l IH]; [done|]. cbn [filter_each].
  by rewrite Hf, IH.
Qed.

Section RenderProps.
Context `{codec : JSONCodec} `{html : HTMLParser}.
Implicit Types st : gmap string string.

(** X12: when the filter completes, it also completes with one more
    active chip, wherever the chip stands among the chips, and then shows
    exactly those of the papers shown before that match the term of the
    chip.  (A filter that throws on a paper can complete with one more
    chip, when the chip rejects that paper.) *)
Theorem filtered_chip search a c b titleOnly boxes onlyRL onlyStar topic ALL st shown :
  filtered (Controls search (a ++ b) titleOnly boxes onlyRL onlyStar topic) ALL st
  = Normal shown →
  filtered (Controls search (a ++ c :: b) titleOnly boxes onlyRL onlyStar topic) ALL st
  = Normal (List.filter (fun p => textMatches (paper_of p) [c] titleOnly) shown).
Proof.
  unfold filtered. cbn [search_value active_chips titleOnly_checked cat_boxes
    onlyReadLater_checked onlyStarred_checked topicFilter_value]. cbv zeta.
  destruct (loadReadLater st) as [rl|e]; [|done]. cbn [cbind].
  destruct (loadStarsByTopic st) as [m|e]; [|done]. cbn [cbind].
  apply filter_each_narrow. intros p.
  rewrite (getActiveTerms_chips search (a ++ c :: b)), (getActiveTerms_chips search (a ++ b)).
  rewrite !List.filter_app. cbn [List.filter].
  rewrite !textMatches_app.
  destruct (nonempty c) eqn:Hc.
  - change (c :: List.filter nonempty b) with ([c] ++ List.filter nonempty b).
    rewrite textMatches_app.
    destruct (categoryMatches _ _), (textMatches _ (getActiveTerms search []) _),
      (textMatches _ (List.filter nonempty a) _), (textMatches _ [c] _),
      (textMatches _ (List.filter nonempty b) _), (readLaterMatches _ _ _),
      (starredMatches _ _ _); done.
  - assert (textMatches (paper_of p) [c] titleOnly = true) as ->.
    { unfold nonempty in Hc. apply negb_false_iff, is_empty_true in Hc. by subst c. }
    done.
Qed.

(** X13: with a blank search box, no active chip, no category box
    checked, both tag filters off and no topic selected, the filter keeps
    every loaded paper, in order. *)
Theorem filtered_idle els ALL st rl m :
  loadReadLater st = Normal rl → loadStarsByTopic st = Normal m →
  trim (search_value els) = EmptyString → active_chips els = [] →
  (∀ b, b ∈ cat_boxes els → box_checked b = false) →
  onlyReadLater_checked els = false → onlyStarred_checked els = false →
  topicFilter_value els = EmptyString →
  filtered els ALL st = Normal ALL.
Proof.
  intros Hrl Hm Hsearch Hchips Hboxes HonlyRL HonlyStar Htopic.
  unfold filtered. rewrite Hrl, Hm, Hchips, HonlyRL, HonlyStar, Htopic. cbn [cbind].
  assert (getActiveTerms (search_value els) [] = []) as ->.
  { unfold getActiveTerms. by rewrite Hsearch. }
  assert (getAllowedCats (cat_boxes els) = ∅) as ->.
  { unfold getAllowedCats.
    assert (List.filter box_checked (cat_boxes els) = []) as ->; [|done].
    induction (cat_boxes els) as [|b l IH]; [done|]. cbn [List.filter].
    rewrite (Hboxes b) by by left. apply IH. intros b' Hb'. apply Hboxes. by right. }
  apply filter_each_true. intros p. unfold categoryMatches. by rewrite size_empty.
Qed.

Lemma for_each_spec {A B} (f : A → completion B) l ys :
  for_each f l = Normal ys → Forall2 (fun x y => f x = Normal y) l ys.
Proof.
  revert ys. induction l as [|x l IH]; intros ys; cbn [for_each].
  - intros [= <-]. constructor.
  - destruct (f x) as [y|e] eqn:Hy; [|done]. cbn [cbind].
    destruct (for_each f l) as [ys'|e]; [|done]. cbn [cbind].
    intros [= <-]. constructor; [done|]. by apply IH.
Qed.

Lemma render_card_paper rl stars st p c :
  render_card rl stars st p = Normal c → card_paper c = p.
Proof.
  unfold render_card. destruct (join_category (paper_of p)); [|done]. cbn [cbind].
  destruct (ensureTopicOptions st); [|done]. cbn [cbind]. cbv zeta.
  destruct (forallb badge_button _); [|done]. by intros [= <-].
Qed.

Lemma for_each_cards rl stars st items cards :
  for_each (render_card rl stars st) items = Normal cards →
  card_paper <$> cards = items.
Proof.
  intros H%for_each_spec. induction H as [|p c items cards Hc _ IH]; [done|].
  rewrite fmap_cons, IH. f_equal. by eapply render_card_paper.
Qed.

Lemma render_groups_spec rl stars st groups total r :
  render_groups rl stars st groups total = Normal r →
  snd r = (total + length (concat groups.*2))%nat ∧
  card_paper <$> concat (fst r).*2 = concat groups.*2 ∧
  Forall (fun c => render_card rl stars st (card_paper c) = Normal c) (concat (fst r).*2).
Proof.
  revert total r. induction groups as [|[date items] groups IH]; intros total r.
  - cbn [render_groups]. intros [= <-]. simpl. split; [lia|]. split; [done|constructor].
  - cbn [render_groups]. destruct (length items =? 0)%nat eqn:Hlen.
    + apply Nat.eqb_eq, nil_length_inv in Hlen. subst items.
      intros H. apply IH in H as (Ht & Hc & Hall). rewrite fmap_cons. simpl.
      split; [lia|done].
    + cbv zeta. destruct (for_each _ items) as [cards|e] eqn:Hcards; [|done]. cbn [cbind].
      destruct (render_groups rl stars st groups _) as [r'|e] eqn:Hr'; [|done]. cbn [cbind].
      intros [= <-]. apply IH in Hr' as (Ht & Hc & Hall).
      cbn [fst snd]. rewrite !fmap_cons. cbn [snd concat]. rewrite length_app.
      split; [lia|]. split.
      * rewrite fmap_app, Hc. f_equal. by eapply for_each_cards.
      * apply Forall_app. split; [|done].
        apply for_each_spec in Hcards. clear -Hcards.
        induction Hcards as [|p c items cards Hc _ IH]; constructor; [|done].
        by rewrite (render_card_paper _ _ _ _ _ Hc).
Qed.

Lemma map_push_perm k p m :
  map_has k m = true → concat (map_push k p m).*2 ≡ₚ p :: concat m.*2.
Proof.
  unfold map_has. induction m as [|[k' l] m IH]; [done|]. cbn [existsb map_push fst].
  destruct (String.eqb k k'); rewrite !fmap_cons; cbn [snd concat].
  - intros _. rewrite <- app_assoc. cbn [app].
    by rewrite <- Permutation_middle.
  - simpl. intros H. rewrite (IH H). by rewrite <- Permutation_middle.
Qed.

Lemma group_step_perm m p : concat (group_step m p).*2 ≡ₚ p :: concat m.*2.
Proof.
  unfold group_step. destruct (map_has (__date p) m) eqn:Hhas.
  - by apply map_push_perm.
  - rewrite map_push_perm.
    + rewrite fmap_app, concat_app. simpl. by rewrite app_nil_r.
    + unfold map_has. rewrite existsb_app. simpl. by rewrite String.eqb_refl, orb_true_r.
Qed.

Lemma group_map_perm papers m :
  concat (foldl group_step m papers).*2 ≡ₚ concat m.*2 ++ papers.
Proof.
  revert m. induction papers as [|p papers IH]; intros m; simpl.
  - by rewrite app_nil_r.
  - rewrite IH, group_step_perm. by rewrite <- Permutation_middle.
Qed.

Lemma concat_snd_perm {A B} (l l' : list (A * list B)) :
  l ≡ₚ l' → concat l.*2 ≡ₚ concat l'.*2.
Proof.
  induction 1 as [|x l l' _ IH|x y l|l l' l'' _ IH _ IH']; [done|..].
  - rewrite !fmap_cons. simpl. by rewrite IH.
  - rewrite !fmap_cons. simpl. rewrite !app_assoc. f_equiv. apply Permutation_app_comm.
  - by rewrite IH.
Qed.

Lemma groupByDate_perm papers : concat (groupByDate papers).*2 ≡ₚ papers.
Proof.
  unfold groupByDate. rewrite (concat_snd_perm _ _ (sort_perm _ _)).
  by rewrite group_map_perm.
Qed.

Lemma groupByDate_nonempty papers :
  Forall (fun g => snd g ≠ []) (groupByDate papers).
Proof.
  apply Forall_forall. intros [d l] Hin. unfold groupByDate in Hin.
  rewrite sort_perm in Hin. destruct (group_map_spec papers) as [_ H].
  by apply H in Hin as [_ Hl].
Qed.

Lemma render_groups_sections rl stars st groups total r :
  Forall (fun g => snd g ≠ []) groups →
  render_groups rl stars st groups total = Normal r →
  (fun s : string * list card => (fst s, card_paper <$> snd s)) <$> fst r = groups.
Proof.
  intros Hne. revert total r.
  induction Hne as [|[date items] groups Hitems _ IH]; intros total r.
  - cbn [render_groups]. by intros [= <-].
  - cbn [render_groups]. destruct items as [|p items]; [done|].
    cbn [length Nat.eqb]. cbv zeta.
    destruct (for_each _ (p :: items)) as [cards|e] eqn:Hcards; [|done]. cbn [cbind].
    destruct (render_groups rl stars st groups _) as [r'|e] eqn:Hr'; [|done]. cbn [cbind].
    intros [= <-]. cbn [fst]. rewrite fmap_cons. cbn [fst snd].
    by rewrite (IH _ _ Hr'), (for_each_cards _ _ _ _ _ Hcards).
Qed.

(** X14: when the rendering completes, the count it shows is the number
    of papers it was given, every paper has exactly one card, the
    sections are the date groups with the cards in the order of their
    papers, and the message without sections appears only for no papers
    at all. *)
Theorem render_count papers st v :
  render papers st = Normal v →
  view_count v = pretty (length papers) ∧
  card_paper <$> cards_of v ≡ₚ papers ∧
  match view_content v with
  | TextContent _ => papers = []
  | Sections sections =>
      (fun s : string * list card => (fst s, card_paper <$> snd s)) <$> sections = groupByDate papers
  end.
Proof.
  unfold render. cbv zeta.
  destruct (length (groupByDate papers) =? 0)%nat eqn:Hlen.
  - apply Nat.eqb_eq, nil_length_inv in Hlen. intros [= <-].
    assert (papers = []) as ->.
    { apply Permutation_nil_r. by rewrite <- (groupByDate_perm papers), Hlen. }
    done.
  - destruct (loadReadLater st) as [rl|e]; [|done]. cbn [cbind].
    destruct (loadStarsByTopic st) as [m|e]; [|done]. cbn [cbind].
    destruct (render_groups rl m st (groupByDate papers) 0) as [r|e] eqn:Hr; [|done].
    cbn [cbind]. intros [= <-]. unfold cards_of. cbn [view_count view_content].
    pose proof (render_groups_spec _ _ _ _ _ _ Hr) as (Ht & Hc & _).
    split; [|split].
    + rewrite Ht. simpl. by rewrite (Permutation_length (groupByDate_perm papers)).
    + change (snd <$> fst r) with ((fst r).*2). rewrite Hc. apply groupByDate_perm.
    + eapply render_groups_sections; [|done]. apply groupByDate_nonempty.
Qed.

End RenderProps.

Lemma filtered_topic_vision :
  filtered (codec := ref_codec) (controls_topic "vision" ([] ++ []))
    [Dated paper_p1 "2024-01-03"; Dated paper_x "2024-01-01"] storage_vision
  = Normal [Dated paper_p1 "2024-01-03"].
Proof. vm_compute. reflexivity. Qed.

Lemma filtered_chip_witness :
  filtered (controls_topic "vision" ([] ++ "star" :: []))
    [Dated paper_p1 "2024-01-03"; Dated paper_x "2024-01-01"] storage_vision
  = Normal (List.filter (fun p => textMatches (paper_of p) ["star"] false)
              [Dated paper_p1 "2024-01-03"]).
Proof.
  exact (filtered_chip (codec := ref_codec) "  " [] "star" [] false [] false false "vision"
           [Dated paper_p1 "2024-01-03"; Dated paper_x "2024-01-01"] storage_vision
           [Dated paper_p1 "2024-01-03"] filtered_topic_vision).
Defined.

(** The filter by a topic whose name [Object.prototype] defines throws
    on the first paper that passes the other tests, and completes when a
    chip rejects every paper. *)
Lemma filtered_inherited_topic :
  filtered (codec := ref_codec) (controls_topic "constructor" []) two_papers storage_vision
  = Throw TypeError ∧
  filtered (codec := ref_codec) (controls_topic "constructor" ["zebra"]) two_papers
    storage_vision
  = Normal [].
Proof. split; vm_compute; reflexivity. Qed.

Lemma filtered_idle_witness :
  filtered idle_controls two_papers storage_vision = Normal two_papers.
Proof.
  apply (filtered_idle (codec := ref_codec) idle_controls two_papers storage_vision
           [] stars_vision storage_vision_read_later storage_vision_stars);
    [reflexivity|reflexivity| |reflexivity|reflexivity|reflexivity].
  intros b Hb%list_elem_of_In. cbn in Hb. by destruct Hb as [<-|[<-|[]]].
Defined.

Lemma render_two_papers :
  ∃ v, render (codec := ref_codec) two_papers storage_vision = Normal v.
Proof. eexists. vm_compute. reflexivity. Qed.

Lemma render_count_witness :
  ∃ v, render two_papers storage_vision = Normal v ∧ view_count v = "2".
Proof.
  destruct render_two_papers as [v Hv]. exists v. split; [exact Hv|].
  exact (proj1 (render_count (codec := ref_codec) two_papers storage_vision v Hv)).
Defined.

(** The card of a starred paper, and the page with a paper whose
    category is a string: its rendering throws, and so does, after the
    save, a handler that ends with it. *)
Lemma render_paper_p1 :
  render (codec := ref_codec) [Dated paper_p1 "2024-01-03"] storage_vision
  = Normal (View (Sections [("2024-01-03", [card_p1])]) "1").
Proof. vm_compute. reflexivity. Qed.

Lemma page_odd_throws :
  page_view (codec := ref_codec) (els (Page := page_odd)) (ALL (Page := page_odd))
    storage_vision
  = Throw TypeError ∧
  fst (toggleReadLater (codec := ref_codec) (page := page_odd) "p1" storage_vision)
  = Throw TypeError ∧
  loadReadLater (snd (toggleReadLater (codec := ref_codec) (page := page_odd) "p1"
                        storage_vision))
  = Normal [JStr "p1"].
Proof. repeat split; vm_compute; reflexivity. Qed.

(** A star set under a topic whose name opens a comment: the badge has
    no button, and the rendering of a paper of the set throws. *)
Lemma render_badge_throws :
  render (codec := ref_codec) [Dated paper_p1 "2024-01-03"]
    (saveStarsByTopic (Dict {[ "<!--" := [JStr "p1"] ]} None)
       (saveTopics (JArr [JStr "<!--"]) ∅))
  = Throw TypeError.
Proof. vm_compute. reflexivity. Qed.

(** On the page with two papers the handlers of the examples run to
    their end. *)
Lemma handlers_done_page_two :
  fst (createTopic (codec := ref_codec) (page := page_two) (Some "cv") storage_vision)
  = Normal Done ∧
  fst (deleteTopic (codec := ref_codec) (page := page_two) (Some "vision") true
         storage_vision)
  = Normal Done ∧
  fst (toggleReadLater (codec := ref_codec) (page := page_two) "2401.00001" storage_p1)
  = Normal Done ∧
  fst (toggleStar (codec := ref_codec) (page := page_two) "p1" storage_vision)
  = Normal Done ∧
  fst (addToTopic (codec := ref_codec) (page := page_two) "nlp" "2401.00001" storage_vision)
  = Normal Done ∧
  fst (importJSONFile (codec := ref_codec) (page := page_two) ("[" +:+ quoted "p2" +:+ "]")
         (Some "vision") storage_vision)
  = Normal Done.
Proof. repeat split; vm_compute; reflexivity. Qed.

(** ** File names *)

Lemma slug_char_plain c : is_slug_char c = true → lower_char c = c ∧ is_ws c = false.
Proof.
  destruct c as [[|] [|] [|] [|] [|] [|] [|] [|]]; vm_compute; intros H;
    first [discriminate H | by split].
Qed.

Lemma lower_char_idemp c : lower_char (lower_char c) = lower_char c.
Proof. by destruct c as [[|] [|] [|] [|] [|] [|] [|] [|]]; vm_compute. Qed.

Lemma toLowerCase_idemp s : toLowerCase (toLowerCase s) = toLowerCase s.
Proof. induction s as [|c s IH]; [done|]. simpl. by rewrite lower_char_idemp, IH. Qed.

Lemma strip_non_slug_chars s : all_chars is_slug_char (strip_non_slug s) = true.
Proof.
  induction s as [|c s IH]; [done|]. simpl.
  destruct (is_slug_char c) eqn:Hc; [|done]. simpl. by rewrite Hc, IH.
Qed.

Lemma slugify_fixed s : all_chars is_slug_char s = true → slugify s = s.
Proof.
  unfold slugify. generalize false as in_gap. induction s as [|c s IH]; [done|].
  intros in_gap. cbn [all_chars]. intros [Hc Hs]%andb_true_iff.
  destruct (slug_char_plain c Hc) as [Hlow Hws].
  cbn [toLowerCase underscore_ws]. rewrite Hlow, Hws. cbn [strip_non_slug].
  by rewrite Hc, IH.
Qed.

(** X16: a slug holds only the characters a-z, 0-9 and underscore;
    making a slug of a slug changes nothing; and the case of the letters
    of a topic does not matter to its slug. *)
Theorem slugify_spec s :
  all_chars is_slug_char (slugify s) = true ∧
  slugify (slugify s) = slugify s ∧
  slugify (toLowerCase s) = slugify s.
Proof.
  split; [apply strip_non_slug_chars|]. split.
  - apply slugify_fixed, strip_non_slug_chars.
  - unfold slugify. by rewrite toLowerCase_idemp.
Qed.

Section ExportProps.
Context `{codec : JSONCodec} `{html : HTMLParser} `{page : Page}.
Implicit Types st : gmap string string.

(** ** Exports and imports by topic *)


(** X18: the export of all topics writes one file per topic of the star
    map and nothing else: for each topic the file that the export of the
    selected topic writes for it, whose text reads back as the array of
    the star set of the topic. *)
Theorem exportAllTopics_spec st m :
  loadStarsByTopic st = Normal m →
  ∃ files, exportAllTopics st = Normal files ∧
    length files = size m ∧
    (∀ f, f ∈ files ↔
       ∃ topic set, m !! topic = Some set ∧
         f = ("stars_" +:+ slugify topic +:+ ".json", JSON_stringify 2 (JArr set))) ∧
    (∀ topic, topic ≠ EmptyString → topic ∈ dom m →
       ∃ f, exportSelectedTopic topic st = Normal (Done, [f]) ∧ f ∈ files) ∧
    (∀ f, f ∈ files → ∃ set, JSON_parse (snd f) = Some (JArr set) ∧ set_ok set).
Proof.
  intros Hm. pose proof (loadStarsByTopic_ok _ _ Hm) as (_ & Hok & _).
  unfold exportAllTopics. rewrite Hm. cbn [cbind]. eexists. split; [done|].
  assert (∀ f, f ∈ map (fun e : string * list json =>
                         ("stars_" +:+ slugify (fst e) +:+ ".json",
                          JSON_stringify 2 (JArr (snd e)))) (map_to_list (own m)) ↔
            ∃ topic set, m !! topic = Some set ∧
              f = ("stars_" +:+ slugify topic +:+ ".json", JSON_stringify 2 (JArr set)))
    as Hfiles.
  { intros f. rewrite list_elem_of_In, in_map_iff. split.
    - intros ([k s] & <- & Hin%list_elem_of_In%elem_of_map_to_list). by exists k, s.
    - intros (k & s & Hk & ->). exists (k, s). split; [done|].
      by apply list_elem_of_In, elem_of_map_to_list. }
  split; [|split; [|split]].
  - rewrite length_map, length_map_to_list. done.
  - done.
  - intros topic Htopic [set Hk]%elem_of_dict_dom. apply is_empty_false in Htopic.
    unfold exportSelectedTopic. rewrite Htopic, Hm. cbn [cbind].
    rewrite (dict_get_own _ _ set) by done. cbn [cbind].
    eexists. split; [done|]. apply Hfiles. by exists topic, set.
  - intros f (topic & set & Hk & ->)%Hfiles. exists set. cbn [snd].
    split; [apply parse_stringify|by eapply Hok].
Qed.

End ExportProps.


Lemma exportAllTopics_spec_witness :
  ∃ files, exportAllTopics storage_vision = Normal files ∧ length files = size stars_vision.
Proof.
  destruct (exportAllTopics_spec (codec := ref_codec) storage_vision stars_vision
              storage_vision_stars) as (files & Hrun & Hlen & _).
  exists files. exact (conj Hrun Hlen).
Defined.

(** The export of a topic whose name [Object.prototype] defines and that
    has no star set throws. *)
Lemma export_inherited_topic :
  exportSelectedTopic (codec := ref_codec) "constructor" storage_vision = Throw TypeError.
Proof. vm_compute. reflexivity. Qed.

(** ** Neighbours in the index *)

Ltac zbool :=
  symmetry; rewrite ?Z.geb_leb;
  first [apply Z.ltb_ge; lia | apply Z.ltb_lt; lia | apply Z.leb_le; lia | apply Z.leb_gt; lia].

Lemma findIndex_none {A} (f : A → bool) l :
  (∀ x, x ∈ l → f x = false) → findIndex f l = -1.
Proof.
  induction l as [|x l IH]; [done|]. intros H. cbn [findIndex].
  rewrite (H x) by by left. rewrite IH; [done|]. intros y Hy. apply H. by right.
Qed.

Lemma findIndex_first {A} (f : A → bool) pre x post :
  (∀ y, y ∈ pre → f y = false) → f x = true →
  findIndex f (pre ++ x :: post) = Z.of_nat (length pre).
Proof.
  intros Hpre Hx. induction pre as [|y pre IH]; cbn [findIndex app length].
  - by rewrite Hx.
  - rewrite (Hpre y) by by left. rewrite IH by (intros z Hz; apply Hpre; by right).
    destruct (Z.of_nat (length pre) <? 0) eqn:Hlt; lia.
Qed.

Lemma findIndex_spec {A} (f : A → bool) l :
  (findIndex f l = -1 ∧ ∀ x, x ∈ l → f x = false) ∨
  (∃ pre x post, l = pre ++ x :: post ∧ (∀ y, y ∈ pre → f y = false) ∧ f x = true).
Proof.
  induction l as [|x l IH].
  - left. split; [done|]. by intros x ?%elem_of_nil.
  - destruct (f x) eqn:Hx.
    + right. exists [], x, l. split; [done|]. split; [|done]. by intros y ?%elem_of_nil.
    + destruct IH as [[Hi Hall]|(pre & y & post & -> & Hpre & Hy)].
      * left. split.
        -- apply findIndex_none. intros y [->|Hy]%elem_of_cons; auto.
        -- intros y [->|Hy]%elem_of_cons; auto.
      * right. exists (x :: pre), y, post. split; [done|]. split; [|done].
        intros z [->|Hz]%elem_of_cons; auto.
Qed.

Lemma dates_none current (l : list index_entry) :
  (∀ y, y ∈ l → String.eqb (date y) current = false) ↔ current ∉ date <$> l.
Proof.
  rewrite list_elem_of_fmap. split.
  - intros H (y & -> & Hy). specialize (H y Hy). by rewrite String.eqb_refl in H.
  - intros H y Hy. apply String.eqb_neq. intros <-. apply H. by exists y.
Qed.

Lemma findNeighborDate_prev pre a b post :
  date a ≠ date b → date b ∉ date <$> pre →
  findNeighborDate (pre ++ a :: b :: post) (date b) (-1) = Some (date a).
Proof.
  intros Hab Hpre.
  assert (findIndex (fun x => String.eqb (date x) (date b)) (pre ++ a :: b :: post)
          = Z.of_nat (length pre) + 1) as Hi.
  { change (pre ++ a :: b :: post) with (pre ++ [a] ++ b :: post).
    rewrite app_assoc, findIndex_first.
    - rewrite length_app. simpl. lia.
    - intros y [Hy|Hy%list_elem_of_singleton]%elem_of_app.
      + by apply dates_none with pre.
      + subst y. by apply String.eqb_neq.
    - apply String.eqb_refl. }
  unfold findNeighborDate. rewrite Hi.
  replace (length (pre ++ a :: b :: post) =? 0)%nat with false
    by (symmetry; apply Nat.eqb_neq; rewrite length_app; simpl; lia).
  cbv zeta. rewrite length_app. cbn [length].
  replace (Z.of_nat (length pre) + 1 <? 0) with false by zbool.
  change (-1 <? 0) with true. cbv iota.
  replace (Z.of_nat (length pre) + 1 + -1) with (Z.of_nat (length pre)) by lia.
  replace (Z.of_nat (length pre) <? 0) with false by zbool.
  replace (Z.of_nat (length pre) >=? Z.of_nat (length pre + S (S (length post))))
    with false by zbool.
  cbn [orb]. rewrite Nat2Z.id.
  by rewrite list_lookup_middle.
Qed.

Lemma findNeighborDate_next pre a b post dir :
  0 <= dir → date a ∉ date <$> pre →
  findNeighborDate (pre ++ a :: b :: post) (date a) dir = Some (date b).
Proof.
  intros Hdir Hpre. unfold findNeighborDate.
  replace (length (pre ++ a :: b :: post) =? 0)%nat with false
    by (symmetry; apply Nat.eqb_neq; rewrite length_app; simpl; lia).
  rewrite findIndex_first.
  - cbv zeta. rewrite length_app. cbn [length].
    replace (Z.of_nat (length pre) <? 0) with false by zbool.
    replace (dir <? 0) with false by zbool.
    replace (Z.of_nat (length pre) + 1 <? 0) with false by zbool.
    replace (Z.of_nat (length pre) + 1 >=? Z.of_nat (length pre + S (S (length post))))
      with false by zbool.
    cbn [orb].
    replace (Z.to_nat (Z.of_nat (length pre) + 1)) with (length (pre ++ [a])).
    + change (pre ++ a :: b :: post) with (pre ++ [a] ++ b :: post).
      by rewrite app_assoc, list_lookup_middle.
    + rewrite length_app. simpl. lia.
  - by apply dates_none.
  - apply String.eqb_refl.
Qed.

Lemma findNeighborDate_iff INDEX current dir n :
  findNeighborDate INDEX current dir = Some n ↔
  ∃ pre a b post,
    INDEX = pre ++ a :: b :: post ∧ (current ∉ date <$> pre) ∧
    if dir <? 0 then date a ≠ current ∧ date b = current ∧ n = date a
    else date a = current ∧ n = date b.
Proof.
  split.
  - unfold findNeighborDate. destruct (length INDEX =? 0)%nat; [done|].
    destruct (findIndex_spec (fun x => String.eqb (date x) current) INDEX)
      as [[-> _]|(pre & x & post & -> & Hpre & Hx)]; [done|].
    rewrite findIndex_first by done. cbv zeta.
    replace (Z.of_nat (length pre) <? 0) with false by zbool.
    apply String.eqb_eq in Hx. apply dates_none in Hpre.
    destruct (dir <? 0) eqn:Hdir.
    + destruct pre as [|a pre _] using rev_ind; [done|].
      rewrite !length_app. cbn [length].
      replace (Z.of_nat (length pre + 1) + -1) with (Z.of_nat (length pre)) by lia.
      replace (Z.of_nat (length pre) <? 0) with false by zbool.
      destruct (_ >=? _); [done|]. cbn [orb]. rewrite Nat2Z.id, <- app_assoc. cbn [app].
      rewrite list_lookup_middle by done. intros [= <-].
      exists pre, a, x, post. rewrite fmap_app in Hpre.
      apply not_elem_of_app in Hpre as [Hpre Ha]. split; [done|]. split; [done|].
      split; [|done]. intros Heq. apply Ha. rewrite <- Heq. by left.
    + destruct post as [|b post].
      { rewrite length_app. cbn [length].
        replace (Z.of_nat (length pre) + 1 >=? Z.of_nat (length pre + 1)) with true by zbool.
        by rewrite orb_true_r. }
      destruct (_ || _); [done|].
      replace (Z.to_nat (Z.of_nat (length pre) + 1)) with (length (pre ++ [x]))
        by (rewrite length_app; simpl; lia).
      change (pre ++ x :: b :: post) with (pre ++ [x] ++ b :: post).
      rewrite app_assoc, list_lookup_middle by done. intros [= <-].
      exists pre, x, b, post. by rewrite <- app_assoc.
  - intros (pre & a & b & post & -> & Hpre & H). destruct (dir <? 0) eqn:Hdir.
    + destruct H as (Hab & <- & ->).
      assert (dir = -1 ∨ dir ≠ -1) as [->|Hne] by lia.
      * by apply findNeighborDate_prev.
      * pose proof (findNeighborDate_prev pre a b post Hab Hpre) as Hp.
        unfold findNeighborDate in *. by rewrite Hdir.
    + destruct H as (<- & ->). apply findNeighborDate_next; [lia|done].
Qed.

(** X19: the neighbour of a date is the entry next to the first
    occurrence of the date in the index, before it for a negative
    direction and after it otherwise; there is none when the index lacks
    the date (or when that occurrence is at the end in question), and a
    neighbour is always a date of the index. *)
Theorem findNeighborDate_spec INDEX current dir :
  (∀ n, findNeighborDate INDEX current dir = Some n ↔
     ∃ pre a b post,
       INDEX = pre ++ a :: b :: post ∧ (current ∉ date <$> pre) ∧
       if dir <? 0 then date a ≠ current ∧ date b = current ∧ n = date a
       else date a = current ∧ n = date b) ∧
  (current ∉ date <$> INDEX → findNeighborDate INDEX current dir = None) ∧
  (∀ n, findNeighborDate INDEX current dir = Some n → n ∈ date <$> INDEX).
Proof.
  split; [apply findNeighborDate_iff|]. split.
  - intros Hnot. destruct (findNeighborDate INDEX current dir) as [n|] eqn:Hn; [|done].
    apply findNeighborDate_iff in Hn as (pre & a & b & post & -> & _ & H).
    destruct Hnot. rewrite fmap_app, !fmap_cons. apply elem_of_app. right.
    destruct (dir <? 0).
    + destruct H as (_ & <- & _). right. by left.
    + destruct H as [<- _]. by left.
  - intros n (pre & a & b & post & -> & _ & H)%findNeighborDate_iff.
    rewrite fmap_app, !fmap_cons. apply elem_of_app. right. destruct (dir <? 0).
    + destruct H as (_ & _ & ->). by left.
    + destruct H as [_ ->]. right. by left.
Qed.

(** X20: in an index without repeated dates, the next date of a date
    is n exactly when the previous date of n is that date; the first
    date has no previous date and the last date no next one. *)
Theorem findNeighborDate_inverse INDEX current n :
  NoDup (date <$> INDEX) →
  (findNeighborDate INDEX current 1 = Some n ↔
   findNeighborDate INDEX n (-1) = Some current) ∧
  (∀ first rest, INDEX = first :: rest →
     findNeighborDate INDEX (date first) (-1) = None) ∧
  (∀ init last, INDEX = init ++ [last] →
     findNeighborDate INDEX (date last) 1 = None).
Proof.
  intros Hnd. split; [|split].
  - rewrite !findNeighborDate_iff. change (1 <? 0) with false.
    change (-1 <? 0) with true. cbv iota.
    split; intros (pre & a & b & post & -> & Hpre & H); exists pre, a, b, post;
      (split; [done|]);
      rewrite fmap_app, !fmap_cons in Hnd;
      apply NoDup_app in Hnd as (_ & Hdisj & Hnd);
      apply NoDup_cons in Hnd as [Ha Hnd].
    + destruct H as [<- ->]. split; [|split; [|done]].
      * intros Hin. apply (Hdisj _ Hin). right. by left.
      * intros Heq. apply Ha. rewrite Heq. by left.
    + destruct H as (Hab & <- & ->). split; [|done].
      intros Hin. apply (Hdisj _ Hin). by left.
  - intros first rest ->. unfold findNeighborDate. cbn [length Nat.eqb findIndex].
    by rewrite String.eqb_refl.
  - intros init last ->. rewrite fmap_app in Hnd.
    apply NoDup_app in Hnd as (_ & Hdisj & _).
    assert (date last ∉ date <$> init) as Hinit.
    { intros Hin. apply (Hdisj _ Hin). by left. }
    unfold findNeighborDate. destruct (length (init ++ [last]) =? 0)%nat; [done|].
    rewrite findIndex_first; [|by apply dates_none|apply String.eqb_refl].
    cbv zeta. rewrite length_app. cbn [length].
    replace (Z.of_nat (length init) <? 0) with false by zbool.
    change (1 <? 0) with false. cbv iota.
    replace (Z.of_nat (length init) + 1 >=? Z.of_nat (length init + 1)) with true by zbool.
    by rewrite orb_true_r.
Qed.

Lemma index_three_NoDup : NoDup (date <$> index_three).
Proof. cbn. repeat (apply NoDup_cons; split; [not_among|]). apply NoDup_nil_2. Qed.

Lemma findNeighborDate_inverse_witness :
  findNeighborDate index_three "2024-01-02" 1 = Some "2024-01-03" ↔
  findNeighborDate index_three "2024-01-03" (-1) = Some "2024-01-02".
Proof.
  exact (proj1 (findNeighborDate_inverse index_three "2024-01-02" "2024-01-03"
                  index_three_NoDup)).
Defined.

(** ** The read-later viewer *)

Section ReadLaterOnlyProps.
Context `{codec : JSONCodec} `{page : Page}.
Implicit Types st : gmap string string.

Lemma guarded_load_saved set st :
  set_ok set →
  ReadLaterOnly.loadReadLater (ReadLaterOnly.saveReadLater set st) = set.
Proof.
  intros Hset. unfold ReadLaterOnly.loadReadLater, ReadLaterOnly.saveReadLater.
  rewrite lookup_insert_eq.
  destruct (is_empty (JSON_stringify 0 (JArr set))) eqn:He.
  { apply is_empty_true in He. by apply stringify_nonempty in He. }
  rewrite parse_stringify. cbn [cbind]. by rewrite new_Set_array.
Qed.

Lemma guarded_load_ok st : set_ok (ReadLaterOnly.loadReadLater st).
Proof.
  unfold ReadLaterOnly.loadReadLater.
  destruct (cbind _ _) as [set|e] eqn:Hset; [|constructor]. cbn [catch].
  destruct (st !! ReadLaterOnly.STORAGE_KEY_RL) as [s|].
  - destruct (is_empty s); [cbn [cbind] in Hset; by apply new_Set_ok in Hset|].
    destruct (JSON_parse s); [|done]. cbn [cbind] in Hset. by apply new_Set_ok in Hset.
  - cbn [cbind] in Hset. by apply new_Set_ok in Hset.
Qed.

(** X21: the load of the read-later viewer gives a set for every state
    of the storage: the distinct elements of the stored array when the
    stored text is the text of an array, and the empty set otherwise
    (nothing stored, text that is no JSON, JSON of another shape); and it
    reads back what the save of that version wrote. *)
Theorem loadReadLater_guarded st :
  set_ok (ReadLaterOnly.loadReadLater st) ∧
  (∀ l, stored_array st l → ReadLaterOnly.loadReadLater st = set_add_all [] l) ∧
  ((∀ l, ¬ stored_array st l) → ReadLaterOnly.loadReadLater st = []) ∧
  (∀ set, set_ok set →
     ReadLaterOnly.loadReadLater (ReadLaterOnly.saveReadLater set st) = set).
Proof.
  split; [apply guarded_load_ok|]. split; [|split; [|intros; by apply guarded_load_saved]].
  - intros l (s & Hs & Hne & Hp). unfold ReadLaterOnly.loadReadLater. rewrite Hs.
    apply is_empty_false in Hne. by rewrite Hne, Hp.
  - intros Hnot. unfold ReadLaterOnly.loadReadLater.
    destruct (st !! ReadLaterOnly.STORAGE_KEY_RL) as [s|] eqn:Hs; [|done].
    destruct (is_empty s) eqn:He; [done|].
    destruct (JSON_parse s) as [v|] eqn:Hp; [|done]. cbn [cbind].
    destruct v as [| | |l|]; try done. destruct (Hnot l). exists s.
    by apply is_empty_false in He.
Qed.

Lemma guarded_import_state text ids st :
  JSON_parse text = Some (JArr ids) →
  ReadLaterOnly.importReadLaterFile text st
  = (Normal (caught (cbind (ReadLaterOnly.page_view els ALL
                              (ReadLaterOnly.saveReadLater
                                 (set_add_all (ReadLaterOnly.loadReadLater st) ids) st))
                       (fun _ => Normal Done))),
     ReadLaterOnly.saveReadLater
       (set_add_all (ReadLaterOnly.loadReadLater st) ids) st).
Proof.
  intros Hp. unfold ReadLaterOnly.importReadLaterFile. rewrite Hp.
  apply try_catch_caught. rewrite run_read, run_write.
  unfold ReadLaterOnly.applyFilters, mbind, js_mbind, js_bind, lift, js_ret.
  by destruct (ReadLaterOnly.page_view els ALL _).
Qed.

(** X22: the import of the read-later viewer reports text that is no
    JSON and JSON that is no array with an alert each and leaves the
    storage as it is; an array is added to the stored set, whose elements
    stay in their order, for every state of the storage; the import is
    then done when the page renders, and shows the alert of its catch
    block when the rendering throws.  (The values of the file are JSON
    values without numbers, as everywhere here.) *)
Theorem importReadLaterFile_spec text st :
  (JSON_parse text = None →
   ReadLaterOnly.importReadLaterFile text st
   = (Normal (Alert "Failed to parse JSON."), st)) ∧
  (∀ v, JSON_parse text = Some v → (∀ ids, v ≠ JArr ids) →
     ReadLaterOnly.importReadLaterFile text st
     = (Normal (Alert "Expected an array of paper IDs."), st)) ∧
  (∀ ids, JSON_parse text = Some (JArr ids) →
     ∃ st' added,
       ReadLaterOnly.importReadLaterFile text st
       = (Normal (caught (cbind (ReadLaterOnly.page_view els ALL st')
                            (fun _ => Normal Done))), st') ∧
       ReadLaterOnly.loadReadLater st' = ReadLaterOnly.loadReadLater st ++ added ∧
       (∀ x, x ∈ added → x ∈ ids) ∧
       (∀ x, set_has (ReadLaterOnly.loadReadLater st') x
             = set_has (ReadLaterOnly.loadReadLater st) x || set_has ids x)).
Proof.
  split; [|split].
  - intros Hp. unfold ReadLaterOnly.importReadLaterFile. by rewrite Hp.
  - intros v Hp Hv. unfold ReadLaterOnly.importReadLaterFile. rewrite Hp.
    destruct v as [| | |ids|]; try done. by destruct (Hv ids).
  - intros ids Hp. rewrite (guarded_import_state _ _ _ Hp).
    destruct (set_add_all_extends (ReadLaterOnly.loadReadLater st) ids)
      as (added & Hadd & Hsub).
    eexists _, added. split; [done|].
    rewrite guarded_load_saved by apply set_add_all_ok, guarded_load_ok.
    split; [done|]. split; [done|]. intros x. apply set_has_add_all.
Qed.

End ReadLaterOnlyProps.

Lemma importReadLaterFile_spec_witness :
  ∃ st' added,
    ReadLaterOnly.importReadLaterFile (page := page_two) ("[" +:+ quoted "p2" +:+ "]")
      storage_object_read_later
    = (Normal (caught (cbind (ReadLaterOnly.page_view idle_controls two_papers st')
                         (fun _ => Normal Done))), st') ∧
    ReadLaterOnly.loadReadLater st'
    = ReadLaterOnly.loadReadLater storage_object_read_later ++ added ∧
    (∀ x, x ∈ added → x ∈ [JStr "p2"]).
Proof.
  destruct (importReadLaterFile_spec (codec := ref_codec) (page := page_two)
              ("[" +:+ quoted "p2" +:+ "]") storage_object_read_later) as (_ & _ & H).
  destruct (H [JStr "p2"] parse_p2) as (st' & added & Hrun & Hload & Hsub & _).
  exists st', added. exact (conj Hrun (conj Hload Hsub)).
Defined.

Lemma stored_object_no_array l : ¬ stored_array (codec := ref_codec) storage_object_read_later l.
Proof.
  intros (s & Hs & _ & Hp). vm_compute in Hs. injection Hs as <-.
  vm_compute in Hp. discriminate Hp.
Qed.

Lemma stored_p1_array : stored_array (codec := ref_codec) storage_p1 [JStr "p1"].
Proof.
  exists (JSON_stringify 0 (JArr [JStr "p1"])). split; [|split].
  - vm_compute. reflexivity.
  - vm_compute. discriminate.
  - apply parse_stringify.
Qed.

Lemma loadReadLater_guarded_witness :
  ReadLaterOnly.loadReadLater storage_object_read_later = [] ∧
  ReadLaterOnly.loadReadLater storage_p1 = set_add_all [] [JStr "p1"].
Proof.
  split.
  - exact (proj1 (proj2 (proj2 (loadReadLater_guarded (codec := ref_codec)
                                  storage_object_read_later)))
             stored_object_no_array).
  - exact (proj1 (proj2 (loadReadLater_guarded (codec := ref_codec) storage_p1))
             [JStr "p1"] stored_p1_array).
Defined.


(** The import of the viewer on the page with a paper whose category is
    a string: the set is stored and the alert of the catch block shown. *)
Lemma viewer_import_odd :
  fst (ReadLaterOnly.importReadLaterFile (codec := ref_codec) (page := page_odd)
         ("[" +:+ quoted "p2" +:+ "]") storage_p1)
  = Normal (Alert "Failed to parse JSON.") ∧
  ReadLaterOnly.loadReadLater
    (snd (ReadLaterOnly.importReadLaterFile (codec := ref_codec) (page := page_odd)
            ("[" +:+ quoted "p2" +:+ "]") storage_p1))
  = [JStr "p1"; JStr "p2"] ∧
  fst (ReadLaterOnly.importReadLaterFile (codec := ref_codec) (page := page_two)
         ("[" +:+ quoted "p2" +:+ "]") storage_p1)
  = Normal Done.
Proof. repeat split; vm_compute; reflexivity. Qed.
